(* ===== verification/_CoqProject ===== *)
-Q . S2P
Prelude.v
Capacity.v
BitCodec.v
Layout.v
CodecWrite.v
CodecRead.v
Codec.v
TextCodec.v
FilePacker.v
Steg.v
Display.v
Demo.v
