(* ===== verification/Prelude.v ===== *)
(** * A verification development of paulmillr/steg

    steg (src/index.ts) hides a file in the least significant bits of the
    RGB channels of an image.  [StegImage.hide] packs the file
    ([RawFile.packWithPadding]), encrypts it with AES-GCM (micro-aes-gcm)
    to exactly the capacity of the image ([calcCapacity]), and writes the
    ciphertext into the channel buffer with [hideBlob]: a 3-bit header
    ([bitsTaken - 1], one bit in each of channels 0..2), then the payload
    [bitsTaken] bits per colour channel, alpha channels blanked, the last
    partial channel and every remaining channel filled from a random
    source.  [reveal] reads the header ([revealBitsTaken]), the payload
    ([revealBlob]), decrypts and unpacks ([RawFile.fromPacked]).

    ** Files, in dependency order

    - Prelude.v (this file): the errors of the code ([StegError], one
      constructor per [throw]), the result monad [res] with stdpp's
      [≫=], JavaScript's 32-bit operators ([.<<.], [.>>.], [.|.], [.&.],
      [toInt32]), typed-array stores as the class [ByteArrayKind]
      ([Uint8Array] wraps, [Uint8ClampedArray] clamps), bit strings
      ([bits_of], [val_of]) and the generic lemmas on them, the hint
      database [steg] and the tactic [arith].
    - Capacity.v: [validateBits] and [calcCapacity] (lines 5-9, 202-218);
      [bits] is a rational as in JavaScript, [bytes] its floor.
    - BitCodec.v: the cursor and the loops of the codec.  The closure
      [writeChannel] of [hideBlob] and its captured [channels]/[channelId]
      are a [Cursor]; the accumulator [buf]/[bufBits] and the count of
      random bytes drawn form a [Writer]; each loop of [hideBlob] (lines
      254-341) is a [Fixpoint]; the loop of [revealBlob] (lines 392-407)
      reads with a [Reader].  The random source [getRandomByte] is a
      section variable [rand : nat -> Z], the n-th draw being [rand n].
    - Layout.v: the abstract specification of the codec, the image as a
      function of the payload values ([stego]): which channel holds which
      value; and the codec's contract [layout_spec], the same layout
      stated channel by channel without the payload values.  CodecWrite.v proves that the loops of the write path produce
      exactly this layout (a refinement: each loop of the code against
      one operation of the layout); CodecRead.v that the read loop reads
      it back.
    - Codec.v: the entry points [hideBlobChannels] (the write path of
      [hideBlob] up to its cursor check), [revealBitsTaken] and
      [revealBlob]; the refinement theorems lifted to them, and the
      codec's claims: round trip, only low bits changed, alpha blanked,
      header read back, errors.
    - TextCodec.v: the class [TextCodec] for [utils.utf8ToBytes] and
      [utils.bytesToUtf8], and its instance [whatwg_text], the platform's
      TextEncoder/TextDecoder modelled from the Encoding Standard (lone
      surrogates replaced, malformed input replaced by U+FFFD, a leading
      U+FEFF dropped), with the proof that well-formed strings not
      starting with U+FEFF survive the round trip.
    - FilePacker.v: [RawFile], [createHeader], [pack], [packWithPadding],
      [fromPacked] (lines 47-148) over typed arrays and DataView with their
      range checks.
    - Steg.v: the [StegImage] object and [hide], [reveal], the canvas
      checks and [toBlob] of [hideBlob] (lines 167-237, 343-368), in a
      state-and-error monad over the object, so that the state a throw
      leaves behind is modelled.  AES-GCM and the canvas are the classes
      [AEAD] and [Canvas], whose laws are the contracts the code relies on.
      The calls a page makes on one object are the inductive [Call], and
      the objects it can reach from the constructor the relation
      [reachable].
    - Display.v: [utils.formatSize] (lines 440-446), with
      [Number::toString] and [Number.prototype.toFixed] modelled from
      ECMA-262 over exact rationals, and a reference reader of the
      decimals it prints.
    - Demo.v: the page script src/demo/index.js, both forms' listeners as
      handlers of a state-and-error monad over the page (the caches and
      the DOM properties the script writes), a step relation over the
      page's events, and the StegImage methods run on the cached objects.

    ** The theorems (claims C1..C35)

    End to end (Steg.v): [reveal] of the image [hide] produced gives the
    file back (C1); [hide] succeeds on a faithful canvas when the file
    fits (C4); the size check of [hide] never fires (C11); it rejects a
    file that does not fit before touching the image (C13); a wrong key
    reports [AuthenticationFailed] (C23); a failed canvas check leaves
    the written channels in the object (C24); and on every object a page
    can reach ([reachable], any calls returning or throwing), a
    successful [hide] leaves the object as new and writes over the
    object's current channels, not its source image, so that a failed
    earlier call's bits survive in the output (C8, by rule induction on
    [reachable]).
    Codec (Codec.v, BitCodec.v): reveal after hide returns the hidden
    bytes (C2); only the low bits change (C5); alpha channels hold the
    sentinel (C6); the header reads back (C7), is always in 1..8 (C16) and
    depends on channels 0..2 only (C17); [revealBlob] equals a reference
    decoder on every buffer (C9); the internal errors are unreachable
    (C10); the input errors (C12); an image below one pixel (C25); the
    write path refines the contract [layout_spec], which is enough for
    the read path to return the payload (C35).  Capacity (C14, C15).
    Packer (FilePacker.v): the round trip (C3), the layout (C18), the
    padding (C19), the errors (C20), the missing length check (C21), the
    dropped U+FEFF (C22), and the size field wrapping for files of 2^32
    bytes or more (C28).
    Display (Display.v): [formatSize] in closed form, an integer
    computation whose unit switches on the count, not on the rounded
    value (C26), and its decimals read back within half a hundredth of
    the size (C27).
    Demo page (Demo.v): the submit button of the encryption form is
    enabled only when an image, a file and a key are chosen and the file
    fits by the page's own check (C29, by rule induction over the events);
    that check ignores the packing and AEAD overhead, so submitting can
    still throw (C30); an invalid password keeps the previous key (C31);
    moving bitsTaken first throws a TypeError (C32); the decryption form's
    bad-header message is dead code (C33); and encrypting then decrypting
    through both forms shows the hidden file (C34).

    ** Bounds and fuel

    The loops of the code are [Fixpoint]s with fuel.  The header loop runs
    3 times, the exact count.  [fillRandom_loop] and [revealBlob_loop] get
    the channel count as fuel: each iteration advances the channel index
    by at least one, so that fuel is enough: the final cursor check of
    [hideBlob] never fires (C10), and [revealBlob] equals a reference
    decoder that has no fuel (C9).  JavaScript numbers are [Z] with the 32-bit
    semantics of the bit operators written out; every value the codec
    shifts stays below 2^16, where they agree with [Z]'s.  [calcCapacity]
    uses exact rationals, which agree with doubles for channel counts
    below 2^50.  [formatSize] takes an integral byte count; for safe
    integers its quotients by 1024 and 2^20 are exact doubles below
    10^21, the range where [toFixed] formats digits as modelled.

    ** Not modelled

    Canvas and DOM code ([createCanvas], [fromBytesOrURL],
    [utils.setImageSource], [bytesToURL], [downloadFile]), file input
    ([RawFile.fromFileInput]) and [download] are I/O; the demo's DOM
    lookups, its download links, scrypt and the interleaving of await
    points inside one listener with other events are not modelled
    (Demo.v runs each listener to completion); the rollup configuration
    appended to the demo is build configuration; AES-GCM is a library,
    specified by its contract only.  The declaration file
    src/unnamed/part_000 (index.d.ts) declares the types of the members
    modelled above and contains no code of its own. *)

From stdpp Require Import base list.
From Stdlib Require Import ZArith Lia ZifyNat.

Open Scope Z_scope.

(** ** Errors of the library, one constructor per [throw] of src/index.ts *)

Inductive StegError :=
  | BitsOutOfRange          (* validateBits: 'Bits taken must be >= 1 and <= 8' *)
  | NameLengthInvalid       (* createHeader: 'File name must be 1-255 chars' *)
  | RequiredLengthTooSmall  (* packWithPadding: 'requiredLength is lesser than result' *)
  | NameEmpty               (* fromPacked: 'file name must contain at least 1 character' *)
  | DataViewRange           (* DataView.getUint8/getUint32 past the end: RangeError *)
  | ArrayLengthRange        (* new Uint8Array(n) with n < 0: RangeError *)
  | TypedArraySetRange      (* TypedArray.prototype.set past the end: RangeError *)
  | CapacityExceeded        (* hideBlob: "Can't hide ... bytes in ... bytes" *)
  | RandomBitsExhausted     (* hideBlob: 'Need more than 7 random bits' *)
  | BufBitsMismatch         (* hideBlob: 'bufBits !== bitsTaken' *)
  | CursorMismatch          (* hideBlob: 'Current pixel length ... is different' *)
  | NoContext               (* hideBlob: 'No context' *)
  | VerificationMismatch    (* hideBlob: 'Mismatch after verification' *)
  | NoBlob                  (* hideBlob: 'No blob' *)
  | EncryptedSizeMismatch   (* hide: 'Encrypted blob must be equal to total data length' *)
  | AuthenticationFailed.   (* aes.decrypt: tag does not verify *)

#[export] Instance StegError_eq_dec : EqDecision StegError.
Proof. solve_decision. Defined.

(** ** The result monad: a call either returns or throws *)

Inductive res (A : Type) : Type :=
  | Ok (a : A)
  | Err (e : StegError).
Arguments Ok {A} a.
Arguments Err {A} e.

#[export] Instance res_ret : MRet res := fun A x => Ok x.
#[export] Instance res_bind : MBind res :=
  fun A B f r => match r with Ok x => f x | Err e => Err e end.
#[export] Instance res_fmap : FMap res :=
  fun A B f r => match r with Ok x => Ok (f x) | Err e => Err e end.

Declare Scope steg_scope.
Delimit Scope steg_scope with steg.
Open Scope steg_scope.

(** [guard_or e b] is [if (!b) throw e]. *)
Definition guard_or (e : StegError) (b : bool) : res unit :=
  if b then Ok tt else Err e.
Notation "'throw' e" := (Err e) (at level 10) : steg_scope.

(** ** JavaScript numbers at the width of the bitwise operators

    The bitwise operators of ECMAScript convert their operands with ToInt32
    (shift counts with ToUint32 and [& 0x1F]) and return a signed 32-bit
    integer.  The values of this program are integral, so a Number is a Z
    here; the conversions are written out so that the absence of overflow is
    a theorem, not an assumption. *)

Definition toInt32 (z : Z) : Z :=
  let m := z mod 2 ^ 32 in if m <? 2 ^ 31 then m else m - 2 ^ 32.
Definition toUint32 (z : Z) : Z := z mod 2 ^ 32.

Definition js_shl (a n : Z) : Z := toInt32 (Z.shiftl (toInt32 a) (toUint32 n mod 32)).
Definition js_sar (a n : Z) : Z := Z.shiftr (toInt32 a) (toUint32 n mod 32).
Definition js_or (a b : Z) : Z := Z.lor (toInt32 a) (toInt32 b).
Definition js_and (a b : Z) : Z := Z.land (toInt32 a) (toInt32 b).

Infix ".<<." := js_shl (at level 35) : steg_scope.
Infix ".>>." := js_sar (at level 35) : steg_scope.
Infix ".|." := js_or (at level 45, left associativity) : steg_scope.
Infix ".&." := js_and (at level 40, left associativity) : steg_scope.

(** A read [a[i]] of a typed array past its end yields [undefined]; the
    program only ever feeds such a read to a bitwise operator, where
    ToInt32(ToNumber(undefined)) = ToInt32(NaN) = 0. *)
Definition num_of (o : option Z) : Z := default 0 o.

(** ** Typed arrays of bytes

    A store [a[i] = v] converts [v] by the array's element conversion and
    does nothing when [i] is out of range; stdpp's list insert has the same
    out-of-range behaviour.  ImageData.data is a Uint8ClampedArray in the
    browser; the tests of src/test/index.js hand the code a Uint8Array. *)

Class ByteArrayKind := {
  ta_conv : Z -> Z;
  ta_conv_id : forall v, 0 <= v < 256 -> ta_conv v = v;
  ta_conv_range : forall v, 0 <= ta_conv v < 256;
}.

(** ToUint8Clamp on an integer argument (rounding does not arise). *)
Definition clamp_u8 (v : Z) : Z := Z.max 0 (Z.min 255 v).
(** ToUint8: reduction modulo 2^8. *)
Definition wrap_u8 (v : Z) : Z := v mod 256.

#[export] Program Instance Uint8ClampedArray : ByteArrayKind := {| ta_conv := clamp_u8 |}.
Next Obligation. intros v Hv. unfold clamp_u8. lia. Qed.
Next Obligation. intros v. unfold clamp_u8. lia. Qed.

#[export] Program Instance Uint8Array : ByteArrayKind := {| ta_conv := wrap_u8 |}.
Next Obligation. intros v Hv. unfold wrap_u8. apply Z.mod_small; lia. Qed.
Next Obligation. intros v. unfold wrap_u8. apply Z.mod_pos_bound; lia. Qed.

Definition ta_set `{ByteArrayKind} (a : list Z) (i : nat) (v : Z) : list Z :=
  <[i := ta_conv v]> a.

Definition is_byte (v : Z) : Prop := 0 <= v < 256.
#[export] Instance is_byte_dec v : Decision (is_byte v).
Proof. unfold is_byte. apply _. Defined.
Definition bytes_ok (l : list Z) : Prop := Forall is_byte l.
(** Its boolean checker, for concrete arrays. *)
Definition bytes_okb (l : list Z) : bool := forallb (fun v => (0 <=? v) && (v <? 256)) l.

(** ** Bit strings, most significant bit first *)

Fixpoint bits_of (n : nat) (v : Z) : list bool :=
  match n with
  | O => []
  | S n' => Z.testbit v (Z.of_nat n') :: bits_of n' v
  end.

Definition val_of (bs : list bool) : Z :=
  fold_left (fun acc b => 2 * acc + Z.b2z b) bs 0.

Definition bytes_bits (l : list Z) : list bool := concat (map (bits_of 8) l).

(** Its inverse: [n] bytes from a bit string, eight bits each. *)
Fixpoint bytes_of_bits (n : nat) (bs : list bool) : list Z :=
  match n with
  | O => []
  | S n' => val_of (take 8 bs) :: bytes_of_bits n' (drop 8 bs)
  end.

Create HintDb steg.

(** Linear arithmetic with division and remainder by constants, on nat and Z. *)
Ltac arith := zify; Z.div_mod_to_equations; lia.

(** ** The result monad *)

Lemma res_bind_Ok {A B} (x : A) (f : A -> res B) : (Ok x ≫= f) = f x.
Proof. reflexivity. Qed.
Lemma res_bind_Err {A B} e (f : A -> res B) : (Err e ≫= f) = Err e.
Proof. reflexivity. Qed.
Lemma res_bind_Ok_inv {A B} (r : A -> res B) m b :
  (m ≫= r) = Ok b -> exists a, m = Ok a /\ r a = Ok b.
Proof. destruct m; simpl; [eauto | discriminate]. Qed.
Lemma guard_or_true e : guard_or e true = Ok tt.
Proof. reflexivity. Qed.

(** ** Lemmas on the 32-bit operators at small operands *)

Lemma toInt32_id z : -2 ^ 31 <= z < 2 ^ 31 -> toInt32 z = z.
Proof.
  intros. unfold toInt32. change (2 ^ 32) with 4294967296 in *. change (2 ^ 31) with 2147483648 in *.
  destruct (Z.ltb_spec (z mod 4294967296) 2147483648); Z.div_mod_to_equations; lia.
Qed.

Lemma toUint32_shift n : 0 <= n < 32 -> toUint32 n mod 32 = n.
Proof. intros. unfold toUint32. rewrite (Z.mod_small n); [apply Z.mod_small|]; lia. Qed.

Lemma pow2_pos n : 0 <= n -> 0 < 2 ^ n.
Proof. intros. apply Z.pow_pos_nonneg; lia. Qed.

Lemma js_shl_small a n :
  0 <= a -> 0 <= n < 32 -> a * 2 ^ n < 2 ^ 31 -> js_shl a n = a * 2 ^ n.
Proof.
  intros Ha Hn Hlt. pose proof (pow2_pos n (proj1 Hn)).
  unfold js_shl. rewrite toUint32_shift, (toInt32_id a) by nia.
  rewrite Z.shiftl_mul_pow2 by lia. apply toInt32_id. nia.
Qed.

Lemma js_sar_small a n : 0 <= a < 2 ^ 31 -> 0 <= n < 32 -> js_sar a n = a / 2 ^ n.
Proof.
  intros. unfold js_sar. rewrite toUint32_shift, toInt32_id by lia.
  apply Z.shiftr_div_pow2. lia.
Qed.

Lemma js_or_small a b : 0 <= a < 2 ^ 31 -> 0 <= b < 2 ^ 31 -> js_or a b = Z.lor a b.
Proof. intros. unfold js_or. rewrite !toInt32_id by lia. reflexivity. Qed.

Lemma js_and_small a b : 0 <= a < 2 ^ 31 -> 0 <= b < 2 ^ 31 -> js_and a b = Z.land a b.
Proof. intros. unfold js_and. rewrite !toInt32_id by lia. reflexivity. Qed.

(** Or-ing a value into cleared low bits is an addition. *)
Lemma lor_low a n b : 0 <= n -> 0 <= b < 2 ^ n -> Z.lor (a * 2 ^ n) b = a * 2 ^ n + b.
Proof.
  intros Hn Hb. assert (Hp : 0 < 2 ^ n) by (apply Z.pow_pos_nonneg; lia).
  assert (H0 : Z.land (a * 2 ^ n) b = 0).
  { rewrite <- (Z.mod_small b (2 ^ n)) by lia. rewrite <- (Z.land_ones b) by lia.
    rewrite (Z.land_comm b), Z.land_assoc, (Z.land_ones (a * 2 ^ n)), Z.mod_mul by lia. apply Z.land_0_l. }
  rewrite <- Z.lxor_lor, <- Z.add_nocarry_lxor by exact H0. reflexivity.
Qed.

Lemma land_mask a n : 0 <= n -> Z.land a (2 ^ n - 1) = a mod 2 ^ n.
Proof.
  intros. replace (2 ^ n - 1) with (Z.ones n) by (rewrite Z.ones_equiv; lia).
  apply Z.land_ones. lia.
Qed.

Lemma toInt32_mod_pow2 x n : 0 <= n <= 31 -> toInt32 x mod 2 ^ n = x mod 2 ^ n.
Proof.
  intros Hn. unfold toInt32. assert (H32 : 2 ^ 32 = 2 ^ n * 2 ^ (32 - n))
    by (rewrite <- Z.pow_add_r by lia; f_equal; lia).
  pose proof (pow2_pos n ltac:(lia)). pose proof (pow2_pos (32 - n) ltac:(lia)).
  assert (Hm : (x mod 2 ^ 32) mod 2 ^ n = x mod 2 ^ n)
    by (rewrite H32, Z.rem_mul_r by lia; rewrite Z.mul_comm, Z.mod_add, Z.mod_mod by lia; reflexivity).
  destruct (_ <? _); [exact Hm|].
  rewrite <- Hm, H32. replace (x mod (2 ^ n * 2 ^ (32 - n)) - 2 ^ n * 2 ^ (32 - n))
    with (x mod (2 ^ n * 2 ^ (32 - n)) + (- 2 ^ (32 - n)) * 2 ^ n) by ring.
  apply Z.mod_add. lia.
Qed.

(** [x & (2 ** n - 1)] keeps the [n] low bits, whatever [x]. *)
Lemma js_and_mask x n : 0 <= n <= 30 -> x .&. (2 ^ n - 1) = x mod 2 ^ n.
Proof.
  intros Hn. pose proof (pow2_pos n ltac:(lia)).
  assert (2 ^ n <= 2 ^ 30) by (apply Z.pow_le_mono_r; lia).
  unfold js_and. rewrite (toInt32_id (2 ^ n - 1)) by (change (2 ^ 30) with 1073741824 in *; lia).
  rewrite land_mask by lia. apply toInt32_mod_pow2. lia.
Qed.

(** ** Lemmas on lists *)

Lemma fold_left_map_fn {A B C} (f : A -> B -> A) (g : C -> B) (l : list C) (a : A) :
  fold_left f (map g l) a = fold_left (fun a y => f a (g y)) l a.
Proof. revert a. induction l; simpl; auto. Qed.

Lemma Forall_nth_lt {A} (P : A -> Prop) (l : list A) d i :
  Forall P l -> (i < length l)%nat -> P (nth i l d).
Proof. intros H Hi. rewrite Forall_nth in H. apply H, Hi. Qed.

Lemma bytes_okb_sound l : bytes_okb l = true -> bytes_ok l.
Proof.
  unfold bytes_okb, bytes_ok. intros H. apply List.Forall_forall. intros v Hv.
  rewrite forallb_forall in H. specialize (H v Hv).
  apply andb_prop in H as [H1 H2].
  unfold is_byte. lia.
Qed.

(** Closes [bytes_ok l] for a concrete [l] by evaluation. *)
Ltac bytes_ok_by_eval := apply bytes_okb_sound; vm_compute; reflexivity.

Lemma map_nth_seq_id {A} (l : list A) d : map (fun k => nth k l d) (seq 0 (length l)) = l.
Proof.
  induction l as [|x l IH]; [reflexivity|]. cbn [length seq map nth]. f_equal.
  rewrite <- seq_shift, map_map. exact IH.
Qed.

(** ** Lemmas on bit strings *)

Lemma length_bits_of n v : length (bits_of n v) = n.
Proof. induction n; simpl; auto. Qed.

Lemma val_of_app bs1 bs2 :
  val_of (bs1 ++ bs2) = val_of bs1 * 2 ^ Z.of_nat (length bs2) + val_of bs2.
Proof.
  unfold val_of. rewrite fold_left_app. generalize (fold_left (fun acc b => 2 * acc + Z.b2z b) bs1 0).
  induction bs2 as [|x bs2 IH] using rev_ind; intros z; simpl; [lia|].
  rewrite !fold_left_app, IH. simpl. rewrite length_app. simpl.
  rewrite Nat2Z.inj_add, Z.pow_add_r by lia. lia.
Qed.

Lemma val_of_snoc bs x : val_of (bs ++ [x]) = 2 * val_of bs + Z.b2z x.
Proof.
  rewrite val_of_app. change (2 ^ Z.of_nat (length [x])) with 2.
  assert (val_of [x] = Z.b2z x) as -> by (destruct x; reflexivity). lia.
Qed.

Lemma val_of_range bs : 0 <= val_of bs < 2 ^ Z.of_nat (length bs).
Proof.
  induction bs as [|x bs IH] using rev_ind; [cbv; split; congruence|].
  rewrite val_of_snoc, length_app, Nat2Z.inj_add, Z.pow_add_r by lia.
  destruct x; simpl; lia.
Qed.

Lemma val_of_take_div l n :
  (n <= length l)%nat -> val_of l / 2 ^ Z.of_nat (length l - n) = val_of (take n l).
Proof.
  intros Hn. rewrite <- (take_drop n l) at 1. rewrite val_of_app, length_drop.
  pose proof (val_of_range (drop n l)) as Hr. rewrite length_drop in Hr.
  rewrite Z.div_add_l, Z.div_small by lia. lia.
Qed.

Lemma val_of_drop_mod l n : val_of l mod 2 ^ Z.of_nat (length l - n) = val_of (drop n l).
Proof.
  rewrite <- (take_drop n l) at 1. rewrite val_of_app, length_drop.
  pose proof (val_of_range (drop n l)) as Hr. rewrite length_drop in Hr.
  rewrite Z.add_comm, Z.mod_add, Z.mod_small by lia. reflexivity.
Qed.

Lemma bits_of_S_r n v : bits_of (S n) v = bits_of n (v / 2) ++ [Z.odd v].
Proof.
  induction n as [|n IH]; [reflexivity|].
  change (bits_of (S (S n)) v) with (Z.testbit v (Z.of_nat (S n)) :: bits_of (S n) v).
  rewrite IH. cbn [bits_of app].
  rewrite Z.div2_bits, Nat2Z.inj_succ by lia. reflexivity.
Qed.

Lemma val_of_bits_of n v : val_of (bits_of n v) = v mod 2 ^ Z.of_nat n.
Proof.
  revert v. induction n as [|n IH]; intros v; [simpl; rewrite Z.mod_1_r; reflexivity|].
  rewrite bits_of_S_r, val_of_snoc, IH, Nat2Z.inj_succ, Z.pow_succ_r, Z.rem_mul_r by lia.
  pose proof (Z.div2_odd v) as Hv. rewrite Z.div2_div in Hv.
  assert (v mod 2 = Z.b2z (Z.odd v)) as -> by (rewrite Hv at 1; destruct (Z.odd v); simpl;
    rewrite Z.add_comm, Z.mul_comm, Z.mod_add by lia; reflexivity).
  lia.
Qed.

Lemma bits_of_val_of bs : bits_of (length bs) (val_of bs) = bs.
Proof.
  induction bs as [|x bs IH] using rev_ind; [reflexivity|].
  rewrite length_app, Nat.add_comm. simpl (length [x]). rewrite bits_of_S_r, val_of_snoc.
  replace ((2 * val_of bs + Z.b2z x) / 2) with (val_of bs)
    by (destruct x; simpl; rewrite Z.add_comm, Z.mul_comm, Z.div_add by lia; reflexivity).
  rewrite IH. do 2 f_equal. rewrite Z.add_comm, Z.odd_add_mul_2. destruct x; reflexivity.
Qed.

Lemma bits_of_mod n v m : (n <= m)%nat -> bits_of n (v mod 2 ^ Z.of_nat m) = bits_of n v.
Proof.
  intros Hnm. induction n as [|n IH]; simpl; [reflexivity|].
  rewrite Z.mod_pow2_bits_low, IH by lia. reflexivity.
Qed.

Lemma bits_of_inj_mod n v w : bits_of n v = bits_of n w -> v mod 2 ^ Z.of_nat n = w mod 2 ^ Z.of_nat n.
Proof. intros H. rewrite <- !val_of_bits_of, H. reflexivity. Qed.

Lemma bits_of_byte_inj v w : is_byte v -> is_byte w -> bits_of 8 v = bits_of 8 w -> v = w.
Proof.
  unfold is_byte. intros Hv Hw H%bits_of_inj_mod. rewrite !Z.mod_small in H by (simpl; lia). exact H.
Qed.

Lemma length_bytes_bits l : length (bytes_bits l) = (8 * length l)%nat.
Proof.
  induction l as [|x l IH]; [reflexivity|]. unfold bytes_bits in *. cbn [map concat length].
  rewrite length_app, length_bits_of, IH. lia.
Qed.

(** Two byte sequences whose bit strings agree on a common prefix agree
    byte for byte on the shorter one. *)
Lemma bytes_bits_prefix out data r1 r2 :
  bytes_ok out -> bytes_ok data ->
  bytes_bits out ++ r1 = bytes_bits data ++ r2 ->
  (length data <= length out)%nat ->
  take (length data) out = data.
Proof.
  revert out. induction data as [|d data IH]; intros out Hout Hdata Heq Hlen; [reflexivity|].
  destruct out as [|o out]; simpl in Hlen; [lia|].
  unfold bytes_bits in Heq; cbn [map concat] in Heq. rewrite <- !app_assoc in Heq.
  apply app_inj_1 in Heq as [Hb Hrest]; [|rewrite !length_bits_of; reflexivity].
  inversion Hout; inversion Hdata; subst.
  simpl. f_equal; [apply bits_of_byte_inj; auto|].
  apply IH; auto. lia.
Qed.

Lemma wrap_bytes l : bytes_ok (map wrap_u8 l).
Proof.
  induction l as [|x l IH]; constructor; [unfold is_byte, wrap_u8; apply Z.mod_pos_bound; lia | exact IH].
Qed.

Lemma map_wrap_bytes p : bytes_ok p -> map wrap_u8 p = p.
Proof.
  induction 1 as [|x p Hx _ IH]; [reflexivity|]. cbn [map]. rewrite IH. f_equal.
  unfold wrap_u8, is_byte in *. apply Z.mod_small. lia.
Qed.

Lemma bytes_of_bits_app out r : bytes_ok out -> bytes_of_bits (length out) (bytes_bits out ++ r) = out.
Proof.
  induction 1 as [|x out Hx _ IH]; [reflexivity|]. cbn [length bytes_of_bits].
  change (bytes_bits (x :: out)) with (bits_of 8 x ++ bytes_bits out).
  rewrite <- app_assoc, take_app_length' by (rewrite length_bits_of; lia).
  rewrite drop_app_length' by (rewrite length_bits_of; lia). rewrite IH, val_of_bits_of.
  unfold is_byte in Hx. rewrite Z.mod_small by (simpl; lia). reflexivity.
Qed.
