(* ===== verification/Capacity.v ===== *)
(** * CapacityModel: [validateBits] and [StegImage.calcCapacity]

    src/index.ts, [validateBits] (lines 5-9) and [calcCapacity] (lines
    202-218).  The capacity is a function of the channel count alone, so
    that [hide] and [reveal] compute the same byte count. *)

From stdpp Require Import base list.
From Stdlib Require Import ZArith QArith Qround Lia.
From S2P Require Import Prelude.

Open Scope Z_scope.

(** [Number.isSafeInteger] on an integral Number. *)
Definition isSafeInteger (b : Z) : bool := Z.abs b <=? 2 ^ 53 - 1.

Definition validateBits (bitsTaken : Z) : res unit :=
  let b := bitsTaken in
  guard_or BitsOutOfRange (isSafeInteger b && (1 <=? b) && (b <=? 8)).

Record Capacity := mkCapacity { cap_bits : Q; cap_bytes : Z }.

(** [pixels = channelsNoFirst / rgba] is a real division in JavaScript, so
    [bits] is a rational number ([Q]); [bytes = Math.floor(bits / 8)] is
    [Qfloor].  The double-precision arithmetic of the code is exact here
    for every channel count below 2^50: [channelsNoFirst / 4] has at most
    two fractional bits and the products stay below 2^53. *)
Definition calcCapacity (channelsLen : nat) (bitsTaken : Z) : res Capacity :=
  validateBits bitsTaken ≫= fun _ =>
  let rgba := 4 in
  let channelsNoFirst := Z.of_nat channelsLen - rgba in
  let pixels := (inject_Z channelsNoFirst / inject_Z rgba)%Q in
  let rgb := 3 in
  let bits := (pixels * inject_Z rgb * inject_Z bitsTaken)%Q in
  let bytes := Qfloor (bits / inject_Z 8) in
  Ok (mkCapacity bits bytes).

Definition valid_bits (b : Z) : Prop := 1 <= b <= 8.
#[export] Instance valid_bits_dec b : Decision (valid_bits b).
Proof. unfold valid_bits. apply _. Defined.

(** The rational [bits] of [calcCapacity]. *)
Definition capacity_bits (n : nat) (b : Z) : Q :=
  (inject_Z (Z.of_nat n - 4) / inject_Z 4 * inject_Z 3 * inject_Z b)%Q.


Lemma validateBits_ok b : valid_bits b -> validateBits b = Ok tt.
Proof.
  unfold valid_bits, validateBits, isSafeInteger. intros Hb.
  rewrite (proj2 (Z.leb_le _ _)), (proj2 (Z.leb_le 1 b)), (proj2 (Z.leb_le b 8)) by lia.
  reflexivity.
Qed.

Lemma validateBits_Ok_inv b : validateBits b = Ok tt -> valid_bits b.
Proof.
  unfold validateBits, guard_or. intros H.
  destruct (isSafeInteger b && (1 <=? b) && (b <=? 8)) eqn:E; [|discriminate].
  apply andb_prop in E as [E1 E3]. apply andb_prop in E1 as [_ E2].
  apply Z.leb_le in E2. apply Z.leb_le in E3. split; assumption.
Qed.

#[export] Hint Resolve validateBits_ok : steg.

Lemma Qfloor_bits m b : Qfloor (inject_Z m / inject_Z 4 * inject_Z 3 * inject_Z b / inject_Z 8) = m * 3 * b / 32.
Proof.
  unfold Qfloor, Qdiv, Qmult, Qinv, inject_Z. cbn [Qnum Qden]. f_equal. ring.
Qed.

Lemma calcCapacity_ok n b : valid_bits b ->
  calcCapacity n b = Ok (mkCapacity (capacity_bits n b) ((Z.of_nat n - 4) * 3 * b / 32)).
Proof.
  intros Hb. unfold calcCapacity. rewrite validateBits_ok by exact Hb. cbn [mbind res_bind].
  rewrite Qfloor_bits. reflexivity.
Qed.

Lemma validateBits_Err b e : validateBits b = Err e -> e = BitsOutOfRange /\ ~ valid_bits b.
Proof.
  unfold validateBits, guard_or, valid_bits, isSafeInteger.
  destruct (Z.leb_spec (Z.abs b) (2 ^ 53 - 1)), (Z.leb_spec 1 b), (Z.leb_spec b 8); simpl;
    intros Herr; try discriminate; injection Herr as <-; split; auto; lia.
Qed.

Lemma validateBits_invalid b : ~ valid_bits b -> validateBits b = Err BitsOutOfRange.
Proof.
  intros Hb. destruct (validateBits b) as [[]|e] eqn:E.
  - apply validateBits_Ok_inv in E. contradiction.
  - apply validateBits_Err in E as [-> _]. reflexivity.
Qed.

(** C15: [calcCapacity] on every input: it throws [BitsOutOfRange] exactly
    when [bitsTaken] is not an integer in 1..8, and otherwise returns the
    rational [bits] and [bytes = floor((channels - 4) * 3 * bitsTaken / 32)],
    for every channel count, including those below one pixel. *)
Theorem calcCapacity_spec n b :
  calcCapacity n b =
    if decide (valid_bits b)
    then Ok (mkCapacity (capacity_bits n b) ((Z.of_nat n - 4) * 3 * b / 32))
    else Err BitsOutOfRange.
Proof.
  case_decide as Hb; [apply calcCapacity_ok, Hb|].
  unfold calcCapacity. rewrite validateBits_invalid by exact Hb. reflexivity.
Qed.

(** C14: For an image of [P] pixels (4P channels), the capacity is the
    spec's: [bits = (P - 1) * 3 * bitsTaken] (one pixel is reserved for
    the header, alpha carries nothing) and [bytes = floor(bits / 8)]. *)
Theorem calcCapacity_pixels P b :
  valid_bits b ->
  exists cap, calcCapacity (4 * P) b = Ok cap /\
    (cap_bits cap == inject_Z ((Z.of_nat P - 1) * 3 * b))%Q /\
    cap_bytes cap = (Z.of_nat P - 1) * 3 * b / 8.
Proof.
  intros Hb. eexists. split; [apply calcCapacity_ok, Hb|]. cbn [cap_bits cap_bytes]. split.
  - unfold capacity_bits, Qeq, Qdiv, Qmult, Qinv, inject_Z. cbn [Qnum Qden]. rewrite Nat2Z.inj_mul. lia.
  - assert (E : (Z.of_nat (4 * P) - 4) * 3 * b = ((Z.of_nat P - 1) * 3 * b) * 4)
      by (rewrite Nat2Z.inj_mul; ring).
    rewrite E. change 32 with (8 * 4). rewrite Z.div_mul_cancel_r by lia. reflexivity.
Qed.

(** The spec's test vectors: 4 pixels give 9 bits and 1 byte at one bit
    per channel, and 72 bits and 9 bytes at eight. *)
Lemma calcCapacity_pixels_witness :
  (exists cap, calcCapacity 16 1 = Ok cap /\ (cap_bits cap == inject_Z 9)%Q /\ cap_bytes cap = 1) /\
  (exists cap, calcCapacity 16 8 = Ok cap /\ (cap_bits cap == inject_Z 72)%Q /\ cap_bytes cap = 9).
Proof.
  split; [apply (calcCapacity_pixels 4 1) | apply (calcCapacity_pixels 4 8)]; unfold valid_bits; lia.
Defined.
