(* ===== verification/BitCodec.v ===== *)
(** * ChannelCursor: the cursor and the loops of [hideBlob] and [revealBlob]

    src/index.ts lines 11-22 (bit helpers), 268-335 (the [writeChannel]
    closure and the loops of [hideBlob]) and 392-407 (the loop of
    [revealBlob]); the entry points that compose them are in Codec.v.
    The closure [writeChannel] of [hideBlob] mutates the captured
    [channels] array and [channelId]; here they are a
    [Cursor] record threaded through the loops, and the loop-local
    accumulator [buf]/[bufBits] together with the number of random bytes
    drawn so far form a [Writer].  The random source
    ([aesUtils.randomBytes(1)[0]]) is the section variable [rand]: the n-th
    call returns [rand n]. *)

From stdpp Require Import base list.
From Stdlib Require Import ZArith Lia.
From S2P Require Import Prelude Capacity.

Open Scope Z_scope.

Section Codec.
Context `{CA : ByteArrayKind}.
Variable rand : nat -> Z.

(** ** Bit helpers (src/index.ts lines 11-22) *)

Definition clearBits (n bits : Z) : Z := (n .>>. bits) .<<. bits.
Definition readBit (byte pos : Z) : Z := (byte .>>. (7 - pos)) .&. 1.
Definition isAlpha (pixel : nat) : bool := Nat.eqb (pixel mod 4) 3.

(** ** The write cursor *)

Record Cursor := mkCursor { channels : list Z; channelId : nat }.

(** [writeChannel(data, bits)]: store into the current channel, advance,
    and blank the next channel when it is an alpha channel. *)
Definition writeChannel (c : Cursor) (data bits : Z) : Cursor :=
  let curr := num_of (channels c !! channelId c) in
  let chans := ta_set (channels c) (channelId c) (clearBits curr bits .|. data) in
  let cid := S (channelId c) in
  if isAlpha cid then mkCursor (ta_set chans cid 256) (S cid) else mkCursor chans cid.

(** [while (channelId < 3) writeChannel(readBit(bitsTaken - 1, 8 - 3 + channelId), 1)] *)
Fixpoint writeHeader_loop (fuel : nat) (bitsTaken : Z) (c : Cursor) : Cursor :=
  match fuel with
  | O => c
  | S f =>
      if (channelId c <? 3)%nat
      then writeHeader_loop f bitsTaken
             (writeChannel c (readBit (bitsTaken - 1) (8 - 3 + Z.of_nat (channelId c))) 1)
      else c
  end.

(** Three iterations: the loop starts at channel 0 and each call advances. *)
Definition writeHeader (bitsTaken : Z) (c : Cursor) : Cursor := writeHeader_loop 3 bitsTaken c.

Record Writer := mkWriter { cur : Cursor; buf : Z; bufBits : Z; rng : nat }.

(** One iteration of the inner [for (bit ...)] loop. *)
Definition pushBit (bitsTaken : Z) (w : Writer) (bit : Z) : Writer :=
  let buf' := (buf w .<<. 1) .|. bit in
  let bufBits' := bufBits w + 1 in
  if bufBits' =? bitsTaken
  then mkWriter (writeChannel (cur w) buf' bitsTaken) 0 0 (rng w)
  else mkWriter (cur w) buf' bufBits' (rng w).

Definition hideByte (bitsTaken : Z) (w : Writer) (hiddenDataByte : Z) : Writer :=
  fold_left (fun w bit => pushBit bitsTaken w (readBit hiddenDataByte bit))
    (map Z.of_nat (seq 0 8)) w.

Definition hideBytes (bitsTaken : Z) (w : Writer) (hData : list Z) : Writer :=
  fold_left (hideByte bitsTaken) hData w.

(** [for (let i = 0; i < leftoverBits; i++) { if (i > 7) throw ...; ... }] *)
Fixpoint leftover_loop (n : nat) (i : Z) (randomByte : Z) (w : Writer) : res Writer :=
  match n with
  | O => Ok w
  | S n' =>
      if i >? 7 then Err RandomBitsExhausted
      else
        let randomBit := readBit randomByte i in
        leftover_loop n' (i + 1) randomByte
          (mkWriter (cur w) ((buf w .<<. 1) .|. randomBit) (bufBits w + 1) (rng w))
  end.

(** [if (bufBits) { ... writeChannel(buf) }] *)
Definition flushLeftover (bitsTaken : Z) (w : Writer) : res Writer :=
  if bufBits w =? 0 then Ok w
  else
    let randomByte := rand (rng w) in
    let w := mkWriter (cur w) (buf w) (bufBits w) (S (rng w)) in
    let leftoverBits := bitsTaken - bufBits w in
    leftover_loop (Z.to_nat leftoverBits) 0 randomByte w ≫= fun w =>
    if negb (bufBits w =? bitsTaken) then Err BufBitsMismatch
    else Ok (mkWriter (writeChannel (cur w) (buf w) bitsTaken) (buf w) (bufBits w) (rng w)).

(** [while (channelId < channelsLen) writeChannel(randomByte & bitsTakenMask)],
    run with a fuel that bounds the number of iterations. *)
Fixpoint fillRandom_loop (fuel : nat) (channelsLen : nat) (bitsTaken : Z) (w : Writer) : Writer :=
  match fuel with
  | O => w
  | S f =>
      if (channelId (cur w) <? channelsLen)%nat then
        let randomByte := rand (rng w) in
        let bitsTakenMask := 2 ^ bitsTaken - 1 in
        fillRandom_loop f channelsLen bitsTaken
          (mkWriter (writeChannel (cur w) (randomByte .&. bitsTakenMask) bitsTaken)
             (buf w) (bufBits w) (S (rng w)))
      else w
  end.

(** ** The read path *)

Record Reader := mkReader { rbuf : Z; rbufBits : Z; out : list Z; outPos : nat }.

(** The body of [for (let channelId = 4; ...; channelId++)] of [revealBlob];
    [out] is a Uint8Array, written with its own conversion. *)
Definition readChannel (chans : list Z) (bitsTaken mask : Z) (channelId : nat) (r : Reader) : Reader :=
  let buf := (rbuf r .<<. bitsTaken) .|. (num_of (chans !! channelId) .&. mask) in
  let bufBits := rbufBits r + bitsTaken in
  if bufBits >=? 8 then
    let leftBits := bufBits - 8 in
    mkReader (buf .&. (2 ^ leftBits - 1)) leftBits
      (@ta_set Uint8Array (out r) (outPos r) (buf .>>. leftBits)) (S (outPos r))
  else mkReader buf bufBits (out r) (outPos r).

Fixpoint revealBlob_loop (fuel : nat) (chans : list Z) (bitsTaken mask : Z) (channelId : nat)
    (r : Reader) : Reader :=
  match fuel with
  | O => r
  | S f =>
      if (channelId <? length chans)%nat then
        let channelId := if isAlpha channelId then S channelId else channelId in
        revealBlob_loop f chans bitsTaken mask (S channelId)
          (readChannel chans bitsTaken mask channelId r)
      else r
  end.

End Codec.
