(* ===== verification/Layout.v ===== *)
(** * The channel layout written by [hideBlob] and read by [revealBlob]

    The abstract specification of the codec: which channel carries which
    value.  Channels 0..2 carry the header bits in their lowest bit,
    channel 3 and every later alpha channel hold the blank sentinel, and the
    k-th non-alpha channel after the first pixel ([slot k]) carries the k-th
    payload value in its [bitsTaken] lowest bits; the higher bits of every
    channel are those of the original image.  [stego] builds that image
    from the payload values; [layout_spec] states it channel by channel,
    as the contract the write path meets and the read path relies on. *)

From stdpp Require Import base list.
From Stdlib Require Import ZArith Lia.
From S2P Require Import Prelude Capacity BitCodec.

Open Scope Z_scope.

(** The channel of the k-th payload value, and its inverse. *)
Definition slot (k : nat) : nat := (4 * (k / 3 + 1) + k mod 3)%nat.
Definition slot_index (i : nat) : nat := (3 * (i / 4 - 1) + Nat.min (i mod 4) 2)%nat.

(** The number of payload channels of an image of [len] channels. *)
Definition payload_slots (len : nat) : nat := (3 * (len / 4 - 1))%nat.

(** The header values: bit [2 - i] of [bitsTaken - 1] in channel [i]. *)
Definition header_bits (b : Z) : list Z := [readBit (b - 1) 5; readBit (b - 1) 6; readBit (b - 1) 7].

(** The bit-level view of the accumulator loops.  The writer pushes bits
    one at a time and emits a value when it holds [b] of them; the reader
    appends [bitsTaken] bits per channel and emits a byte when it holds 8. *)
Definition push_abs (b : nat) (st : list Z * list bool) (x : bool) : list Z * list bool :=
  let '(V, acc) := st in
  let acc' := acc ++ [x] in
  if (length acc' =? b)%nat then (V ++ [val_of acc'], []) else (V, acc').

Definition chunk_bits (b : nat) (bs : list bool) : list Z * list bool :=
  fold_left (push_abs b) bs ([], []).

(** The last, partial value: the pending bits completed with the leading
    bits of a random byte. *)
Definition filler_value (b : nat) (acc : list bool) (randomByte : Z) : Z :=
  val_of (acc ++ take (b - length acc) (bits_of 8 randomByte)).

Definition read_abs (st : list Z * list bool) (bs : list bool) : list Z * list bool :=
  let '(em, acc) := st in
  let acc' := acc ++ bs in
  if (8 <=? length acc')%nat then (em ++ [val_of (take 8 acc')], drop 8 acc') else (em, acc').

Definition vals_bits (b : nat) (V : list Z) : list bool := concat (map (bits_of b) V).

Definition fits (b : nat) (v : Z) : Prop := 0 <= v < 2 ^ Z.of_nat b.

(** The writer's accumulator invariant: the emitted values followed by the
    pending bits are the bits pushed so far. *)
Definition chunk_inv (b : nat) (bs : list bool) (st : list Z * list bool) : Prop :=
  vals_bits b st.1 ++ st.2 = bs /\ (length st.2 < b)%nat /\ Forall (fits b) st.1.

(** The reader's: the emitted bytes followed by the pending bits are the
    bits read so far. *)
Definition read_inv (bs : list bool) (st : list Z * list bool) : Prop :=
  bytes_bits st.1 ++ st.2 = bs /\ (length st.2 < 8)%nat /\ bytes_ok st.1.

(** The bit stream the payload channels of an image carry: the [b] low
    bits of each, in channel order. *)
Definition lsb_stream (b : nat) (chans : list Z) : list bool :=
  concat (map (fun k => bits_of b (num_of (chans !! slot k))) (seq 0 (payload_slots (length chans)))).

Section Stego.
Context `{CA : ByteArrayKind}.

Definition stego_channel (b : Z) (hdr V : list Z) (i : nat) (x : Z) : Z :=
  if (i <? 4)%nat then
    (if isAlpha i then ta_conv 256 else x / 2 * 2 + nth i hdr 0)
  else if (slot_index i <? length V)%nat then
    (if isAlpha i then ta_conv 256 else x / 2 ^ b * 2 ^ b + nth (slot_index i) V 0)
  else x.

(** The image after [k] payload values [V] have been written. *)
Definition stego (b : Z) (hdr V : list Z) (orig : list Z) : list Z :=
  imap (stego_channel b hdr V) orig.

(** The contract of the codec on one image, channel by channel and
    without naming the payload values: [img] is a byte array of the
    length of [orig]; every alpha channel holds the blank sentinel;
    channels 0..2 keep all but their lowest bit, which carries the
    header; every other channel keeps all but its [b] lowest bits; and
    the low bits of the payload channels, in order, begin with the bits
    of [data]. *)
Definition layout_spec (b : Z) (data orig img : list Z) : Prop :=
  bytes_ok img /\ length img = length orig /\
  (forall i x y, orig !! i = Some x -> img !! i = Some y ->
     if isAlpha i then y = ta_conv 256
     else if (i <? 4)%nat then y / 2 = x / 2 /\ y mod 2 = nth i (header_bits b) 0
     else y / 2 ^ b = x / 2 ^ b) /\
  bytes_bits data `prefix_of` lsb_stream (Z.to_nat b) img.

End Stego.

(** ** Arithmetic of the layout *)

Lemma isAlpha_true p : isAlpha p = true <-> (p mod 4 = 3)%nat.
Proof. unfold isAlpha. apply Nat.eqb_eq. Qed.

Lemma slot_ge4 k : (4 <= slot k)%nat.
Proof. unfold slot. arith. Qed.

Lemma slot_not_alpha k : isAlpha (slot k) = false.
Proof. apply Bool.not_true_iff_false. rewrite isAlpha_true. unfold slot. arith. Qed.

Lemma slot_index_slot k : slot_index (slot k) = k.
Proof. unfold slot, slot_index. arith. Qed.

Lemma slot_after k :
  isAlpha (S (slot k)) = (k mod 3 =? 2)%nat.
Proof.
  destruct (isAlpha (S (slot k))) eqn:E; symmetry; [apply Nat.eqb_eq | apply Nat.eqb_neq];
  [apply isAlpha_true in E | intros Hk; apply Bool.not_true_iff_false in E; apply E, isAlpha_true];
  unfold slot in *; arith.
Qed.

Lemma slot_S_plain k : (k mod 3 <> 2)%nat -> slot (S k) = S (slot k).
Proof. unfold slot. arith. Qed.

Lemma slot_S_alpha k : (k mod 3 = 2)%nat -> slot (S k) = S (S (slot k)) /\ slot_index (S (slot k)) = k.
Proof. unfold slot, slot_index. split; arith. Qed.

Lemma slot_index_other k i :
  (4 <= i)%nat -> i <> slot k -> (isAlpha (S (slot k)) = true -> i <> S (slot k)) ->
  slot_index i <> k.
Proof.
  rewrite slot_after. intros H4 Hne Hna Heq. subst k.
  destruct (decide (i mod 4 = 3)%nat) as [Ha|Ha].
  - apply Hna; [apply Nat.eqb_eq|]; unfold slot, slot_index in *; arith.
  - apply Hne. unfold slot, slot_index. arith.
Qed.

Lemma slot_lt_len k P : (1 <= P)%nat -> (slot k < 4 * P)%nat <-> (k < payload_slots (4 * P))%nat.
Proof. unfold slot, payload_slots. intros. arith. Qed.

Lemma slot_payload_slots P : (1 <= P)%nat -> slot (payload_slots (4 * P)) = (4 * P)%nat.
Proof. unfold slot, payload_slots. intros. arith. Qed.

(** ** The bit helpers at the operands the codec gives them *)

(** [bitsTaken] ranges over 1..8; many facts are checked per value. *)
Ltac case_bits b :=
  let H := fresh in
  assert (H : b = 1 \/ b = 2 \/ b = 3 \/ b = 4 \/ b = 5 \/ b = 6 \/ b = 7 \/ b = 8)
    by (unfold valid_bits in *; lia);
  destruct H as [->|[->|[->|[->|[->|[->|[->| ->]]]]]]].

Lemma pow2_le_256 b : valid_bits b -> 2 <= 2 ^ b <= 256.
Proof. intros Hb. case_bits b; simpl; lia. Qed.

Lemma clearBits_or x bits v :
  is_byte x -> valid_bits bits -> 0 <= v < 2 ^ bits ->
  clearBits x bits .|. v = x / 2 ^ bits * 2 ^ bits + v.
Proof.
  unfold is_byte. intros Hx Hb Hv. pose proof (pow2_le_256 bits Hb).
  assert (0 <= x / 2 ^ bits <= x) by (split; [apply Z.div_pos | apply Z.div_le_upper_bound]; nia).
  unfold clearBits. rewrite js_sar_small, js_shl_small by (unfold valid_bits in *; nia).
  rewrite js_or_small by (unfold valid_bits in *; nia).
  apply lor_low; unfold valid_bits in *; lia.
Qed.

Lemma low_bits_byte x bits v :
  is_byte x -> valid_bits bits -> 0 <= v < 2 ^ bits -> is_byte (x / 2 ^ bits * 2 ^ bits + v).
Proof.
  unfold is_byte. intros Hx Hb Hv. case_bits bits; simpl in *; Z.div_mod_to_equations; lia.
Qed.

Lemma low_bits_mod x bits v :
  valid_bits bits -> 0 <= v < 2 ^ bits -> (x / 2 ^ bits * 2 ^ bits + v) mod 2 ^ bits = v.
Proof.
  intros Hb Hv. pose proof (pow2_le_256 bits Hb).
  rewrite Z.add_comm, Z.mod_add, Z.mod_small by lia. reflexivity.
Qed.

Lemma readBit_testbit x pos :
  0 <= x < 2 ^ 31 -> 0 <= pos <= 7 -> readBit x pos = Z.b2z (Z.testbit x (7 - pos)).
Proof.
  intros Hx Hp. assert (0 < 2 ^ (7 - pos)) by (apply pow2_pos; lia).
  unfold readBit. rewrite js_sar_small by lia.
  assert (0 <= x / 2 ^ (7 - pos) <= x) by (split; [apply Z.div_pos | apply Z.div_le_upper_bound]; nia).
  rewrite js_and_small by lia. rewrite (land_mask _ 1) by lia. rewrite Z.testbit_spec' by lia.
  reflexivity.
Qed.

Lemma readBit_bit x pos : 0 <= x < 2 ^ 31 -> 0 <= pos <= 7 -> 0 <= readBit x pos < 2.
Proof. intros. rewrite readBit_testbit by lia. destruct (Z.testbit _ _); simpl; lia. Qed.

Lemma readBit_7 x : 0 <= x < 2 ^ 31 -> readBit x 7 = x mod 2.
Proof.
  intros. rewrite readBit_testbit, Z.sub_diag, <- Z.bit0_mod by lia.
  destruct (Z.testbit x 0); reflexivity.
Qed.

(** The bits [hideByte] pushes for a byte are the byte's bit string. *)
Lemma readBits_byte x :
  is_byte x -> map (fun bit => readBit x bit) (map Z.of_nat (seq 0 8)) = map Z.b2z (bits_of 8 x).
Proof.
  unfold is_byte. intros Hx. simpl.
  rewrite !readBit_testbit by lia. reflexivity.
Qed.

(** ** One [writeChannel] extends the layout by one value *)

Section Steps.
Context `{CA : ByteArrayKind}.

Lemma stego_lookup b hdr V orig i : stego b hdr V orig !! i = stego_channel b hdr V i <$> orig !! i.
Proof. apply list_lookup_imap. Qed.

Lemma length_stego b hdr V orig : length (stego b hdr V orig) = length orig.
Proof. apply length_imap. Qed.

Lemma stego_channel_fresh b hdr V x : stego_channel b hdr V (slot (length V)) x = x.
Proof.
  unfold stego_channel. rewrite slot_index_slot.
  destruct (Nat.ltb_spec (slot (length V)) 4); [pose proof (slot_ge4 (length V)); lia|].
  rewrite Nat.ltb_irrefl. reflexivity.
Qed.

Lemma stego_channel_new b hdr V v x :
  stego_channel b hdr (V ++ [v]) (slot (length V)) x = x / 2 ^ b * 2 ^ b + v.
Proof.
  unfold stego_channel. rewrite slot_index_slot, slot_not_alpha, length_app. simpl.
  destruct (Nat.ltb_spec (slot (length V)) 4); [pose proof (slot_ge4 (length V)); lia|].
  destruct (Nat.ltb_spec (length V) (length V + 1)); [|lia].
  rewrite app_nth2, Nat.sub_diag by lia. reflexivity.
Qed.

Lemma stego_channel_sentinel b hdr V v x :
  isAlpha (S (slot (length V))) = true ->
  stego_channel b hdr (V ++ [v]) (S (slot (length V))) x = ta_conv 256.
Proof.
  intros Ha. pose proof Ha as Hk. rewrite slot_after in Hk. apply Nat.eqb_eq in Hk.
  destruct (slot_S_alpha _ Hk) as [_ Hidx]. pose proof (slot_ge4 (length V)).
  unfold stego_channel. rewrite Hidx, Ha, length_app. simpl.
  destruct (Nat.ltb_spec (S (slot (length V))) 4); [lia|].
  destruct (Nat.ltb_spec (length V) (length V + 1)); [reflexivity|lia].
Qed.

Lemma stego_channel_snoc b hdr V v i x :
  i <> slot (length V) -> (isAlpha (S (slot (length V))) = true -> i <> S (slot (length V))) ->
  stego_channel b hdr (V ++ [v]) i x = stego_channel b hdr V i x.
Proof.
  intros Hne Hna. unfold stego_channel. rewrite length_app. simpl.
  destruct (Nat.ltb_spec i 4) as [Hi|Hi]; [reflexivity|].
  pose proof (slot_index_other (length V) i Hi Hne Hna).
  destruct (Nat.ltb_spec (slot_index i) (length V + 1)), (Nat.ltb_spec (slot_index i) (length V));
    try lia; try reflexivity.
  rewrite app_nth1 by lia. reflexivity.
Qed.

Lemma writeChannel_stego b hdr V v orig :
  valid_bits b -> bytes_ok orig -> 0 <= v < 2 ^ b ->
  writeChannel (mkCursor (stego b hdr V orig) (slot (length V))) v b
  = mkCursor (stego b hdr (V ++ [v]) orig) (slot (S (length V))).
Proof.
  intros Hb Horig Hv. unfold writeChannel, ta_set; cbn [channels channelId].
  assert (Hcurr : num_of (stego b hdr V orig !! slot (length V)) = num_of (orig !! slot (length V)))
    by (rewrite stego_lookup; destruct (orig !! slot (length V)); simpl;
        [rewrite stego_channel_fresh|]; reflexivity).
  rewrite Hcurr.
  assert (Hval : forall x, orig !! slot (length V) = Some x ->
            ta_conv (clearBits x b .|. v) = stego_channel b hdr (V ++ [v]) (slot (length V)) x).
  { intros x Hx. assert (is_byte x) by (eapply Forall_lookup_1; eauto).
    rewrite stego_channel_new, clearBits_or by auto. apply ta_conv_id, low_bits_byte; auto. }
  destruct (isAlpha (S (slot (length V)))) eqn:Ha.
  - pose proof Ha as Hk. rewrite slot_after in Hk. apply Nat.eqb_eq in Hk.
    rewrite (proj1 (slot_S_alpha _ Hk)). f_equal.
    apply list_eq; intros i.
    rewrite !list_lookup_insert, length_insert, !stego_lookup, length_stego.
    repeat case_decide; destruct_and?; subst; try lia.
    + destruct (orig !! S (slot (length V))) eqn:E; [|apply lookup_ge_None_1 in E; lia].
      simpl. rewrite stego_channel_sentinel; auto.
    + destruct (orig !! slot (length V)) eqn:E; [|apply lookup_ge_None_1 in E; lia].
      simpl. f_equal. auto.
    + destruct (orig !! i) eqn:E; simpl; [|reflexivity]. apply lookup_lt_Some in E.
      f_equal. symmetry. apply stego_channel_snoc; naive_solver.
  - rewrite slot_S_plain by (rewrite slot_after in Ha; apply Nat.eqb_neq in Ha; exact Ha).
    f_equal. apply list_eq; intros i.
    rewrite !list_lookup_insert, !stego_lookup, length_stego.
    repeat case_decide; destruct_and?; subst; try lia.
    + destruct (orig !! slot (length V)) eqn:E; [|apply lookup_ge_None_1 in E; lia].
      simpl. f_equal. auto.
    + destruct (orig !! i) eqn:E; simpl; [|reflexivity]. apply lookup_lt_Some in E.
      f_equal. symmetry. apply stego_channel_snoc; [naive_solver|]. congruence.
Qed.

End Steps.

(** ** The accumulators *)

Lemma length_vals_bits b V : length (vals_bits b V) = (length V * b)%nat.
Proof.
  induction V as [|v V IH]; [reflexivity|]. unfold vals_bits in *. cbn [map concat length].
  rewrite length_app, length_bits_of, IH. lia.
Qed.

Lemma vals_bits_app b V1 V2 : vals_bits b (V1 ++ V2) = vals_bits b V1 ++ vals_bits b V2.
Proof. unfold vals_bits. rewrite map_app, concat_app. reflexivity. Qed.

Lemma vals_bits_one b v : vals_bits b [v] = bits_of b v.
Proof. unfold vals_bits. simpl. apply app_nil_r. Qed.

Lemma bytes_bits_vals l : bytes_bits l = vals_bits 8 l.
Proof. reflexivity. Qed.

Lemma val_of_fits bs : fits (length bs) (val_of bs).
Proof. apply val_of_range. Qed.

Lemma chunk_inv_push b bs st x :
  chunk_inv b bs st -> chunk_inv b (bs ++ [x]) (push_abs b st x).
Proof.
  destruct st as [V acc]. unfold chunk_inv, push_abs; simpl. intros (Hbs & Hlt & Hf).
  destruct (Nat.eqb_spec (length (acc ++ [x])) b) as [Heq|Hne]; simpl.
  - rewrite vals_bits_app, vals_bits_one, app_nil_r.
    replace (bits_of b (val_of (acc ++ [x]))) with (acc ++ [x])
      by (pose proof (bits_of_val_of (acc ++ [x])) as E; rewrite Heq in E; symmetry; exact E).
    rewrite <- Hbs, app_assoc. split; [reflexivity|]. split; [lia|]. apply Forall_app; split; [exact Hf|].
    constructor; [|constructor]. rewrite <- Heq. apply val_of_fits.
  - rewrite app_assoc, Hbs. rewrite length_app in *; simpl in *. repeat split; auto. lia.
Qed.

Lemma push_abs_acc b V acc x :
  (0 < b)%nat -> (length acc < b)%nat -> (length (push_abs b (V, acc) x).2 < b)%nat.
Proof.
  intros. unfold push_abs. destruct (Nat.eqb_spec (length (acc ++ [x])) b); simpl; [lia|].
  rewrite length_app in *. simpl in *. lia.
Qed.

Lemma fold_push_abs_acc b bs V acc :
  (0 < b)%nat -> (length acc < b)%nat -> (length (fold_left (push_abs b) bs (V, acc)).2 < b)%nat.
Proof.
  revert V acc. induction bs as [|x bs IH]; intros V acc Hb Hacc; [exact Hacc|].
  cbn [fold_left]. pose proof (push_abs_acc b V acc x Hb Hacc).
  destruct (push_abs b (V, acc) x). apply IH; auto.
Qed.

Lemma chunk_inv_fold b bs st bs' :
  chunk_inv b bs st -> chunk_inv b (bs ++ bs') (fold_left (push_abs b) bs' st).
Proof.
  revert bs st. induction bs' as [|x bs' IH]; intros bs st H; simpl; [rewrite app_nil_r; exact H|].
  replace (bs ++ x :: bs') with ((bs ++ [x]) ++ bs') by (rewrite <- app_assoc; reflexivity).
  apply IH, chunk_inv_push, H.
Qed.

Lemma chunk_bits_inv b bs : (0 < b)%nat -> chunk_inv b bs (chunk_bits b bs).
Proof.
  intros Hb. unfold chunk_bits. change bs with ([] ++ bs) at 1. apply chunk_inv_fold.
  unfold chunk_inv; simpl. repeat split; auto.
Qed.

Lemma read_inv_step bs st c :
  (length c <= 8)%nat -> read_inv bs st -> read_inv (bs ++ c) (read_abs st c).
Proof.
  destruct st as [em acc]. unfold read_inv, read_abs. intros Hc (Hbs & Hlt & Hok). cbn [fst snd] in *.
  destruct (Nat.leb_spec 8 (length (acc ++ c))) as [Hge|Hlt']; cbn [fst snd].
  - assert (Hlen : length (take 8 (acc ++ c)) = 8%nat) by (rewrite length_take; lia).
    rewrite !bytes_bits_vals in *. rewrite vals_bits_app, vals_bits_one.
    replace (bits_of 8 (val_of (take 8 (acc ++ c)))) with (take 8 (acc ++ c))
      by (pose proof (bits_of_val_of (take 8 (acc ++ c))) as E; rewrite Hlen in E; symmetry; exact E).
    rewrite <- app_assoc, take_drop, <- Hbs, app_assoc.
    split; [reflexivity|]. rewrite length_drop, length_app in *. split; [lia|].
    apply Forall_app; split; [exact Hok|]. constructor; [|constructor].
    pose proof (val_of_range (take 8 (acc ++ c))) as Hr. rewrite Hlen in Hr. exact Hr.
  - rewrite <- Hbs, app_assoc. repeat split; auto.
Qed.

Lemma read_abs_acc em acc c :
  (length acc < 8)%nat -> (length c <= 8)%nat -> (length (read_abs (em, acc) c).2 < 8)%nat.
Proof.
  intros. unfold read_abs. destruct (Nat.leb_spec 8 (length (acc ++ c))); cbn [snd];
    rewrite ?length_drop, length_app in *; lia.
Qed.

Lemma read_inv_fold bs st cs :
  Forall (fun c => length c <= 8)%nat cs -> read_inv bs st -> read_inv (bs ++ concat cs) (fold_left read_abs cs st).
Proof.
  revert bs st. induction cs as [|c cs IH]; intros bs st Hcs Hinv; cbn [concat fold_left].
  - rewrite app_nil_r. exact Hinv.
  - inversion Hcs; subst. rewrite app_assoc. apply IH; auto. apply read_inv_step; auto.
Qed.
