(* ===== verification/CodecWrite.v ===== *)
(** * The write path of [hideBlob] refines the layout

    Each phase of [hideBlob] (src/index.ts lines 268-341) is related to the
    abstract layout of Layout.v: the header loop writes [header_bits], the
    byte loop emits the values of [chunk_bits] one [writeChannel] each, the
    leftover block emits [filler_value], and the trailing loop emits one
    masked random byte per remaining payload channel. *)

From stdpp Require Import base list.
From Stdlib Require Import ZArith Lia.
From S2P Require Import Prelude Capacity BitCodec Layout.

Open Scope Z_scope.

Section Writer.
Context `{CA : ByteArrayKind}.
Variable rand : nat -> Z.

(** The cursor after [V] payload values, and the writer with pending bits [acc]. *)
Definition at_slot (b : Z) (hdr V orig : list Z) : Cursor :=
  mkCursor (stego b hdr V orig) (slot (length V)).

Definition wstate (b : Z) (hdr orig V : list Z) (acc : list bool) (r : nat) : Writer :=
  mkWriter (at_slot b hdr V orig) (val_of acc) (Z.of_nat (length acc)) r.

(** The values of the trailing loop: [n] random bytes masked to [b] bits. *)
Definition fill_values (b : Z) (r n : nat) : list Z :=
  map (fun j => rand (r + j)%nat mod 2 ^ b) (seq 0 n).

Lemma ta_set_lookup_ne (l : list Z) i j v : i <> j -> ta_set l i v !! j = l !! j.
Proof. apply list_lookup_insert_ne. Qed.

Lemma header_value x r : is_byte x -> 0 <= r < 2 -> ta_conv (clearBits x 1 .|. r) = x / 2 * 2 + r.
Proof.
  intros Hx Hr. rewrite clearBits_or by (try assumption; unfold valid_bits; simpl; lia).
  apply ta_conv_id, (low_bits_byte x 1); unfold valid_bits; simpl; auto; lia.
Qed.

Lemma writeHeader_stego b orig : valid_bits b -> bytes_ok orig ->
  writeHeader b (mkCursor orig 0) = mkCursor (stego b (header_bits b) [] orig) 4.
Proof.
  intros Hb Ho. unfold writeHeader. cbn -[ta_set readBit clearBits js_or]. f_equal.
  rewrite !ta_set_lookup_ne by lia.
  assert (Hr : forall p, 5 <= p <= 7 -> 0 <= readBit (b - 1) p < 2)
    by (intros; apply readBit_bit; unfold valid_bits in Hb; lia).
  apply list_eq; intros i. unfold ta_set. rewrite !list_lookup_insert, !length_insert, stego_lookup.
  destruct (orig !! i) as [x|] eqn:E; simpl.
  2: { repeat case_decide; destruct_and?; subst; try reflexivity; apply lookup_ge_None_1 in E; lia. }
  assert (is_byte x) by (eapply Forall_lookup_1; eauto). pose proof (lookup_lt_Some _ _ _ E).
  repeat case_decide; destruct_and?; subst; try lia; unfold stego_channel; simpl; try reflexivity.
  1-3: rewrite E; simpl; rewrite header_value by (auto; apply Hr; lia); reflexivity.
  destruct (Nat.ltb_spec i 4); [|reflexivity]. lia.
Qed.

Lemma at_slot_snoc b hdr V v orig :
  valid_bits b -> bytes_ok orig -> 0 <= v < 2 ^ b ->
  writeChannel (at_slot b hdr V orig) v b = at_slot b hdr (V ++ [v]) orig.
Proof.
  intros. unfold at_slot. rewrite writeChannel_stego by auto.
  rewrite length_app, Nat.add_1_r. reflexivity.
Qed.

(** [buf = (buf << 1) | bit] appends a bit to the accumulator. *)
Lemma shift_in_bit acc x :
  (length acc < 8)%nat -> (val_of acc .<<. 1) .|. Z.b2z x = val_of (acc ++ [x]).
Proof.
  intros Hacc. pose proof (val_of_range acc) as Hr.
  assert (2 ^ Z.of_nat (length acc) <= 2 ^ 7) by (apply Z.pow_le_mono_r; lia).
  assert (0 <= val_of acc < 128) by (change (2 ^ 7) with 128 in *; lia).
  rewrite val_of_snoc, js_shl_small by (change (2 ^ 1) with 2; lia).
  rewrite js_or_small by (try lia; destruct x; simpl; lia).
  rewrite lor_low by (try lia; destruct x; simpl; lia). lia.
Qed.

Lemma pushBit_wstate b hdr orig V acc r x :
  valid_bits b -> bytes_ok orig -> (length acc < Z.to_nat b)%nat ->
  pushBit b (wstate b hdr orig V acc r) (Z.b2z x) =
  (let '(V', acc') := push_abs (Z.to_nat b) (V, acc) x in wstate b hdr orig V' acc' r).
Proof.
  intros Hb Ho Hacc.
  assert (Hbuf : (val_of acc .<<. 1) .|. Z.b2z x = val_of (acc ++ [x]))
    by (apply shift_in_bit; unfold valid_bits in Hb; lia).
  unfold pushBit, push_abs, wstate. cbn [buf bufBits cur rng]. rewrite Hbuf, length_app. simpl length.
  destruct (Z.eqb_spec (Z.of_nat (length acc) + 1) b), (Nat.eqb_spec (length acc + 1) (Z.to_nat b));
    try lia.
  - assert (0 <= val_of (acc ++ [x]) < 2 ^ b).
    { pose proof (val_of_range (acc ++ [x])) as Hr'. rewrite length_app in Hr'. simpl length in Hr'.
      assert (Z.of_nat (length acc + 1) = b) as <- by (clear Hbuf; rewrite Nat2Z.inj_add; simpl; lia).
      exact Hr'. }
    rewrite at_slot_snoc by auto. reflexivity.
  - f_equal. rewrite length_app, Nat2Z.inj_add. simpl. lia.
Qed.

Lemma pushBits_wstate b hdr orig bs V acc r :
  valid_bits b -> bytes_ok orig -> (length acc < Z.to_nat b)%nat ->
  fold_left (fun w y => pushBit b w (Z.b2z y)) bs (wstate b hdr orig V acc r) =
  (let '(V', acc') := fold_left (push_abs (Z.to_nat b)) bs (V, acc) in wstate b hdr orig V' acc' r).
Proof.
  intros Hb Ho. revert V acc. induction bs as [|x bs IH]; intros V acc Hacc; [reflexivity|].
  cbn [fold_left]. rewrite pushBit_wstate by auto.
  pose proof (push_abs_acc (Z.to_nat b) V acc x) as Hlt.
  destruct (push_abs (Z.to_nat b) (V, acc) x) as [V' acc'] eqn:E. simpl in Hlt.
  apply IH. apply Hlt; unfold valid_bits in Hb; lia.
Qed.

Lemma hideByte_bits b w d :
  is_byte d -> hideByte b w d = fold_left (fun w y => pushBit b w (Z.b2z y)) (bits_of 8 d) w.
Proof.
  intros Hd. unfold hideByte.
  rewrite <- (fold_left_map_fn (fun w z => pushBit b w z) (fun bit => readBit d bit)).
  rewrite readBits_byte by exact Hd. apply fold_left_map_fn.
Qed.

Lemma hideBytes_wstate b hdr orig data V acc r :
  valid_bits b -> bytes_ok orig -> bytes_ok data -> (length acc < Z.to_nat b)%nat ->
  hideBytes b (wstate b hdr orig V acc r) data =
  (let '(V', acc') := fold_left (push_abs (Z.to_nat b)) (bytes_bits data) (V, acc) in
   wstate b hdr orig V' acc' r).
Proof.
  intros Hb Ho Hd. revert V acc. induction data as [|d data IH]; intros V acc Hacc; [reflexivity|].
  inversion Hd as [|? ? Hd1 Hd2]; subst.
  change (hideBytes b (wstate b hdr orig V acc r) (d :: data))
    with (hideBytes b (hideByte b (wstate b hdr orig V acc r) d) data).
  rewrite hideByte_bits, pushBits_wstate by auto.
  change (bytes_bits (d :: data)) with (bits_of 8 d ++ bytes_bits data). rewrite fold_left_app.
  pose proof (fold_push_abs_acc (Z.to_nat b) (bits_of 8 d) V acc) as Hlt.
  destruct (fold_left (push_abs (Z.to_nat b)) (bits_of 8 d) (V, acc)) as [V' acc'].
  apply IH; auto. apply Hlt; unfold valid_bits in Hb; lia.
Qed.

Lemma bits_of_8_lookup rb i :
  0 <= i <= 7 -> bits_of 8 rb !! Z.to_nat i = Some (Z.testbit rb (7 - i)).
Proof.
  intros Hi. assert (i = 0 \/ i = 1 \/ i = 2 \/ i = 3 \/ i = 4 \/ i = 5 \/ i = 6 \/ i = 7) by lia.
  destruct_or!; subst; reflexivity.
Qed.

Lemma leftover_loop_spec n i rb c acc r :
  0 <= i -> (Z.to_nat i + n <= 8)%nat -> (length acc + n <= 8)%nat -> is_byte rb ->
  leftover_loop n i rb (mkWriter c (val_of acc) (Z.of_nat (length acc)) r) =
  Ok (mkWriter c (val_of (acc ++ take n (drop (Z.to_nat i) (bits_of 8 rb))))
        (Z.of_nat (length acc + n)) r).
Proof.
  revert i acc. induction n as [|n IH]; intros i acc Hi Hin Han Hrb.
  - cbn. rewrite app_nil_r, Nat.add_0_r. reflexivity.
  - cbn [leftover_loop]. destruct (Z.gtb_spec i 7); [lia|]. cbn [cur buf bufBits rng].
    rewrite readBit_testbit by (unfold is_byte in Hrb; lia).
    rewrite shift_in_bit by lia.
    replace (Z.of_nat (length acc) + 1) with (Z.of_nat (length (acc ++ [Z.testbit rb (7 - i)])))
      by (rewrite length_app; simpl; lia).
    rewrite IH by (try assumption; rewrite ?length_app; simpl; lia).
    rewrite (drop_S _ _ _ (bits_of_8_lookup rb i ltac:(lia))).
    replace (Z.to_nat (i + 1)) with (S (Z.to_nat i)) by lia.
    rewrite <- app_assoc. cbn [take app]. do 3 f_equal. rewrite length_app. cbn [length]. lia.
Qed.

Lemma flushLeftover_empty b hdr orig V r :
  flushLeftover rand b (wstate b hdr orig V [] r) = Ok (wstate b hdr orig V [] r).
Proof. reflexivity. Qed.

Lemma flushLeftover_partial b hdr orig V acc r :
  valid_bits b -> bytes_ok orig -> is_byte (rand r) -> (0 < length acc < Z.to_nat b)%nat ->
  exists w, flushLeftover rand b (wstate b hdr orig V acc r) = Ok w /\
    cur w = at_slot b hdr (V ++ [filler_value (Z.to_nat b) acc (rand r)]) orig /\ rng w = S r.
Proof.
  intros Hb Ho Hr Hacc. unfold flushLeftover, wstate. cbn [buf bufBits cur rng].
  destruct (Z.eqb_spec (Z.of_nat (length acc)) 0); [lia|].
  rewrite leftover_loop_spec by (unfold valid_bits in Hb; auto; lia).
  cbn [mbind res_bind bufBits buf cur rng].
  destruct (Z.eqb_spec (Z.of_nat (length acc + Z.to_nat (b - Z.of_nat (length acc)))) b);
    [|unfold valid_bits in Hb; lia].
  simpl negb. cbv iota. eexists; split; [reflexivity|]. cbn [cur rng]. split; [|reflexivity].
  unfold filler_value. rewrite drop_0.
  replace (Z.to_nat (b - Z.of_nat (length acc))) with (Z.to_nat b - length acc)%nat by lia.
  apply at_slot_snoc; auto.
  pose proof (val_of_range (acc ++ take (Z.to_nat b - length acc) (bits_of 8 (rand r)))) as Hv.
  rewrite length_app, length_take, length_bits_of in Hv.
  replace (Z.of_nat (length acc + Nat.min (Z.to_nat b - length acc) 8)) with b in Hv
    by (unfold valid_bits in Hb; lia).
  exact Hv.
Qed.

Lemma fill_values_S b r n :
  fill_values b r (S n) = rand r mod 2 ^ b :: fill_values b (S r) n.
Proof.
  unfold fill_values. cbn [seq map]. rewrite Nat.add_0_r. f_equal.
  rewrite <- seq_shift, map_map. apply map_ext. intros j. rewrite Nat.add_succ_r. reflexivity.
Qed.

Lemma fill_values_length b r n : length (fill_values b r n) = n.
Proof. unfold fill_values. rewrite length_map, length_seq. reflexivity. Qed.

Lemma fill_values_fit b r n :
  valid_bits b -> Forall (fits (Z.to_nat b)) (fill_values b r n).
Proof.
  intros Hb. unfold fill_values. apply List.Forall_map, Forall_forall. intros j _. unfold fits. rewrite Z2Nat.id by (unfold valid_bits in Hb; lia).
  apply Z.mod_pos_bound, pow2_pos. unfold valid_bits in Hb; lia.
Qed.

Lemma random_mask rb b : is_byte rb -> valid_bits b -> rb .&. (2 ^ b - 1) = rb mod 2 ^ b.
Proof.
  unfold is_byte. intros Hrb Hb. pose proof (pow2_le_256 b Hb).
  rewrite js_and_small by lia. apply land_mask. unfold valid_bits in Hb; lia.
Qed.

Section Fill.
Hypothesis rand_byte : forall n, is_byte (rand n).

(** The trailing loop runs exactly until the payload channels are used up:
    with enough fuel (one iteration per remaining payload channel) it
    writes one masked random byte to each. *)
Lemma fillRandom_spec fuel P b hdr orig V w :
  valid_bits b -> bytes_ok orig -> length orig = (4 * P)%nat -> (1 <= P)%nat ->
  cur w = at_slot b hdr V orig -> (length V <= payload_slots (4 * P))%nat ->
  (payload_slots (4 * P) - length V <= fuel)%nat ->
  cur (fillRandom_loop rand fuel (4 * P) b w)
    = at_slot b hdr (V ++ fill_values b (rng w) (payload_slots (4 * P) - length V)) orig
  /\ rng (fillRandom_loop rand fuel (4 * P) b w) = (rng w + (payload_slots (4 * P) - length V))%nat.
Proof.
  intros Hb Ho Hlen HP. revert V w. induction fuel as [|fuel IH]; intros V w Hcur HV Hfuel.
  - replace (payload_slots (4 * P) - length V)%nat with 0%nat by lia.
    cbn. rewrite app_nil_r, Nat.add_0_r. auto.
  - cbn [fillRandom_loop]. rewrite Hcur. change (channelId (at_slot b hdr V orig)) with (slot (length V)).
    destruct (Nat.ltb_spec (slot (length V)) (4 * P)) as [Hlt|Hge].
    + apply slot_lt_len in Hlt; [|exact HP].
      rewrite random_mask by auto.
      rewrite at_slot_snoc by (auto; apply Z.mod_pos_bound, pow2_pos; unfold valid_bits in Hb; lia).
      destruct (IH (V ++ [rand (rng w) mod 2 ^ b])
                  (mkWriter (at_slot b hdr (V ++ [rand (rng w) mod 2 ^ b]) orig) (buf w) (bufBits w) (S (rng w))))
        as [IH1 IH2]; [reflexivity | rewrite length_app; cbn [length]; lia | rewrite length_app; cbn [length]; lia|].
      rewrite IH1, IH2. cbn [rng]. rewrite length_app. cbn [length].
      replace (payload_slots (4 * P) - length V)%nat with (S (payload_slots (4 * P) - (length V + 1)))
        by lia.
      rewrite fill_values_S, <- app_assoc. split; [reflexivity | lia].
    + assert (Heq : length V = payload_slots (4 * P)).
      { destruct (Nat.lt_ge_cases (length V) (payload_slots (4 * P))) as [Hl|Hl]; [|lia].
        apply (slot_lt_len _ P HP) in Hl. lia. }
      rewrite Heq, Nat.sub_diag, Hcur. cbn. rewrite app_nil_r, Nat.add_0_r. auto.
Qed.

Lemma flush_layout b hdr orig bs V acc r :
  valid_bits b -> bytes_ok orig -> chunk_inv (Z.to_nat b) bs (V, acc) ->
  exists w V1, flushLeftover rand b (wstate b hdr orig V acc r) = Ok w /\
    cur w = at_slot b hdr V1 orig /\ Forall (fits (Z.to_nat b)) V1 /\
    bs `prefix_of` vals_bits (Z.to_nat b) V1 /\
    (length bs <= length V1 * Z.to_nat b < length bs + Z.to_nat b)%nat.
Proof.
  intros Hb Ho (Hbits & Hacc & Hfit). cbn [fst snd] in *.
  pose proof (length_vals_bits (Z.to_nat b) V) as HlV.
  destruct acc as [|a acc'] eqn:Eacc.
  - exists (wstate b hdr orig V [] r), V. rewrite flushLeftover_empty.
    rewrite app_nil_r in Hbits. subst bs. rewrite HlV.
    split; [reflexivity|]. split; [reflexivity|]. split; [exact Hfit|].
    split; [exists []; rewrite app_nil_r; reflexivity|]. unfold valid_bits in Hb; lia.
  - rewrite <- Eacc in *.
    destruct (flushLeftover_partial b hdr orig V acc r) as (w & Hw & Hcur & _);
      [auto | auto | apply rand_byte | subst acc; simpl in *; lia|].
    set (t := take (Z.to_nat b - length acc) (bits_of 8 (rand r))).
    assert (Ht : length t = (Z.to_nat b - length acc)%nat)
      by (unfold t; rewrite length_take, length_bits_of; unfold valid_bits in Hb; lia).
    exists w, (V ++ [filler_value (Z.to_nat b) acc (rand r)]).
    split; [exact Hw|]. split; [exact Hcur|]. split; [|split; [|split]].
    + apply Forall_app; split; [exact Hfit|]. constructor; [|constructor].
      unfold filler_value. fold t. replace (Z.to_nat b) with (length (acc ++ t)) at 1
        by (rewrite length_app; lia). apply val_of_fits.
    + exists t. rewrite vals_bits_app, vals_bits_one, <- Hbits, <- app_assoc. f_equal.
      unfold filler_value. fold t. rewrite <- (bits_of_val_of (acc ++ t)) at 2.
      rewrite length_app. f_equal. lia.
    + subst bs. rewrite !length_app, HlV. rewrite Eacc in *. simpl in *. nia.
    + subst bs. rewrite !length_app, HlV. rewrite Eacc in *. simpl in *. nia.
Qed.

End Fill.

End Writer.
