(* ===== verification/CodecRead.v ===== *)
(** * The read path on a written image

    The header bits of the layout decode to [bitsTaken] (what
    [revealBitsTaken], src/index.ts lines 371-380, computes); the loop of
    [revealBlob] (lines 392-407) visits exactly the payload channels and
    then one index past the end of the buffer, and regroups the
    [bitsTaken]-bit values it reads into bytes. *)

From stdpp Require Import base list.
From Stdlib Require Import ZArith Lia.
From S2P Require Import Prelude Capacity BitCodec Layout.

Open Scope Z_scope.

(** The channels the loop of [revealBlob] reads, in order: the payload
    channels, then (once the image has a payload pixel) the index [len],
    one past the end, reached by skipping the last alpha channel. *)
Definition read_positions (len : nat) : list nat :=
  map slot (seq 0 (payload_slots len)) ++ (if (payload_slots len =? 0)%nat then [] else [len]).

(** The loop's channel index at the start of the iteration that reads the
    k-th payload channel. *)
Definition read_start (k : nat) : nat := match k with O => 4%nat | S k' => S (slot k') end.

(** The reader state after emitting the bytes [em] with pending bits [acc],
    on an output array of [cap] bytes. *)
Definition rstate (cap : nat) (em : list Z) (acc : list bool) : Reader :=
  mkReader (val_of acc) (Z.of_nat (length acc)) (take cap em ++ repeat 0 (cap - length em)) (length em).

(** The [bitsTaken] zero bits of the read past the end of the buffer. *)
Definition phantom_bits (b : Z) (len : nat) : list (list bool) :=
  if (payload_slots len =? 0)%nat then [] else [bits_of (Z.to_nat b) 0].

Section Read.
Context `{CA : ByteArrayKind}.

(** ** The header *)

Lemma stego_header_bit b hdr V orig i x :
  (i < 3)%nat -> orig !! i = Some x -> is_byte x -> 0 <= nth i hdr 0 < 2 ->
  readBit (num_of (stego b hdr V orig !! i)) 7 = nth i hdr 0.
Proof.
  intros Hi Hx Hbyte Hh. rewrite stego_lookup, Hx. simpl.
  unfold stego_channel. destruct (Nat.ltb_spec i 4); [|lia].
  replace (isAlpha i) with false by (unfold isAlpha; destruct i as [|[|[|]]]; simpl; lia || reflexivity).
  unfold is_byte in Hbyte. assert (0 <= x / 2 <= x) by (split; [apply Z.div_pos | apply Z.div_le_upper_bound]; lia).
  rewrite readBit_7 by lia. apply (low_bits_mod x 1); [unfold valid_bits; lia | simpl; lia].
Qed.

Lemma header_bits_bit b i : valid_bits b -> (i < 3)%nat -> 0 <= nth i (header_bits b) 0 < 2.
Proof.
  intros Hb Hi. unfold valid_bits in Hb.
  destruct i as [|[|[|]]]; simpl; try lia; apply readBit_bit; lia.
Qed.

(** The header written for [b] decodes to [b]. *)
Lemma header_bits_decode b : valid_bits b ->
  1 + ((nth 0 (header_bits b) 0 .<<. 2) .|. (nth 1 (header_bits b) 0 .<<. 1) .|. nth 2 (header_bits b) 0) = b.
Proof. intros Hb. case_bits b; reflexivity. Qed.

(** ** The channels the read loop visits *)

Lemma read_start_skip k :
  (if isAlpha (read_start k) then S (read_start k) else read_start k) = slot k.
Proof.
  destruct k as [|k]; [reflexivity|]. cbn [read_start]. rewrite slot_after.
  destruct (Nat.eqb_spec (k mod 3) 2) as [E|E].
  - rewrite (proj1 (slot_S_alpha k E)). reflexivity.
  - rewrite slot_S_plain by exact E. reflexivity.
Qed.

Lemma read_start_lt k P : (1 <= P)%nat -> (k < payload_slots (4 * P))%nat -> (read_start k < 4 * P)%nat.
Proof.
  intros HP Hk. pose proof (proj2 (slot_lt_len k P HP) Hk).
  destruct k as [|k]; cbn [read_start]; [unfold slot in *; arith|].
  pose proof (proj2 (slot_lt_len k P HP) ltac:(lia)). unfold slot in *; arith.
Qed.

Lemma read_start_last P : (2 <= P)%nat -> read_start (payload_slots (4 * P)) = (4 * P - 1)%nat.
Proof.
  intros HP. unfold payload_slots. replace (4 * P / 4)%nat with P by (rewrite Nat.mul_comm, Nat.div_mul; lia).
  destruct (3 * (P - 1))%nat as [|k] eqn:E; [lia|]. cbn [read_start]. unfold slot. arith.
Qed.

Lemma revealBlob_loop_past chans b mask r fuel :
  revealBlob_loop fuel chans b mask (S (length chans)) r = r.
Proof. destruct fuel; simpl; [reflexivity|]. destruct (Nat.ltb_spec (S (length chans)) (length chans)); [lia|reflexivity]. Qed.

(** The loop reads the payload channels in order and then index [len]. *)
Lemma revealBlob_loop_positions chans b mask P fuel k r :
  length chans = (4 * P)%nat -> (1 <= P)%nat -> (k <= payload_slots (4 * P))%nat ->
  (payload_slots (4 * P) - k < fuel)%nat ->
  revealBlob_loop fuel chans b mask (read_start k) r =
  fold_left (fun r i => readChannel chans b mask i r)
    (map slot (seq k (payload_slots (4 * P) - k))
       ++ (if (payload_slots (4 * P) =? 0)%nat then [] else [(4 * P)%nat])) r.
Proof.
  intros Hlen HP. revert k r. induction fuel as [|fuel IH]; intros k r Hk Hfuel; [lia|].
  cbn [revealBlob_loop].
  destruct (Nat.eq_dec k (payload_slots (4 * P))) as [->|Hne].
  - rewrite Nat.sub_diag. cbn [seq map app].
    destruct (Nat.eqb_spec (payload_slots (4 * P)) 0) as [H0|H0].
    + rewrite H0. cbn [read_start fold_left]. rewrite Hlen.
      destruct (Nat.ltb_spec 4 (4 * P)); [unfold payload_slots in H0; arith|reflexivity].
    + assert (HP2 : (2 <= P)%nat) by (unfold payload_slots in H0; arith).
      rewrite read_start_last, Hlen by exact HP2.
      destruct (Nat.ltb_spec (4 * P - 1) (4 * P)); [|lia].
      replace (isAlpha (4 * P - 1)) with true by (symmetry; apply isAlpha_true; arith).
      replace (S (4 * P - 1)) with (4 * P)%nat by lia. cbn [fold_left].
      rewrite <- Hlen. apply revealBlob_loop_past.
  - rewrite Hlen. destruct (Nat.ltb_spec (read_start k) (4 * P)) as [_|Hge];
      [|pose proof (read_start_lt k P HP ltac:(lia)); lia].
    rewrite read_start_skip.
    replace (payload_slots (4 * P) - k)%nat with (S (payload_slots (4 * P) - S k)) by lia.
    cbn [seq map app fold_left]. apply (IH (S k)); lia.
Qed.

(** ** Regrouping the values into bytes *)

Lemma out_insert cap em x :
  <[length em := x]> (take cap em ++ repeat 0 (cap - length em))
  = take cap (em ++ [x]) ++ repeat 0 (cap - length (em ++ [x])).
Proof.
  rewrite length_app. simpl length. destruct (Nat.lt_ge_cases (length em) cap) as [Hlt|Hge].
  - rewrite (take_ge em) by lia. rewrite (take_ge (em ++ [x])) by (rewrite length_app; simpl; lia).
    rewrite insert_app_r_alt, Nat.sub_diag by lia.
    replace (cap - length em)%nat with (S (cap - (length em + 1))) by lia.
    rewrite <- app_assoc. reflexivity.
  - rewrite list_insert_ge by (rewrite length_app, length_take, repeat_length; lia).
    rewrite take_app_le by lia. do 2 f_equal. lia.
Qed.

Lemma readChannel_rstate chans b i v cap em acc :
  valid_bits b -> (length acc < 8)%nat ->
  num_of (chans !! i) .&. (2 ^ b - 1) = v -> 0 <= v < 2 ^ b ->
  readChannel chans b (2 ^ b - 1) i (rstate cap em acc) =
  (let '(em', acc') := read_abs (em, acc) (bits_of (Z.to_nat b) v) in rstate cap em' acc').
Proof.
  intros Hb Hacc Hv Hvr. unfold valid_bits in Hb. pose proof (pow2_le_256 b Hb) as H256.
  set (acc' := acc ++ bits_of (Z.to_nat b) v).
  assert (Hlen' : length acc' = (length acc + Z.to_nat b)%nat) by (unfold acc'; rewrite length_app, length_bits_of; reflexivity).
  pose proof (val_of_range acc) as Hr.
  assert (2 ^ Z.of_nat (length acc) <= 2 ^ 7) by (apply Z.pow_le_mono_r; lia).
  assert (Hbuf : (val_of acc .<<. b) .|. v = val_of acc').
  { unfold acc'. rewrite val_of_app, val_of_bits_of, length_bits_of, Z2Nat.id, Z.mod_small by lia.
    change (2 ^ 7) with 128 in *. rewrite js_shl_small by nia. rewrite js_or_small by nia.
    apply lor_low; lia. }
  pose proof (val_of_range acc') as Hr'. rewrite Hlen' in Hr'.
  assert (2 ^ Z.of_nat (length acc + Z.to_nat b) <= 2 ^ 15) by (apply Z.pow_le_mono_r; lia).
  change (2 ^ 15) with 32768 in *.
  unfold readChannel, rstate, read_abs. cbn [rbuf rbufBits out outPos]. rewrite Hv, Hbuf. fold acc'.
  destruct (Z.geb_spec (Z.of_nat (length acc) + b) 8), (Nat.leb_spec 8 (length acc')); try lia.
  - assert (Hl : Z.of_nat (length acc) + b - 8 = Z.of_nat (length acc' - 8)) by lia.
    rewrite Hl, js_and_mask, val_of_drop_mod by lia.
    rewrite js_sar_small, val_of_take_div by lia. unfold ta_set. cbn [ta_conv Uint8Array].
    pose proof (val_of_range (take 8 acc')) as Ht. rewrite length_take in Ht.
    replace (Z.of_nat (Nat.min 8 (length acc'))) with 8 in Ht by lia.
    unfold wrap_u8. rewrite (Z.mod_small (val_of (take 8 acc'))) by (change (2 ^ 8) with 256 in Ht; lia).
    rewrite out_insert, length_drop, length_app. simpl length. do 2 f_equal; lia.
  - f_equal. unfold acc'. rewrite length_app, length_bits_of. lia.
Qed.

Lemma read_fold_rstate chans b cap ps em acc :
  valid_bits b -> (length acc < 8)%nat ->
  fold_left (fun r i => readChannel chans b (2 ^ b - 1) i r) ps (rstate cap em acc) =
  (let '(em', acc') := fold_left read_abs
      (map (fun i => bits_of (Z.to_nat b) (num_of (chans !! i) .&. (2 ^ b - 1))) ps) (em, acc)
   in rstate cap em' acc').
Proof.
  intros Hb. revert em acc. induction ps as [|i ps IH]; intros em acc Hacc; [reflexivity|].
  cbn [fold_left map]. unfold valid_bits in Hb.
  rewrite (readChannel_rstate chans b i (num_of (chans !! i) .&. (2 ^ b - 1)))
    by (auto; rewrite js_and_mask by lia; apply Z.mod_pos_bound, pow2_pos; lia).
  pose proof (read_abs_acc em acc (bits_of (Z.to_nat b) (num_of (chans !! i) .&. (2 ^ b - 1))) Hacc)
    as Hlt. rewrite length_bits_of in Hlt.
  destruct (read_abs (em, acc) _) as [em' acc']. apply IH. apply Hlt. lia.
Qed.

Lemma stego_slot_value b hdr V orig k x :
  valid_bits b -> orig !! slot k = Some x -> (k < length V)%nat -> fits (Z.to_nat b) (nth k V 0) ->
  num_of (stego b hdr V orig !! slot k) .&. (2 ^ b - 1) = nth k V 0.
Proof.
  intros Hb Hx Hk Hf. rewrite stego_lookup, Hx. cbn [fmap option_fmap option_map num_of default].
  unfold stego_channel. pose proof (slot_ge4 k).
  destruct (Nat.ltb_spec (slot k) 4); [lia|]. rewrite slot_index_slot, slot_not_alpha.
  destruct (Nat.ltb_spec k (length V)); [|lia].
  unfold fits in Hf. rewrite Z2Nat.id in Hf by (unfold valid_bits in Hb; lia).
  rewrite js_and_mask by (unfold valid_bits in Hb; lia). apply low_bits_mod; auto.
Qed.

Lemma length_lsb_stream n chans : length (lsb_stream n chans) = (payload_slots (length chans) * n)%nat.
Proof.
  unfold lsb_stream. rewrite <- (length_seq (payload_slots (length chans)) 0) at 2.
  induction (seq 0 (payload_slots (length chans))) as [|k ks IH]; [reflexivity|].
  cbn [map concat length]. rewrite length_app, length_bits_of, IH. lia.
Qed.

(** The payload channels of a written image carry the payload values. *)
Lemma lsb_stream_stego b hdr V orig P :
  valid_bits b -> length orig = (4 * P)%nat -> length V = payload_slots (4 * P) ->
  Forall (fits (Z.to_nat b)) V -> lsb_stream (Z.to_nat b) (stego b hdr V orig) = vals_bits (Z.to_nat b) V.
Proof.
  intros Hb Hlen HV Hfit. unfold lsb_stream, vals_bits. rewrite length_stego, Hlen, <- HV. f_equal.
  rewrite <- (map_nth_seq_id V 0) at 2. rewrite map_map. apply map_ext_in. intros k Hk%in_seq.
  destruct (lookup_lt_is_Some_2 orig (slot k)) as [x Hx].
  { rewrite Hlen. apply slot_lt_len; [|lia]. destruct P; [unfold payload_slots in *; simpl in *; lia|lia]. }
  pose proof (stego_slot_value b hdr V orig k x Hb Hx ltac:(lia) (Forall_nth_lt _ _ 0 k Hfit ltac:(lia))) as Hv.
  unfold valid_bits in Hb. rewrite js_and_mask in Hv by lia. rewrite <- Hv.
  replace (2 ^ b) with (2 ^ Z.of_nat (Z.to_nat b)) by (rewrite Z2Nat.id; lia).
  rewrite bits_of_mod by lia. reflexivity.
Qed.

(** What the loop reads from any image: the low bits of the payload
    channels, then the [bitsTaken] zero bits of the read past the end. *)
Lemma read_values_any b chans P :
  valid_bits b -> length chans = (4 * P)%nat ->
  map (fun i => bits_of (Z.to_nat b) (num_of (chans !! i) .&. (2 ^ b - 1))) (read_positions (4 * P))
  = map (fun k => bits_of (Z.to_nat b) (num_of (chans !! slot k))) (seq 0 (payload_slots (4 * P)))
    ++ phantom_bits b (4 * P).
Proof.
  intros Hb Hlen. unfold valid_bits in Hb. unfold read_positions, phantom_bits. rewrite map_app, map_map. f_equal.
  - apply map_ext. intros k. rewrite js_and_mask by lia.
    replace (2 ^ b) with (2 ^ Z.of_nat (Z.to_nat b)) by (rewrite Z2Nat.id; lia).
    apply bits_of_mod. lia.
  - destruct (payload_slots (4 * P) =? 0)%nat; [reflexivity|]. cbn [map].
    rewrite (lookup_ge_None_2 chans) by lia. rewrite js_and_mask by lia. reflexivity.
Qed.

Lemma bytes_bits_take n l : bytes_bits (take n l) = take (8 * n) (bytes_bits l).
Proof.
  revert n. induction l as [|x l IH]; intros [|n]; try reflexivity.
  cbn [take]. change (bytes_bits (x :: take n l)) with (bits_of 8 x ++ bytes_bits (take n l)).
  change (bytes_bits (x :: l)) with (bits_of 8 x ++ bytes_bits l).
  replace (8 * S n)%nat with (length (bits_of 8 x) + 8 * n)%nat by (rewrite length_bits_of; lia).
  rewrite take_app_add, IH. reflexivity.
Qed.

Lemma capacity_slots P b : (1 <= P)%nat -> valid_bits b ->
  (Z.of_nat (4 * P) - 4) * 3 * b / 32 = Z.of_nat (payload_slots (4 * P)) * b / 8.
Proof.
  intros HP Hb. unfold payload_slots. replace (4 * P / 4)%nat with P by (rewrite Nat.mul_comm, Nat.div_mul; lia).
  replace ((Z.of_nat (4 * P) - 4) * 3 * b) with (Z.of_nat (3 * (P - 1)) * b * 4)
    by (rewrite !Nat2Z.inj_mul, Nat2Z.inj_sub by lia; simpl; ring).
  change 32 with (8 * 4). apply Z.div_mul_cancel_r; lia.
Qed.

End Read.
