(* ===== verification/Codec.v ===== *)
(** * Codec: the entry points [hideBlob] (write path) and [revealBlob]

    [hideBlobChannels] is the write path of [StegImage.hideBlob]
    (src/index.ts lines 254-341) composed of the loops of BitCodec.v;
    [revealBitsTaken] and [revealBlob] (lines 371-409) are the read path.
    The refinement theorems of CodecWrite.v and CodecRead.v lift to these
    entry points: on a well-formed image the write path produces the
    layout of Layout.v and the read path reads it back.  Composed, they
    give the codec's claims: round trip, only low bits changed, alpha
    blanked, header read back and its range, the errors of both paths. *)

From stdpp Require Import base list.
From Stdlib Require Import ZArith Lia.
From S2P Require Import Prelude Capacity BitCodec Layout CodecWrite CodecRead.

Open Scope Z_scope.

(** ** The entry points *)

Section Entry.
Context `{CA : ByteArrayKind}.
Variable rand : nat -> Z.

(** The write path of [hideBlob] (lines 254-341): it returns the written
    channels and the number of random bytes drawn. *)
Definition hideBlobChannels (chans : list Z) (hData : list Z) (bitsTaken : Z) (rng0 : nat)
    : res (list Z * nat) :=
  let channelsLen := length chans in
  let hDataLen := Z.of_nat (length hData) in
  validateBits bitsTaken ≫= fun _ =>
  calcCapacity channelsLen bitsTaken ≫= fun cap =>
  if hDataLen >? cap_bytes cap then Err CapacityExceeded
  else
    let c := writeHeader bitsTaken (mkCursor chans 0) in
    let w := hideBytes bitsTaken (mkWriter c 0 0 rng0) hData in
    flushLeftover rand bitsTaken w ≫= fun w =>
    let w := fillRandom_loop rand channelsLen channelsLen bitsTaken w in
    if negb (channelId (cur w) =? channelsLen)%nat then Err CursorMismatch
    else Ok (channels (cur w), rng w).

End Entry.

(** [revealBitsTaken()] *)
Definition revealBitsTaken (chans : list Z) : res Z :=
  let bit0 := readBit (num_of (chans !! 0%nat)) 7 .<<. 2 in
  let bit1 := readBit (num_of (chans !! 1%nat)) 7 .<<. 1 in
  let bit2 := readBit (num_of (chans !! 2%nat)) 7 in
  let bitsTaken := 1 + (bit0 .|. bit1 .|. bit2) in
  validateBits bitsTaken ≫= fun _ => Ok bitsTaken.

(** [new Uint8Array(n)] *)
Definition newUint8Array (n : Z) : res (list Z) :=
  if n <? 0 then Err ArrayLengthRange else Ok (repeat 0 (Z.to_nat n)).

Definition revealBlob (chans : list Z) : res (list Z) :=
  revealBitsTaken chans ≫= fun bitsTaken =>
  calcCapacity (length chans) bitsTaken ≫= fun cap =>
  let mask := 2 ^ bitsTaken - 1 in
  newUint8Array (cap_bytes cap) ≫= fun out0 =>
  Ok (out (revealBlob_loop (length chans) chans bitsTaken mask 4 (mkReader 0 0 out0 0))).

(** A reference decoder: the header, the capacity, and that many bytes
    of the stream of low bits the payload channels carry. *)
Definition reveal_ref (chans : list Z) : res (list Z) :=
  revealBitsTaken chans ≫= fun b =>
  calcCapacity (length chans) b ≫= fun cap =>
  if cap_bytes cap <? 0 then Err ArrayLengthRange
  else Ok (bytes_of_bits (Z.to_nat (cap_bytes cap)) (lsb_stream (Z.to_nat b) chans)).

(** Inputs of the witnesses below: a black 4-pixel image, a random
    source that always returns 0, and the image [hideBlob] writes into it
    for the payload [0xAA] at one bit per channel (Uint8Array). *)
Definition img16 : list Z := repeat 0 16.
Definition rand0 (_ : nat) : Z := 0.
Definition img16_hidden : list Z := [0; 0; 0; 0; 1; 0; 1; 0; 0; 1; 0; 0; 1; 0; 0; 0].

Section Roundtrip.
Context `{CA : ByteArrayKind}.
Variable rand : nat -> Z.
Hypothesis rand_byte : forall n, is_byte (rand n).

(** ** The entry points on the layout *)

(** The header read: channels 0..2 whose lowest bits are the header of
    a valid [b] give [b]. *)
Lemma revealBitsTaken_header chans b :
  valid_bits b -> (forall i, (i < 3)%nat -> readBit (num_of (chans !! i)) 7 = nth i (header_bits b) 0) ->
  revealBitsTaken chans = Ok b.
Proof.
  intros Hb Hbit. unfold revealBitsTaken.
  rewrite !Hbit by lia. rewrite header_bits_decode, validateBits_ok by exact Hb. reflexivity.
Qed.

Lemma revealBitsTaken_stego b V orig :
  valid_bits b -> bytes_ok orig -> (3 <= length orig)%nat ->
  revealBitsTaken (stego b (header_bits b) V orig) = Ok b.
Proof.
  intros Hb Ho Hlen. apply revealBitsTaken_header; [exact Hb|].
  intros i Hi. destruct (lookup_lt_is_Some_2 orig i) as [x Hx]; [lia|].
  apply (stego_header_bit _ _ _ _ _ x); auto.
  - eapply Forall_lookup_1; eauto.
  - apply header_bits_bit; auto.
Qed.

(** The write path of [hideBlob] on a well-formed image with a payload
    that fits: it never throws (neither the capacity check, the leftover
    checks nor the final cursor check fire), and the image it returns is
    the original with the header in channels 0..2, every alpha channel
    blanked, and [payload_slots] values of [bitsTaken] bits in the payload
    channels whose bits start with the bits of the payload. *)
Theorem hideBlobChannels_layout chans data b r0 P cap :
  valid_bits b -> bytes_ok chans -> length chans = (4 * P)%nat -> bytes_ok data ->
  calcCapacity (length chans) b = Ok cap -> Z.of_nat (length data) <= cap_bytes cap ->
  exists V r1, hideBlobChannels rand chans data b r0 = Ok (stego b (header_bits b) V chans, r1) /\
    length V = payload_slots (4 * P) /\ Forall (fits (Z.to_nat b)) V /\
    bytes_bits data `prefix_of` vals_bits (Z.to_nat b) V.
Proof.
  intros Hb Ho Hlen Hd Hcap Hfits.
  rewrite calcCapacity_ok, Hlen in Hcap by exact Hb. injection Hcap as <-. cbn [cap_bytes] in Hfits.
  assert (HP : (1 <= P)%nat).
  { destruct P as [|P]; [|lia]. exfalso. unfold valid_bits in Hb.
    replace (Z.of_nat (4 * 0)) with 0 in Hfits by reflexivity. Z.div_mod_to_equations. lia. }
  assert (HK : (8 * length data <= payload_slots (4 * P) * Z.to_nat b)%nat).
  { unfold payload_slots. replace (4 * P / 4)%nat with P by (rewrite Nat.mul_comm, Nat.div_mul; lia).
    pose proof (Z.mul_div_le ((Z.of_nat (4 * P) - 4) * 3 * b) 32 ltac:(lia)).
    unfold valid_bits in Hb. nia. }
  unfold hideBlobChannels. rewrite validateBits_ok, calcCapacity_ok, Hlen by exact Hb.
  cbn [mbind res_bind cap_bytes].
  destruct (Z.gtb_spec (Z.of_nat (length data)) ((Z.of_nat (4 * P) - 4) * 3 * b / 32)); [lia|].
  rewrite (writeHeader_stego rand) by auto.
  change (mkWriter (mkCursor (stego b (header_bits b) [] chans) 4) 0 0 r0)
    with (wstate b (header_bits b) chans [] [] r0).
  rewrite (hideBytes_wstate rand) by (auto; simpl; unfold valid_bits in Hb; lia).
  pose proof (chunk_bits_inv (Z.to_nat b) (bytes_bits data)) as Hinv. unfold chunk_bits in Hinv.
  destruct (fold_left (push_abs (Z.to_nat b)) (bytes_bits data) ([], [])) as [V acc].
  destruct (flush_layout rand rand_byte b (header_bits b) chans (bytes_bits data) V acc r0)
    as (w & V1 & Hw & Hcur & Hfit1 & Hpre1 & Hlen1);
    [auto | auto | apply Hinv; unfold valid_bits in Hb; lia|].
  rewrite Hw. cbn [mbind res_bind]. rewrite length_bytes_bits in Hlen1.
  assert (HV1 : (length V1 <= payload_slots (4 * P))%nat) by (unfold valid_bits in Hb; nia).
  destruct (fillRandom_spec rand rand_byte (4 * P) P b (header_bits b) chans V1 w) as [F1 F2]; auto;
    [unfold payload_slots; arith|].
  rewrite F1, F2. unfold at_slot. cbn [channelId channels].
  rewrite length_app, fill_values_length, Nat.add_comm, Nat.sub_add, slot_payload_slots by auto.
  rewrite Nat.eqb_refl. simpl negb. cbv iota.
  eexists _, _. split; [reflexivity|]. split; [|split].
  - rewrite length_app, fill_values_length. lia.
  - apply Forall_app. split; [exact Hfit1 | apply fill_values_fit, Hb].
  - destruct Hpre1 as [k Hk]. exists (k ++ vals_bits (Z.to_nat b) (fill_values rand b (rng w) (payload_slots (4 * P) - length V1))).
    rewrite vals_bits_app, Hk, app_assoc. reflexivity.
Qed.

Lemma revealBitsTaken_Ok_valid chans b : revealBitsTaken chans = Ok b -> valid_bits b.
Proof.
  unfold revealBitsTaken. destruct (validateBits _) as [[]|e] eqn:Hv; [|discriminate].
  cbn [mbind res_bind]. intros H. injection H as <-. apply validateBits_Ok_inv, Hv.
Qed.

(** The read path on any image of whole pixels: the output array has the
    capacity's length, and its bits are the leading bits of the stream
    the payload channels carry. *)
Lemma revealBlob_reads chans b P :
  length chans = (4 * P)%nat -> (1 <= P)%nat -> revealBitsTaken chans = Ok b ->
  exists out, revealBlob chans = Ok out /\
    Z.of_nat (length out) = Z.of_nat (payload_slots (4 * P)) * b / 8 /\ bytes_ok out /\
    bytes_bits out `prefix_of` lsb_stream (Z.to_nat b) chans.
Proof.
  intros Hlen HP Hrb. pose proof (revealBitsTaken_Ok_valid chans b Hrb) as Hb.
  unfold revealBlob. rewrite Hrb. cbn [mbind res_bind].
  rewrite calcCapacity_ok, Hlen by exact Hb. cbn [mbind res_bind cap_bytes].
  rewrite capacity_slots by auto.
  set (X := Z.of_nat (payload_slots (4 * P)) * b).
  assert (HX : 0 <= X) by (unfold X, valid_bits in *; nia).
  pose proof (Z.mul_div_le X 8 ltac:(lia)) as Hdiv. pose proof (Z.div_pos X 8 HX ltac:(lia)).
  unfold newUint8Array. destruct (Z.ltb_spec (X / 8) 0); [lia|]. cbn [mbind res_bind].
  set (cap := Z.to_nat (X / 8)).
  replace (mkReader 0 0 (repeat 0 cap) 0) with (rstate cap [] [])
    by (unfold rstate; cbn [length val_of fold_left]; rewrite take_nil, Nat.sub_0_r; reflexivity).
  change 4%nat with (read_start 0).
  rewrite (revealBlob_loop_positions _ _ _ P (4 * P) 0) by (auto; unfold payload_slots; arith).
  rewrite Nat.sub_0_r. fold (read_positions (4 * P)).
  rewrite read_fold_rstate, read_values_any by (auto; simpl; lia).
  set (vals := map (fun k => bits_of (Z.to_nat b) (num_of (chans !! slot k))) (seq 0 (payload_slots (4 * P)))).
  pose proof (read_inv_fold [] ([], []) (vals ++ phantom_bits b (4 * P))) as Hinv.
  destruct (fold_left read_abs (vals ++ phantom_bits b (4 * P)) ([], [])) as [em acc].
  destruct Hinv as (Hbits & Hacc & Hok).
  { apply Forall_app; split.
    - apply List.Forall_map, Forall_forall; intros v _; rewrite length_bits_of; unfold valid_bits in Hb; lia.
    - unfold phantom_bits. destruct (payload_slots (4 * P) =? 0)%nat; [constructor|constructor; [|constructor]].
      rewrite length_bits_of; unfold valid_bits in Hb; lia. }
  { split; [reflexivity | split; [simpl; lia | constructor]]. }
  cbn [fst snd app] in *. rewrite concat_app in Hbits.
  replace (concat vals) with (lsb_stream (Z.to_nat b) chans) in Hbits by (unfold lsb_stream, vals; rewrite Hlen; reflexivity).
  exists (take cap em ++ repeat 0 (cap - length em)). split; [reflexivity|].
  pose proof (f_equal length Hbits) as Hl.
  rewrite !length_app, length_bytes_bits, length_lsb_stream, Hlen in Hl.
  assert (Hcap : (8 * cap <= payload_slots (4 * P) * Z.to_nat b)%nat)
    by (unfold cap, X, valid_bits in *; lia).
  assert (Hem : (cap <= length em)%nat) by (unfold cap in *; lia).
  replace (cap - length em)%nat with 0%nat by lia. rewrite app_nil_r.
  split; [rewrite length_take, Nat.min_l by exact Hem; unfold cap; lia|].
  split; [apply Forall_take, Hok|].
  rewrite bytes_bits_take.
  rewrite <- (take_app_le (bytes_bits em) acc) by (rewrite length_bytes_bits; lia).
  rewrite Hbits, take_app_le by (rewrite length_lsb_stream, Hlen; lia).
  apply prefix_take.
Qed.

(** The read path on a written image: the bytes read are the leading bits
    of the payload values. *)
Lemma revealBlob_layout b V orig P :
  valid_bits b -> bytes_ok orig -> length orig = (4 * P)%nat -> (1 <= P)%nat ->
  length V = payload_slots (4 * P) -> Forall (fits (Z.to_nat b)) V ->
  exists out, revealBlob (stego b (header_bits b) V orig) = Ok out /\
    Z.of_nat (length out) = Z.of_nat (payload_slots (4 * P)) * b / 8 /\ bytes_ok out /\
    bytes_bits out `prefix_of` vals_bits (Z.to_nat b) V.
Proof.
  intros Hb Ho Hlen HP HV Hfit.
  destruct (revealBlob_reads (stego b (header_bits b) V orig) b P) as (out & Hr & Hl & Hok & Hpre);
    [rewrite length_stego; exact Hlen | exact HP | apply revealBitsTaken_stego; auto; lia |].
  exists out. split_and!; auto. rewrite (lsb_stream_stego b (header_bits b) V orig P) in Hpre; auto.
Qed.

Lemma prefix_bytes_take (data out : list Z) L :
  bytes_ok data -> bytes_ok out ->
  bytes_bits data `prefix_of` L -> bytes_bits out `prefix_of` L ->
  (length data <= length out)%nat -> take (length data) out = data.
Proof.
  intros Hd Ho [k1 Hk1] [k2 Hk2] Hlen.
  apply (bytes_bits_prefix out data k2 k1); auto. congruence.
Qed.

Lemma capacity_of_image (chans : list Z) b cap :
  valid_bits b -> calcCapacity (length chans) b = Ok cap -> (length chans mod 4 = 0)%nat ->
  0 <= cap_bytes cap -> exists P, length chans = (4 * P)%nat /\ (1 <= P)%nat /\
    cap_bytes cap = Z.of_nat (payload_slots (4 * P)) * b / 8.
Proof.
  intros Hb Hcap Hmod Hpos. rewrite calcCapacity_ok in Hcap by exact Hb. injection Hcap as <-.
  cbn [cap_bytes] in *. exists (length chans / 4)%nat.
  assert (Hl : length chans = (4 * (length chans / 4))%nat) by arith.
  assert (HP : (1 <= length chans / 4)%nat).
  { destruct (length chans / 4)%nat eqn:E; [|lia]. rewrite Hl in Hpos. unfold valid_bits in Hb.
    simpl in Hpos. Z.div_mod_to_equations. lia. }
  split; [exact Hl|]. split; [exact HP|]. rewrite Hl at 1. apply capacity_slots; auto.
Qed.

(** C2: Hiding then revealing returns the hidden bytes, followed by filler up
    to the capacity; no step of either path throws. *)
Theorem revealBlob_hideBlob (chans data : list Z) b r0 cap :
  valid_bits b -> bytes_ok chans -> (length chans mod 4 = 0)%nat -> bytes_ok data ->
  calcCapacity (length chans) b = Ok cap -> Z.of_nat (length data) <= cap_bytes cap ->
  exists chans' r1 out,
    hideBlobChannels rand chans data b r0 = Ok (chans', r1) /\ revealBlob chans' = Ok out /\
    Z.of_nat (length out) = cap_bytes cap /\ take (length data) out = data.
Proof.
  intros Hb Ho Hmod Hd Hcap Hfits.
  destruct (capacity_of_image chans b cap) as (P & Hlen & HP & Hbytes); auto; [lia|].
  destruct (hideBlobChannels_layout chans data b r0 P cap)
    as (V & r1 & Hhide & HV & Hfit & Hpre); auto.
  destruct (revealBlob_layout b V chans P) as (out & Hrev & Hlout & Hok & Hpre'); auto.
  exists (stego b (header_bits b) V chans), r1, out. split; [exact Hhide|]. split; [exact Hrev|].
  split; [lia|]. apply (prefix_bytes_take data out (vals_bits (Z.to_nat b) V)); auto. lia.
Qed.

Lemma hideBlobChannels_Ok_inv (chans data : list Z) b r0 res1 :
  hideBlobChannels rand chans data b r0 = Ok res1 ->
  valid_bits b /\ exists cap, calcCapacity (length chans) b = Ok cap /\ Z.of_nat (length data) <= cap_bytes cap.
Proof.
  unfold hideBlobChannels. destruct (validateBits b) as [[]|e] eqn:Hv; [|discriminate].
  cbn [mbind res_bind]. pose proof (validateBits_Ok_inv b Hv) as Hb.
  destruct (calcCapacity (length chans) b) as [cap|e] eqn:Hc; [|discriminate]. cbn [mbind res_bind].
  destruct (Z.gtb_spec (Z.of_nat (length data)) (cap_bytes cap)); [discriminate|].
  intros _. split; [exact Hb|]. exists cap. auto.
Qed.

(** Under the preconditions of [hideBlob], its result is a layout. *)
Lemma hideBlobChannels_Ok_layout (chans data : list Z) b r0 chans' r1 :
  bytes_ok chans -> (length chans mod 4 = 0)%nat -> bytes_ok data ->
  hideBlobChannels rand chans data b r0 = Ok (chans', r1) ->
  valid_bits b /\ exists P V, length chans = (4 * P)%nat /\ (1 <= P)%nat /\
    length V = payload_slots (4 * P) /\ Forall (fits (Z.to_nat b)) V /\
    chans' = stego b (header_bits b) V chans.
Proof.
  intros Ho Hmod Hd Hhide. pose proof Hhide as Hinv.
  apply hideBlobChannels_Ok_inv in Hinv as (Hb & cap & Hcap & Hfits).
  destruct (capacity_of_image chans b cap) as (P & Hlen & HP & _); auto; [lia|].
  destruct (hideBlobChannels_layout chans data b r0 P cap)
    as (V & r1' & Hhide' & HV & Hfit & _); auto.
  rewrite Hhide' in Hhide. injection Hhide as <- _.
  split; [exact Hb|]. exists P, V. auto.
Qed.

(** What [revealBlob] reads from an image [hideBlobChannels] wrote: the
    hidden bytes, then filler up to the capacity. *)
Lemma revealBlob_hidden (chans data : list Z) b r0 chans' r1 :
  bytes_ok chans -> (length chans mod 4 = 0)%nat -> bytes_ok data ->
  hideBlobChannels rand chans data b r0 = Ok (chans', r1) ->
  exists out, revealBlob chans' = Ok out /\
    Z.of_nat (length out) = (Z.of_nat (length chans) - 4) * 3 * b / 32 /\ take (length data) out = data.
Proof.
  intros Ho Hmod Hd Hhide.
  destruct (hideBlobChannels_Ok_inv chans data b r0 (chans', r1) Hhide) as (Hb & cap & Hcap & Hfits).
  destruct (capacity_of_image chans b cap) as (P & Hlen & HP & Hbytes); auto; [lia|].
  destruct (hideBlobChannels_layout chans data b r0 P cap)
    as (V & r1' & Hhide' & HV & Hfit & Hpre); auto.
  rewrite Hhide in Hhide'. injection Hhide' as -> _.
  destruct (revealBlob_layout b V chans P) as (out & Hrev & Hlout & Hok & Hpre'); auto.
  rewrite calcCapacity_ok in Hcap by exact Hb. injection Hcap as <-. cbn [cap_bytes] in Hfits, Hbytes.
  exists out. split; [exact Hrev|]. split; [lia|].
  apply (prefix_bytes_take data out (vals_bits (Z.to_nat b) V)); auto. lia.
Qed.

Lemma slot_index_lt_payload i P :
  (4 <= i)%nat -> (i < 4 * P)%nat -> (slot_index i < payload_slots (4 * P))%nat.
Proof. unfold slot_index, payload_slots. intros. arith. Qed.

Lemma div_low_bits x w v : 0 < 2 ^ w -> 0 <= v < 2 ^ w -> (x / 2 ^ w * 2 ^ w + v) / 2 ^ w = x / 2 ^ w.
Proof. intros. rewrite Z.div_add_l, (Z.div_small v) by lia. lia. Qed.

(** A written image holds bytes. *)
Lemma stego_bytes b V chans :
  valid_bits b -> bytes_ok chans -> Forall (fits (Z.to_nat b)) V -> bytes_ok (stego b (header_bits b) V chans).
Proof.
  intros Hb Ho Hfit. pose proof (pow2_le_256 b Hb) as Hp.
  apply Forall_lookup_2. intros i x' Hx'. rewrite stego_lookup in Hx'.
  destruct (chans !! i) as [x|] eqn:Hx; [|discriminate]. injection Hx' as <-.
  assert (is_byte x) by (eapply Forall_lookup_1; [exact Ho | exact Hx]).
  unfold stego_channel. destruct (i <? 4)%nat eqn:Hi4; destruct (isAlpha i) eqn:Ha.
  - apply ta_conv_range.
  - apply (low_bits_byte x 1); auto; [unfold valid_bits; lia|]. apply Nat.ltb_lt in Hi4.
    assert (i <> 3%nat) by (intros ->; discriminate). apply header_bits_bit; auto; lia.
  - destruct (slot_index i <? length V)%nat; [apply ta_conv_range | auto].
  - destruct (slot_index i <? length V)%nat eqn:Hs; [|auto].
    apply low_bits_byte; auto. apply Nat.ltb_lt in Hs. pose proof (Forall_nth_lt _ _ 0 _ Hfit Hs) as Hf.
    unfold fits in Hf. rewrite Z2Nat.id in Hf by (unfold valid_bits in Hb; lia). exact Hf.
Qed.

(** The image [hideBlob] writes is a byte array of the same length. *)
Lemma hideBlobChannels_bytes (chans data : list Z) b r0 chans' r1 :
  bytes_ok chans -> (length chans mod 4 = 0)%nat -> bytes_ok data ->
  hideBlobChannels rand chans data b r0 = Ok (chans', r1) -> bytes_ok chans' /\ length chans' = length chans.
Proof.
  intros Ho Hmod Hd Hhide.
  destruct (hideBlobChannels_Ok_layout chans data b r0 chans' r1 Ho Hmod Hd Hhide)
    as (Hb & P & V & Hlen & HP & HV & Hfit & ->).
  split; [apply stego_bytes; auto | apply length_stego].
Qed.

(** A written image meets the codec's contract. *)
Lemma stego_layout_spec b V data orig P :
  valid_bits b -> bytes_ok orig -> length orig = (4 * P)%nat ->
  length V = payload_slots (4 * P) -> Forall (fits (Z.to_nat b)) V ->
  bytes_bits data `prefix_of` vals_bits (Z.to_nat b) V ->
  layout_spec b data orig (stego b (header_bits b) V orig).
Proof.
  intros Hb Ho Hlen HV Hfit Hpre. pose proof (pow2_le_256 b Hb) as Hp.
  split_and!; [apply stego_bytes; auto | apply length_stego | | rewrite (lsb_stream_stego b _ V orig P); auto].
  intros i x y Hx Hy. rewrite stego_lookup, Hx in Hy. injection Hy as <-.
  assert (Hi : (i < 4 * P)%nat) by (rewrite <- Hlen; eapply lookup_lt_Some; eauto).
  unfold stego_channel. destruct (isAlpha i) eqn:Ha, (i <? 4)%nat eqn:Hi4.
  - reflexivity.
  - apply Nat.ltb_ge in Hi4. pose proof (slot_index_lt_payload i P Hi4 Hi) as Hs. rewrite <- HV in Hs.
    rewrite (proj2 (Nat.ltb_lt _ _) Hs). reflexivity.
  - apply Nat.ltb_lt in Hi4. assert (i <> 3%nat) by (intros ->; discriminate).
    pose proof (header_bits_bit b i Hb ltac:(lia)) as Hh.
    rewrite Z.div_add_l, (Z.div_small (nth i _ _)), Z.add_0_r by lia. split; [reflexivity|].
    rewrite Z.add_comm, Z.mod_add, Z.mod_small by lia. reflexivity.
  - apply Nat.ltb_ge in Hi4. pose proof (slot_index_lt_payload i P Hi4 Hi) as Hs. rewrite <- HV in Hs.
    rewrite (proj2 (Nat.ltb_lt _ _) Hs). pose proof (Forall_nth_lt _ _ 0 _ Hfit Hs) as Hf.
    unfold fits in Hf. rewrite Z2Nat.id in Hf by (unfold valid_bits in Hb; lia). apply div_low_bits; lia.
Qed.

(** Every image the write path returns meets the contract on the
    channels it was given. *)
Lemma hideBlobChannels_Ok_spec (chans data : list Z) b r0 chans' r1 :
  bytes_ok chans -> (length chans mod 4 = 0)%nat -> bytes_ok data ->
  hideBlobChannels rand chans data b r0 = Ok (chans', r1) -> layout_spec b data chans chans'.
Proof.
  intros Ho Hmod Hd Hh. pose proof Hh as Hinv.
  apply hideBlobChannels_Ok_inv in Hinv as (Hb & cap & Hcap & Hfits).
  destruct (capacity_of_image chans b cap) as (P & Hlen & HP & _); auto; [lia|].
  destruct (hideBlobChannels_layout chans data b r0 P cap) as (V & r1' & Hh' & HV & Hfit & Hpre); auto.
  rewrite Hh' in Hh. injection Hh as <- _. eapply stego_layout_spec; eauto.
Qed.

(** The contract fixes the header: [revealBitsTaken] reads [b] back. *)
Lemma layout_spec_revealBitsTaken b data orig img :
  valid_bits b -> (3 <= length orig)%nat -> layout_spec b data orig img -> revealBitsTaken img = Ok b.
Proof.
  intros Hb Hlen (Hok & Hl & Hch & _). apply revealBitsTaken_header; [exact Hb|]. intros i Hi.
  destruct (lookup_lt_is_Some_2 orig i) as [x Hx]; [lia|].
  destruct (lookup_lt_is_Some_2 img i) as [y Hy]; [lia|].
  specialize (Hch i x y Hx Hy). assert (is_byte y) by (eapply Forall_lookup_1; eauto).
  assert (Ha : isAlpha i = false) by (apply not_true_iff_false; rewrite isAlpha_true; intros Hm;
    rewrite Nat.mod_small in Hm by lia; lia).
  rewrite Ha, (proj2 (Nat.ltb_lt i 4)) in Hch by lia. rewrite Hy. change (num_of (Some y)) with y.
  rewrite readBit_7 by (unfold is_byte in *; change (2 ^ 31) with 2147483648; lia). apply Hch.
Qed.

(** C35: The write path of [hideBlob] refines the codec's contract
    [layout_spec], and the contract is enough for the read path: on an
    image of whole pixels with a payload that fits, [hideBlobChannels]
    returns an image that meets the contract, and [revealBlob] returns
    the payload from every image that meets it, whichever filler the
    unused channels hold. *)
Theorem hideBlobChannels_refines (chans data : list Z) b r0 cap :
  valid_bits b -> bytes_ok chans -> (length chans mod 4 = 0)%nat -> bytes_ok data ->
  calcCapacity (length chans) b = Ok cap -> Z.of_nat (length data) <= cap_bytes cap ->
  (exists img r1, hideBlobChannels rand chans data b r0 = Ok (img, r1) /\ layout_spec b data chans img) /\
  (forall img, layout_spec b data chans img ->
     exists out, revealBlob img = Ok out /\ take (length data) out = data).
Proof.
  intros Hb Ho Hmod Hd Hcap Hfits.
  destruct (capacity_of_image chans b cap) as (P & Hlen & HP & Hbytes); auto; [lia|].
  split.
  - destruct (hideBlobChannels_layout chans data b r0 P cap) as (V & r1 & Hhide & HV & Hfit & Hpre); auto.
    eexists _, r1. split; [exact Hhide|]. eapply stego_layout_spec; eauto.
  - intros img Hs. pose proof Hs as (_ & Hl & _ & Hpre).
    destruct (revealBlob_reads img b P) as (out & Hr & Hlout & Hok & Hpre'); [lia | exact HP | |].
    { eapply layout_spec_revealBitsTaken; eauto. lia. }
    exists out. split; [exact Hr|]. apply (prefix_bytes_take data out (lsb_stream (Z.to_nat b) img)); auto. lia.
Qed.

(** C5: [hideBlob] changes only the low bits of the colour channels: every
    channel keeps its length-preserving position, channels 0..2 keep all
    but their lowest bit, every other colour channel keeps all but its
    [bitsTaken] lowest bits, and every value stays a byte. *)
Theorem hideBlob_only_low_bits (chans data : list Z) b r0 chans' r1 :
  bytes_ok chans -> (length chans mod 4 = 0)%nat -> bytes_ok data ->
  hideBlobChannels rand chans data b r0 = Ok (chans', r1) ->
  length chans' = length chans /\ bytes_ok chans' /\
  forall i x x', chans !! i = Some x -> chans' !! i = Some x' -> isAlpha i = false ->
    let w := if (i <? 3)%nat then 1 else b in x' / 2 ^ w = x / 2 ^ w.
Proof.
  intros Ho Hmod Hd Hhide.
  destruct (hideBlobChannels_Ok_layout chans data b r0 chans' r1 Ho Hmod Hd Hhide)
    as (Hb & P & V & Hlen & HP & HV & Hfit & ->).
  pose proof (pow2_le_256 b Hb) as Hp. split; [apply length_stego|]. split.
  - apply stego_bytes; auto.
  - intros i x x' Hx Hx' Ha. rewrite stego_lookup, Hx in Hx'. injection Hx' as <-.
    pose proof (lookup_lt_Some _ _ _ Hx). unfold stego_channel. rewrite Ha.
    destruct (Nat.ltb_spec i 3), (Nat.ltb_spec i 4); try lia; cbv zeta.
    + change (2 ^ 1) with 2. apply (div_low_bits x 1); [simpl; lia|]. apply header_bits_bit; auto.
    + exfalso. assert (i = 3%nat) by lia. subst. discriminate.
    + rewrite (proj2 (Nat.ltb_lt _ _)) by (rewrite HV; apply slot_index_lt_payload; lia).
      apply div_low_bits; [lia|]. pose proof (Forall_nth_lt _ _ 0 (slot_index i) Hfit ltac:(rewrite HV; apply slot_index_lt_payload; lia)) as Hf.
      unfold fits in Hf. rewrite Z2Nat.id in Hf by (unfold valid_bits in Hb; lia). exact Hf.
Qed.

(** C6: Every alpha channel of an image written by [hideBlob] holds the
    blank sentinel: the store of [256], which is 0 in a Uint8Array and 255
    in a Uint8ClampedArray (ImageData). *)
Theorem hideBlob_blanks_alpha (chans data : list Z) b r0 chans' r1 i :
  bytes_ok chans -> (length chans mod 4 = 0)%nat -> bytes_ok data ->
  hideBlobChannels rand chans data b r0 = Ok (chans', r1) ->
  (i < length chans)%nat -> isAlpha i = true -> chans' !! i = Some (ta_conv 256).
Proof.
  intros Ho Hmod Hd Hhide Hi Ha.
  destruct (hideBlobChannels_Ok_layout chans data b r0 chans' r1 Ho Hmod Hd Hhide)
    as (Hb & P & V & Hlen & HP & HV & Hfit & ->).
  destruct (lookup_lt_is_Some_2 chans i Hi) as [x Hx].
  rewrite stego_lookup, Hx. simpl. f_equal. unfold stego_channel. rewrite Ha.
  destruct (i <? 4)%nat eqn:Hi4; [reflexivity|]. apply Nat.ltb_ge in Hi4.
  rewrite (proj2 (Nat.ltb_lt _ _)); [reflexivity|]. rewrite HV. apply slot_index_lt_payload; lia.
Qed.

(** C10: The only errors [hideBlob]'s write path raises on a well-formed
    image are the input checks: the internal-consistency errors (more than
    7 random bits needed, [bufBits !== bitsTaken], the final cursor
    mismatch) never fire. *)
Theorem hideBlob_fatal_errors_unreachable (chans data : list Z) b r0 e :
  bytes_ok chans -> (length chans mod 4 = 0)%nat -> bytes_ok data ->
  hideBlobChannels rand chans data b r0 = Err e -> e = BitsOutOfRange \/ e = CapacityExceeded.
Proof.
  intros Ho Hmod Hd Herr. destruct (validateBits b) as [[]|e'] eqn:Hv.
  2: { unfold hideBlobChannels in Herr. rewrite Hv in Herr. injection Herr as <-.
       left. apply (validateBits_Err b e' Hv). }
  pose proof (validateBits_Ok_inv b Hv) as Hb.
  set (cap := mkCapacity (capacity_bits (length chans) b) ((Z.of_nat (length chans) - 4) * 3 * b / 32)).
  destruct (Z.le_gt_cases (Z.of_nat (length data)) (cap_bytes cap)) as [Hle|Hgt].
  - destruct (hideBlobChannels_layout chans data b r0 (length chans / 4) cap)
      as (V & r1 & Hhide & _); auto; [arith | apply calcCapacity_ok, Hb |].
    rewrite Hhide in Herr. discriminate.
  - right. unfold hideBlobChannels in Herr. rewrite Hv, calcCapacity_ok in Herr by exact Hb.
    cbn [mbind res_bind] in Herr. fold cap in Herr.
    destruct (Z.gtb_spec (Z.of_nat (length data)) (cap_bytes cap)); [|lia].
    injection Herr as <-. reflexivity.
Qed.

(** C12: [hideBlob] rejects its inputs before writing anything: a
    [bitsTaken] outside 1..8 raises [BitsOutOfRange], and a payload
    longer than the capacity raises the capacity error. *)
Theorem hideBlob_rejects_inputs (chans data : list Z) b r0 :
  (~ valid_bits b -> hideBlobChannels rand chans data b r0 = Err BitsOutOfRange) /\
  (forall cap, calcCapacity (length chans) b = Ok cap -> cap_bytes cap < Z.of_nat (length data) ->
     hideBlobChannels rand chans data b r0 = Err CapacityExceeded).
Proof.
  split.
  - intros Hb. unfold hideBlobChannels. rewrite validateBits_invalid by exact Hb. reflexivity.
  - intros cap Hcap Hlt. unfold hideBlobChannels. pose proof Hcap as Hcap'.
    unfold calcCapacity in Hcap'. destruct (validateBits b) as [[]|e] eqn:Hv; [|discriminate].
    cbn [mbind res_bind]. rewrite Hcap. cbn [mbind res_bind].
    destruct (Z.gtb_spec (Z.of_nat (length data)) (cap_bytes cap)); [reflexivity|lia].
Qed.

(** C7: The header written by [hideBlob] reads back as the [bitsTaken]
    it was written with. *)
Theorem revealBitsTaken_hideBlob (chans data : list Z) b r0 chans' r1 :
  bytes_ok chans -> (length chans mod 4 = 0)%nat -> bytes_ok data ->
  hideBlobChannels rand chans data b r0 = Ok (chans', r1) -> revealBitsTaken chans' = Ok b.
Proof.
  intros Ho Hmod Hd Hhide.
  destruct (hideBlobChannels_Ok_layout chans data b r0 chans' r1 Ho Hmod Hd Hhide)
    as (Hb & P & V & Hlen & HP & HV & Hfit & ->).
  apply revealBitsTaken_stego; auto. lia.
Qed.

End Roundtrip.

Lemma readBit_7_01 v : readBit v 7 = 0 \/ readBit v 7 = 1.
Proof.
  unfold readBit. pose proof (js_and_mask (v .>>. (7 - 7)) 1 ltac:(lia)) as E.
  change (2 ^ 1 - 1) with 1 in E. change (2 ^ 1) with 2 in E. rewrite E.
  pose proof (Z.mod_pos_bound (v .>>. (7 - 7)) 2 ltac:(reflexivity)). lia.
Qed.

(** The eight cases of the three header bits. *)
Ltac header_cases chans :=
  destruct (readBit_7_01 (num_of (chans !! 0%nat))) as [-> | ->];
  destruct (readBit_7_01 (num_of (chans !! 1%nat))) as [-> | ->];
  destruct (readBit_7_01 (num_of (chans !! 2%nat))) as [-> | ->].

Lemma revealBitsTaken_valid (chans : list Z) : exists b, revealBitsTaken chans = Ok b /\ valid_bits b.
Proof.
  unfold revealBitsTaken. header_cases chans;
    (eexists; split; [reflexivity | unfold valid_bits; vm_compute; split; congruence]).
Qed.

(** C9: [revealBlob] computes the reference decoder on every channel
    buffer of whole pixels, whatever its contents: its loop, with the
    alpha skip, the bit accumulator and the read past the end, returns
    exactly the first [bytes] bytes of the stream of the [bitsTaken] low
    bits of the colour channels after the first pixel; on an empty buffer
    both throw the RangeError of the negative capacity. *)
Theorem revealBlob_ref (chans : list Z) :
  (length chans mod 4 = 0)%nat -> revealBlob chans = reveal_ref chans.
Proof.
  intros Hmod. destruct (revealBitsTaken_valid chans) as (b & Hrb & Hb).
  destruct (decide (length chans = 0%nat)) as [H0|H0].
  - unfold revealBlob, reveal_ref, newUint8Array. rewrite Hrb. cbn [mbind res_bind].
    rewrite calcCapacity_ok by exact Hb. cbn [mbind res_bind cap_bytes]. rewrite H0.
    assert ((Z.of_nat 0 - 4) * 3 * b / 32 < 0) by (apply Z.div_lt_upper_bound; unfold valid_bits in Hb; lia).
    destruct (Z.ltb_spec ((Z.of_nat 0 - 4) * 3 * b / 32) 0); [reflexivity | lia].
  - set (P := (length chans / 4)%nat). assert (Hlen : length chans = (4 * P)%nat) by (unfold P; arith).
    destruct (revealBlob_reads chans b P) as (out & Hr & Hl & Hok & [r Hpre]); [exact Hlen | unfold P; arith | exact Hrb |].
    rewrite Hr. unfold reveal_ref. rewrite Hrb. cbn [mbind res_bind].
    rewrite calcCapacity_ok by exact Hb. cbn [mbind res_bind cap_bytes].
    rewrite Hlen, capacity_slots by (auto; unfold P; arith).
    destruct (Z.ltb_spec (Z.of_nat (payload_slots (4 * P)) * b / 8) 0); [lia|].
    rewrite <- Hl, Nat2Z.id, Hpre, bytes_of_bits_app by exact Hok. reflexivity.
Qed.

(** C16: [revealBitsTaken] never throws: whatever the buffer, the three
    header bits decode to a value in 1..8, so its [validateBits] check is
    unreachable and cannot tell a buffer this codec wrote from any other. *)
Theorem revealBitsTaken_total (chans : list Z) :
  let lsb i := readBit (num_of (chans !! i)) 7 in
  revealBitsTaken chans = Ok (1 + 4 * lsb 0%nat + 2 * lsb 1%nat + lsb 2%nat) /\
  1 <= 1 + 4 * lsb 0%nat + 2 * lsb 1%nat + lsb 2%nat <= 8.
Proof.
  cbv zeta. unfold revealBitsTaken. header_cases chans; (split; [reflexivity | lia]).
Qed.

(** C17: The header read depends only on channels 0..2: changing any other
    channel does not change the recovered [bitsTaken]. *)
Theorem revealBitsTaken_header_only (chans chans' : list Z) :
  (forall i, (i < 3)%nat -> chans !! i = chans' !! i) -> revealBitsTaken chans = revealBitsTaken chans'.
Proof. intros H. unfold revealBitsTaken. rewrite !H by lia. reflexivity. Qed.

(** C25: [revealBlob] on a buffer shorter than one pixel throws the
    RangeError of [new Uint8Array(bytes)]: the capacity it computes is
    negative, and no codec error reports the malformed input. *)
Theorem revealBlob_small_image (chans : list Z) :
  (length chans < 4)%nat -> revealBlob chans = Err ArrayLengthRange.
Proof.
  intros Hlen. unfold revealBlob. destruct (revealBitsTaken_valid chans) as (b & -> & Hb).
  cbn [mbind res_bind]. rewrite calcCapacity_ok by exact Hb. cbn [mbind res_bind cap_bytes].
  unfold newUint8Array. unfold valid_bits in Hb.
  assert ((Z.of_nat (length chans) - 4) * 3 * b / 32 < 0).
  { apply Z.div_lt_upper_bound; [lia|]. nia. }
  destruct (Z.ltb_spec ((Z.of_nat (length chans) - 4) * 3 * b / 32) 0); [reflexivity|lia].
Qed.

(** ** Witnesses: the theorems above at a 4-pixel image, [bitsTaken = 1],
    the one-byte payload [0xAA] and a random source that always returns 0. *)

Lemma rand0_byte n : is_byte (rand0 n).
Proof. unfold is_byte, rand0. lia. Qed.

Lemma revealBlob_hideBlob_witness :
  exists chans' r1 out,
    hideBlobChannels (CA := Uint8Array) rand0 img16 [170] 1 0 = Ok (chans', r1) /\
    revealBlob chans' = Ok out /\ Z.of_nat (length out) = 1 /\ take 1 out = [170].
Proof.
  apply (revealBlob_hideBlob (CA := Uint8Array) rand0 rand0_byte img16 [170] 1 0 (mkCapacity (capacity_bits 16 1) 1));
    [unfold valid_bits; lia | bytes_ok_by_eval | reflexivity
    | bytes_ok_by_eval | reflexivity | simpl; lia].
Defined.

Lemma hideBlobChannels_refines_witness :
  (exists img r1, hideBlobChannels (CA := Uint8Array) rand0 img16 [170] 1 0 = Ok (img, r1) /\
     layout_spec (CA := Uint8Array) 1 [170] img16 img) /\
  (forall img, layout_spec (CA := Uint8Array) 1 [170] img16 img ->
     exists out, revealBlob img = Ok out /\ take 1 out = [170]).
Proof.
  apply (hideBlobChannels_refines (CA := Uint8Array) rand0 rand0_byte img16 [170] 1 0 (mkCapacity (capacity_bits 16 1) 1));
    [unfold valid_bits; lia | bytes_ok_by_eval | reflexivity
    | bytes_ok_by_eval | reflexivity | simpl; lia].
Defined.

Lemma hideBlob_only_low_bits_witness :
  length img16_hidden = length img16 /\ bytes_ok img16_hidden /\
  forall i x x', img16 !! i = Some x -> img16_hidden !! i = Some x' -> isAlpha i = false ->
    let w := if (i <? 3)%nat then 1 else 1 in x' / 2 ^ w = x / 2 ^ w.
Proof.
  apply (hideBlob_only_low_bits (CA := Uint8Array) rand0 rand0_byte img16 [170] 1 0 img16_hidden 1);
    [bytes_ok_by_eval | reflexivity | bytes_ok_by_eval | vm_compute; reflexivity].
Defined.

Lemma hideBlob_blanks_alpha_witness : img16_hidden !! 7%nat = Some (@ta_conv Uint8Array 256).
Proof.
  apply (hideBlob_blanks_alpha (CA := Uint8Array) rand0 rand0_byte img16 [170] 1 0 img16_hidden 1 7);
    [bytes_ok_by_eval | reflexivity | bytes_ok_by_eval | vm_compute; reflexivity | simpl; lia | reflexivity].
Defined.

Lemma hideBlob_fatal_errors_unreachable_witness :
  BitsOutOfRange = BitsOutOfRange \/ BitsOutOfRange = CapacityExceeded.
Proof.
  apply (hideBlob_fatal_errors_unreachable (CA := Uint8Array) rand0 rand0_byte img16 [170] 9 0);
    [bytes_ok_by_eval | reflexivity | bytes_ok_by_eval | vm_compute; reflexivity].
Defined.

Lemma hideBlob_rejects_inputs_witness :
  hideBlobChannels (CA := Uint8Array) rand0 img16 [170] 9 0 = Err BitsOutOfRange /\
  hideBlobChannels (CA := Uint8Array) rand0 img16 [170; 85] 1 0 = Err CapacityExceeded.
Proof.
  split.
  - apply (proj1 (hideBlob_rejects_inputs (CA := Uint8Array) rand0 img16 [170] 9 0)).
    unfold valid_bits. lia.
  - apply (proj2 (hideBlob_rejects_inputs (CA := Uint8Array) rand0 img16 [170; 85] 1 0) (mkCapacity (capacity_bits 16 1) 1));
      [reflexivity | simpl; lia].
Defined.

Lemma revealBitsTaken_hideBlob_witness : revealBitsTaken img16_hidden = Ok 1.
Proof.
  apply (revealBitsTaken_hideBlob (CA := Uint8Array) rand0 rand0_byte img16 [170] 1 0 img16_hidden 1);
    [bytes_ok_by_eval | reflexivity | bytes_ok_by_eval | vm_compute; reflexivity].
Defined.

Lemma revealBitsTaken_header_only_witness :
  revealBitsTaken img16_hidden = revealBitsTaken (<[5%nat := 255]> img16_hidden).
Proof.
  apply revealBitsTaken_header_only. intros i Hi.
  destruct i as [|[|[|i]]]; [reflexivity | reflexivity | reflexivity | lia].
Defined.


Lemma revealBlob_ref_witness : revealBlob img16_hidden = reveal_ref img16_hidden.
Proof. apply revealBlob_ref. reflexivity. Defined.

Lemma revealBlob_small_image_witness : revealBlob [255; 255; 255] = Err ArrayLengthRange.
Proof. apply revealBlob_small_image. simpl. lia. Defined.
