(* ===== verification/TextCodec.v ===== *)
(** * TextCodec: [utils.utf8ToBytes] and [utils.bytesToUtf8]

    src/index.ts lines 412-418 call the platform's [TextEncoder.encode]
    and [TextDecoder.decode] (default UTF-8 decoder: replacement on
    errors, leading byte order mark skipped).  The packer relies on them
    through the class [TextCodec]; the Module [Whatwg] models the two
    algorithms of the Encoding Standard on strings of UTF-16 code units
    and is an instance of the class. *)

From stdpp Require Import base list.
From Stdlib Require Import ZArith Lia.
From S2P Require Import Prelude.

Open Scope Z_scope.

(** A JavaScript string: UTF-16 code units, each in 0..0xFFFF. *)
Definition units_ok (s : list Z) : Prop := Forall (fun c => 0 <= c < 65536) s.

(** ** What the packer needs of the text codec *)

Class TextCodec := {
  utf8ToBytes : list Z -> list Z;
  bytesToUtf8 : list Z -> list Z;
  (** the strings that survive an encode/decode round trip *)
  text_roundtrips : list Z -> Prop;
  utf8ToBytes_bytes : forall s, units_ok s -> bytes_ok (utf8ToBytes s);
  utf8ToBytes_nil : forall s, utf8ToBytes s = [] <-> s = [];
  bytesToUtf8_utf8ToBytes : forall s, text_roundtrips s -> bytesToUtf8 (utf8ToBytes s) = s;
}.

Module Whatwg.

Definition is_lead (c : Z) : bool := (55296 <=? c) && (c <=? 56319).    (* 0xD800..0xDBFF *)
Definition is_trail (c : Z) : bool := (56320 <=? c) && (c <=? 57343).   (* 0xDC00..0xDFFF *)

(** The code points of a string, lone surrogates replaced by U+FFFD
    ("convert to a scalar value string" of the Infra standard). *)
Fixpoint code_points (s : list Z) : list Z :=
  match s with
  | [] => []
  | c :: rest =>
      if is_lead c then
        match rest with
        | d :: rest' =>
            if is_trail d then (65536 + (c - 55296) * 1024 + (d - 56320)) :: code_points rest'
            else 65533 :: code_points rest
        | [] => [65533]
        end
      else if is_trail c then 65533 :: code_points rest
      else c :: code_points rest
  end.

(** The UTF-8 encoder's handler for one code point. *)
Definition encode_point (cp : Z) : list Z :=
  if cp <? 128 then [cp]
  else
    let '(count, offset) :=
      if cp <? 2048 then (1, 192) else if cp <? 65536 then (2, 224) else (3, 240) in
    (Z.shiftr cp (6 * count) + offset)
      :: map (fun k => Z.lor 128 (Z.land (Z.shiftr cp (6 * Z.of_nat k)) 63))
           (rev (seq 0 (Z.to_nat count))).

(** [new TextEncoder().encode(str)] *)
Definition encode (s : list Z) : list Z := concat (map encode_point (code_points s)).

(** The state of the UTF-8 decoder. *)
Record DecState := mkDec { needed : Z; seen : Z; point : Z; lower : Z; upper : Z }.

Definition dec_init : DecState := mkDec 0 0 0 128 191.

(** The decoder's handler on a byte when no continuation byte is
    expected: the items it emits and the next state. *)
Definition dec_start (b : Z) : list Z * DecState :=
  if (0 <=? b) && (b <=? 127) then ([b], dec_init)
  else if (194 <=? b) && (b <=? 223) then ([], mkDec 1 0 (Z.land b 31) 128 191)
  else if (224 <=? b) && (b <=? 239) then
    ([], mkDec 2 0 (Z.land b 15) (if b =? 224 then 160 else 128) (if b =? 237 then 159 else 191))
  else if (240 <=? b) && (b <=? 244) then
    ([], mkDec 3 0 (Z.land b 7) (if b =? 240 then 144 else 128) (if b =? 244 then 143 else 191))
  else ([65533], dec_init).

(** The decoder run over a byte queue.  A byte outside the expected
    continuation range resets the state, emits U+FFFD and is processed
    again; an unfinished sequence at the end emits U+FFFD. *)
Fixpoint decode_points (st : DecState) (bs : list Z) : list Z :=
  match bs with
  | [] => if needed st =? 0 then [] else [65533]
  | b :: bs' =>
      if needed st =? 0 then
        let '(o, st') := dec_start b in o ++ decode_points st' bs'
      else if negb ((lower st <=? b) && (b <=? upper st)) then
        let '(o, st') := dec_start b in 65533 :: o ++ decode_points st' bs'
      else
        let p := Z.lor (Z.shiftl (point st) 6) (Z.land b 63) in
        let s := seen st + 1 in
        if s =? needed st then p :: decode_points dec_init bs'
        else decode_points (mkDec (needed st) s p 128 191) bs'
  end.

(** A code point as UTF-16 code units. *)
Definition to_units (cp : Z) : list Z :=
  if cp <? 65536 then [cp] else [55296 + (cp - 65536) / 1024; 56320 + (cp - 65536) mod 1024].

(** [new TextDecoder().decode(bytes)]: the first item is dropped when it
    is U+FEFF (the byte order mark). *)
Definition decode (bs : list Z) : list Z :=
  let cps := decode_points dec_init bs in
  let cps := match cps with c :: r => if c =? 65279 then r else cps | [] => [] end in
  concat (map to_units cps).

(** Well-formed UTF-16: every lead surrogate is followed by a trail. *)
Fixpoint wf_utf16 (s : list Z) : bool :=
  match s with
  | [] => true
  | c :: rest =>
      (0 <=? c) && (c <=? 65535) &&
      (if is_lead c then
         match rest with d :: rest' => is_trail d && wf_utf16 rest' | [] => false end
       else negb (is_trail c) && wf_utf16 rest)
  end.

Definition roundtrips (s : list Z) : Prop := wf_utf16 s = true /\ head s <> Some 65279.

(** Unicode scalar values. *)
Definition scalar (cp : Z) : Prop := 0 <= cp <= 1114111 /\ ~ (55296 <= cp <= 57343).

(** ** Arithmetic of the encoder and decoder *)

Lemma land_31 x : Z.land x 31 = x mod 32.
Proof. apply (land_mask x 5). lia. Qed.
Lemma land_15 x : Z.land x 15 = x mod 16.
Proof. apply (land_mask x 4). lia. Qed.
Lemma land_7 x : Z.land x 7 = x mod 8.
Proof. apply (land_mask x 3). lia. Qed.
Lemma land_63 x : Z.land x 63 = x mod 64.
Proof. apply (land_mask x 6). lia. Qed.

Lemma lor_128 r : 0 <= r < 64 -> Z.lor 128 r = 128 + r.
Proof. intros Hr. apply (lor_low 2 6 r); [lia | exact Hr]. Qed.

Lemma lor_shift6 p r : 0 <= r < 64 -> Z.lor (Z.shiftl p 6) r = p * 64 + r.
Proof. intros Hr. rewrite Z.shiftl_mul_pow2 by lia. apply (lor_low p 6 r); [lia | exact Hr]. Qed.

Lemma shiftr_div cp n : 0 <= n -> Z.shiftr cp n = cp / 2 ^ n.
Proof. apply Z.shiftr_div_pow2. Qed.

(** Decides the comparisons of the goal whose outcome the context fixes. *)
Ltac zbool :=
  repeat match goal with
  | |- context [?a <=? ?b] =>
      first [rewrite (proj2 (Z.leb_le a b)) by arith | rewrite (proj2 (Z.leb_gt a b)) by arith]
  | |- context [?a <? ?b] =>
      first [rewrite (proj2 (Z.ltb_lt a b)) by arith | rewrite (proj2 (Z.ltb_ge a b)) by arith]
  | |- context [?a =? ?b] =>
      first [rewrite (proj2 (Z.eqb_eq a b)) by arith | rewrite (proj2 (Z.eqb_neq a b)) by arith]
  end; cbn [andb orb negb].

(** Rewrites the bit operations of the codec into arithmetic. *)
Ltac bits_arith :=
  rewrite ?land_31, ?land_15, ?land_7, ?land_63;
  repeat (rewrite lor_shift6 by arith);
  repeat (rewrite lor_128 by arith).

(** ** The encoder, byte by byte *)

Lemma encode_point_1 cp : 0 <= cp < 128 -> encode_point cp = [cp].
Proof. intros H. unfold encode_point. zbool. reflexivity. Qed.

Lemma encode_point_2 cp : 128 <= cp < 2048 ->
  encode_point cp = [192 + cp / 64; 128 + cp mod 64].
Proof.
  intros H. unfold encode_point. zbool.
  change (rev (seq 0 (Z.to_nat 1))) with [0%nat]. cbn [map Z.of_nat Z.mul].
  rewrite Z.shiftr_0_r, shiftr_div by lia. change (2 ^ 6) with 64. bits_arith. f_equal. lia.
Qed.

Lemma encode_point_3 cp : 2048 <= cp < 65536 ->
  encode_point cp = [224 + cp / 4096; 128 + cp / 64 mod 64; 128 + cp mod 64].
Proof.
  intros H. unfold encode_point. zbool.
  change (rev (seq 0 (Z.to_nat 2))) with [1%nat; 0%nat]. cbn [map Z.of_nat Z.mul].
  rewrite Z.shiftr_0_r, !shiftr_div by lia.
  change (2 ^ 6) with 64. change (2 ^ 12) with 4096. bits_arith. f_equal. lia.
Qed.

Lemma encode_point_4 cp : 65536 <= cp ->
  encode_point cp = [240 + cp / 262144; 128 + cp / 4096 mod 64; 128 + cp / 64 mod 64; 128 + cp mod 64].
Proof.
  intros H. unfold encode_point. zbool.
  change (rev (seq 0 (Z.to_nat 3))) with [2%nat; 1%nat; 0%nat]. cbn [map Z.of_nat Z.mul].
  rewrite Z.shiftr_0_r, !shiftr_div by lia.
  change (2 ^ 6) with 64. change (2 ^ 12) with 4096. change (2 ^ 18) with 262144. bits_arith. f_equal. lia.
Qed.

(** ** The decoder reads each encoded code point back *)

Ltac dec_step :=
  cbn [app decode_points needed seen point lower upper dec_init];
  unfold dec_start; zbool; cbn [app decode_points needed seen point lower upper dec_init Z.add].

Ltac dec_cont :=
  zbool; cbn [app decode_points needed seen point lower upper dec_init Z.add]; zbool.

Lemma decode_point_1 cp rest : 0 <= cp < 128 ->
  decode_points dec_init (encode_point cp ++ rest) = cp :: decode_points dec_init rest.
Proof. intros H. rewrite encode_point_1 by lia. dec_step. reflexivity. Qed.

Lemma decode_seq2 b0 b1 rest : 194 <= b0 <= 223 -> 128 <= b1 <= 191 ->
  decode_points dec_init (b0 :: b1 :: rest) = (b0 mod 32 * 64 + b1 mod 64) :: decode_points dec_init rest.
Proof. intros H0 H1. dec_step. zbool. bits_arith. reflexivity. Qed.

Lemma decode_seq3 b0 b1 b2 rest : 224 <= b0 <= 239 -> 128 <= b1 <= 191 -> 128 <= b2 <= 191 ->
  (b0 = 224 -> 160 <= b1) -> (b0 = 237 -> b1 <= 159) ->
  decode_points dec_init (b0 :: b1 :: b2 :: rest) =
    ((b0 mod 16 * 64 + b1 mod 64) * 64 + b2 mod 64) :: decode_points dec_init rest.
Proof.
  intros H0 H1 H2 Hlo Hhi.
  destruct (Z.eqb_spec b0 224), (Z.eqb_spec b0 237); try lia; dec_step; dec_cont; bits_arith; reflexivity.
Qed.

Lemma decode_seq4 b0 b1 b2 b3 rest : 240 <= b0 <= 244 -> 128 <= b1 <= 191 -> 128 <= b2 <= 191 ->
  128 <= b3 <= 191 -> (b0 = 240 -> 144 <= b1) -> (b0 = 244 -> b1 <= 143) ->
  decode_points dec_init (b0 :: b1 :: b2 :: b3 :: rest) =
    (((b0 mod 8 * 64 + b1 mod 64) * 64 + b2 mod 64) * 64 + b3 mod 64) :: decode_points dec_init rest.
Proof.
  intros H0 H1 H2 H3 Hlo Hhi.
  destruct (Z.eqb_spec b0 240), (Z.eqb_spec b0 244); try lia; dec_step; dec_cont; dec_cont; bits_arith; reflexivity.
Qed.

Lemma decode_point_2 cp rest : 128 <= cp < 2048 ->
  decode_points dec_init (encode_point cp ++ rest) = cp :: decode_points dec_init rest.
Proof. intros H. rewrite encode_point_2 by lia. cbn [app]. rewrite decode_seq2 by arith. f_equal. arith. Qed.

Lemma decode_point_3 cp rest : 2048 <= cp < 65536 -> ~ (55296 <= cp <= 57343) ->
  decode_points dec_init (encode_point cp ++ rest) = cp :: decode_points dec_init rest.
Proof.
  intros H Hs. rewrite encode_point_3 by lia. cbn [app]. rewrite decode_seq3 by arith. f_equal. arith.
Qed.

Lemma decode_point_4 cp rest : 65536 <= cp <= 1114111 ->
  decode_points dec_init (encode_point cp ++ rest) = cp :: decode_points dec_init rest.
Proof.
  intros H. rewrite encode_point_4 by lia. cbn [app]. rewrite decode_seq4 by arith. f_equal. arith.
Qed.

Lemma decode_point cp rest : scalar cp ->
  decode_points dec_init (encode_point cp ++ rest) = cp :: decode_points dec_init rest.
Proof.
  intros [H1 H2].
  destruct (Z.lt_ge_cases cp 128); [apply decode_point_1; lia|].
  destruct (Z.lt_ge_cases cp 2048); [apply decode_point_2; lia|].
  destruct (Z.lt_ge_cases cp 65536); [apply decode_point_3; lia | apply decode_point_4; lia].
Qed.

Lemma decode_points_encode cps : Forall scalar cps ->
  decode_points dec_init (concat (map encode_point cps)) = cps.
Proof.
  induction 1 as [|cp cps Hcp _ IH]; [reflexivity|].
  cbn [map concat]. rewrite decode_point by exact Hcp. f_equal. exact IH.
Qed.

Lemma encode_point_bytes cp : scalar cp -> bytes_ok (encode_point cp).
Proof.
  intros [H1 H2]. unfold bytes_ok.
  destruct (Z.lt_ge_cases cp 128); [rewrite encode_point_1 by lia|].
  2: destruct (Z.lt_ge_cases cp 2048); [rewrite encode_point_2 by lia|].
  3: destruct (Z.lt_ge_cases cp 65536); [rewrite encode_point_3 by lia | rewrite encode_point_4 by lia].
  all: repeat apply Forall_cons_2; try apply Forall_nil_2; unfold is_byte; arith.
Qed.

Lemma encode_point_nil cp : encode_point cp <> [].
Proof. unfold encode_point. destruct (cp <? 128); [discriminate|]. destruct (_ : Z * Z). discriminate. Qed.

(** Induction along a list two elements at a time, as [code_points]
    recurses. *)
Lemma list_ind2 {A} (P : list A -> Prop) :
  P [] -> (forall x, P [x]) -> (forall x y l, P l -> P (y :: l) -> P (x :: y :: l)) -> forall l, P l.
Proof.
  intros H0 H1 H2 l. cut (P l /\ forall x, P (x :: l)); [tauto|].
  induction l as [|y l [IH1 IH2]]; [split; auto|]. split; auto.
Qed.

Lemma code_points_cons2 x y l :
  code_points (x :: y :: l) =
    if is_lead x then
      (if is_trail y then (65536 + (x - 55296) * 1024 + (y - 56320)) :: code_points l
       else 65533 :: code_points (y :: l))
    else (if is_trail x then 65533 else x) :: code_points (y :: l).
Proof. cbn [code_points]. destruct (is_lead x), (is_trail y), (is_trail x); reflexivity. Qed.

Lemma code_points_one x : code_points [x] = [if is_lead x || is_trail x then 65533 else x].
Proof. cbn. destruct (is_lead x), (is_trail x); reflexivity. Qed.

Lemma code_points_scalar s : units_ok s -> Forall scalar (code_points s).
Proof.
  unfold units_ok, scalar. induction s as [|x|x y l IH1 IH2] using list_ind2; intros Hs; [constructor| |].
  - apply Forall_cons in Hs as [Hx _]. rewrite code_points_one. unfold is_lead, is_trail.
    repeat constructor; destruct (Z.leb_spec 55296 x), (Z.leb_spec x 56319), (Z.leb_spec 56320 x),
      (Z.leb_spec x 57343); cbn [andb orb]; lia.
  - apply Forall_cons in Hs as [Hx Hs]. pose proof Hs as Hs'. apply Forall_cons in Hs' as [Hy Hl].
    rewrite code_points_cons2. unfold is_lead, is_trail.
    destruct (Z.leb_spec 55296 x), (Z.leb_spec x 56319), (Z.leb_spec 56320 y), (Z.leb_spec y 57343),
      (Z.leb_spec 56320 x), (Z.leb_spec x 57343); cbn [andb negb];
      (constructor; [split; lia | auto]).
Qed.

Lemma wf_units s : wf_utf16 s = true -> units_ok s.
Proof.
  unfold units_ok. induction s as [|x|x y l IH1 IH2] using list_ind2; intros Hw; [constructor| |].
  - cbn [wf_utf16] in Hw. apply andb_prop in Hw as [Hr _]. apply andb_prop in Hr as [H1 H2].
    apply Z.leb_le in H1, H2. repeat constructor; lia.
  - pose proof Hw as Hw'. cbn [wf_utf16] in Hw'. apply andb_prop in Hw' as [Hr Hw'].
    apply andb_prop in Hr as [H1 H2]. apply Z.leb_le in H1, H2. constructor; [lia|].
    destruct (is_lead x).
    + apply andb_prop in Hw' as [Ht Hl]. specialize (IH1 Hl). unfold is_trail in Ht.
      apply andb_prop in Ht as [H3 H4]. apply Z.leb_le in H3, H4. constructor; [lia | exact IH1].
    + apply andb_prop in Hw' as [_ Hl]. auto.
Qed.

Lemma to_units_code_points s : wf_utf16 s = true -> concat (map to_units (code_points s)) = s.
Proof.
  induction s as [|x|x y l IH1 IH2] using list_ind2; intros Hw; [reflexivity| |].
  - cbn [wf_utf16] in Hw. rewrite code_points_one. unfold is_lead, is_trail, to_units in *.
    destruct (Z.leb_spec 0 x), (Z.leb_spec x 65535), (Z.leb_spec 55296 x), (Z.leb_spec x 56319),
      (Z.leb_spec 56320 x), (Z.leb_spec x 57343); cbn [andb orb negb] in *; try discriminate;
      cbn [map concat app]; zbool; reflexivity.
  - pose proof Hw as Hw'. cbn [wf_utf16] in Hw'. rewrite code_points_cons2.
    apply andb_prop in Hw' as [Hr Hw']. apply andb_prop in Hr as [H1 H2]. apply Z.leb_le in H1, H2.
    destruct (is_lead x) eqn:Hlx.
    + apply andb_prop in Hw' as [Hty Hl]. rewrite Hty. cbn [map concat]. rewrite (IH1 Hl).
      unfold is_lead, is_trail, to_units in *. apply andb_prop in Hlx as [H3 H4], Hty as [H5 H6].
      apply Z.leb_le in H3, H4, H5, H6. zbool. cbn [app]. f_equal; [arith | f_equal; arith].
    + apply andb_prop in Hw' as [Htx Hl]. destruct (is_trail x); [discriminate|].
      cbn [map concat]. rewrite (IH2 Hl). unfold to_units. zbool. reflexivity.
Qed.

Lemma code_points_head s c r :
  wf_utf16 s = true -> head s <> Some 65279 -> code_points s = c :: r -> c <> 65279.
Proof.
  intros Hw Hh Hc. destruct s as [|x [|y l]]; [discriminate| |].
  - rewrite code_points_one in Hc. injection Hc as <- _. cbn in Hh.
    destruct (is_lead x || is_trail x); [lia | congruence].
  - rewrite code_points_cons2 in Hc. cbn in Hh. destruct (is_lead x) eqn:Hl.
    + destruct (is_trail y) eqn:Ht; injection Hc as <- _; [|lia].
      unfold is_lead, is_trail in Hl, Ht. apply andb_prop in Hl as [H1 _], Ht as [H2 _].
      apply Z.leb_le in H1, H2. lia.
    + injection Hc as <- _. destruct (is_trail x); [lia | congruence].
Qed.

Lemma code_points_nil s : code_points s = [] -> s = [].
Proof.
  destruct s as [|x [|y l]]; [auto| |]; intros H.
  - rewrite code_points_one in H. discriminate.
  - rewrite code_points_cons2 in H. destruct (is_lead x), (is_trail y); discriminate.
Qed.

Lemma encode_bytes s : units_ok s -> bytes_ok (encode s).
Proof.
  intros Hs. unfold encode, bytes_ok. apply Forall_concat, Forall_fmap.
  eapply Forall_impl; [apply code_points_scalar, Hs|]. intros cp Hcp. apply encode_point_bytes, Hcp.
Qed.

Lemma encode_nil s : encode s = [] <-> s = [].
Proof.
  split; [|intros ->; reflexivity]. unfold encode. intros H.
  destruct (code_points s) as [|c r] eqn:E; [apply code_points_nil, E|].
  cbn [map concat] in H. apply app_nil in H as [H _]. destruct (encode_point_nil c H).
Qed.

Lemma decode_encode s : roundtrips s -> decode (encode s) = s.
Proof.
  intros [Hw Hh]. unfold decode, encode.
  rewrite decode_points_encode by (apply code_points_scalar, wf_units, Hw).
  destruct (code_points s) as [|c r] eqn:E.
  - rewrite <- E. apply to_units_code_points, Hw.
  - rewrite (proj2 (Z.eqb_neq c 65279)) by (apply (code_points_head s c r); auto).
    rewrite <- E. apply to_units_code_points, Hw.
Qed.

Lemma code_points_plain x s : is_lead x = false -> is_trail x = false -> code_points (x :: s) = x :: code_points s.
Proof. intros Hl Ht. destruct s as [|y l]; [rewrite code_points_one, Hl, Ht; reflexivity|]. rewrite code_points_cons2, Hl, Ht. reflexivity. Qed.

(** The decoder drops one leading U+FEFF, whether it was text or a BOM. *)
Lemma decode_encode_bom s : wf_utf16 s = true -> decode (encode (65279 :: s)) = s.
Proof.
  intros Hw. unfold decode, encode. rewrite code_points_plain by reflexivity.
  rewrite decode_points_encode.
  - cbn [Z.eqb]. apply to_units_code_points, Hw.
  - constructor; [unfold scalar; lia | apply code_points_scalar, wf_units, Hw].
Qed.

End Whatwg.
