(* ===== verification/FilePacker.v ===== *)
(** * FilePacker: [RawFile], its packed layout and [fromPacked]

    src/index.ts lines 47-153.  A packed file is
    [name_len (1 byte) || name (UTF-8) || size (4 bytes, big endian) ||
    contents || zero padding].  The typed-array and DataView operations
    the code uses are written out with their range checks.  JavaScript
    strings are sequences of UTF-16 code units ([list Z]); the UTF-8
    conversions of [utils.utf8ToBytes]/[utils.bytesToUtf8] are the
    [TextCodec] interface of TextCodec.v. *)

From stdpp Require Import base list strings pretty.
From Stdlib Require Import ZArith Lia.
From S2P Require Import Prelude TextCodec.

Open Scope Z_scope.

(** ** Typed arrays and DataView *)

(** [a.set(src, offset)] *)
Definition typed_set (a src : list Z) (offset : nat) : res (list Z) :=
  if (offset + length src <=? length a)%nat
  then Ok (take offset a ++ src ++ drop (offset + length src) a)
  else Err TypedArraySetRange.

(** [a.subarray(begin, end)], with its clamping to the array bounds. *)
Definition subarray (a : list Z) (b e : nat) : list Z := take (e - b) (drop b a).

Definition getUint8 (a : list Z) (offset : nat) : res Z :=
  match a !! offset with Some v => Ok v | None => Err DataViewRange end.

Definition setUint8 (a : list Z) (offset : nat) (v : Z) : res (list Z) :=
  if (offset <? length a)%nat then Ok (<[offset := wrap_u8 v]> a) else Err DataViewRange.

(** Big-endian, as DataView's default. *)
Definition getUint32 (a : list Z) (offset : nat) : res Z :=
  match a !! offset, a !! S offset, a !! S (S offset), a !! S (S (S offset)) with
  | Some b0, Some b1, Some b2, Some b3 => Ok (((b0 * 256 + b1) * 256 + b2) * 256 + b3)
  | _, _, _, _ => Err DataViewRange
  end.

Definition be32 (v : Z) : list Z :=
  let u := toUint32 v in [u / 2 ^ 24 mod 256; u / 2 ^ 16 mod 256; u / 2 ^ 8 mod 256; u mod 256].

Definition setUint32 (a : list Z) (offset : nat) (v : Z) : res (list Z) :=
  if (offset + 4 <=? length a)%nat
  then Ok (take offset a ++ be32 v ++ drop (offset + 4) a)
  else Err DataViewRange.

(** [new Uint8Array(n)] for a length already known to be a count. *)
Definition zeros (n : nat) : list Z := repeat 0 n.

(** ** RawFile *)

Record RawFile := mkRawFile { data : list Z; name : list Z; size : nat }.

(** The string [`file-${size}.file`] as UTF-16 code units. *)
Definition default_name (size : nat) : list Z :=
  map (fun c => Z.of_nat (Ascii.nat_of_ascii c))
    (String.list_ascii_of_string ("file-" +:+ pretty (N.of_nat size) +:+ ".file")).

(** [constructor(data, name)] *)
Definition newRawFile (data name : list Z) : RawFile :=
  let size := length data in
  let name := match name with [] => default_name size | _ => name end in
  mkRawFile data name size.

(** The platform's text codec, as TextCodec.v models it. *)
#[export] Instance whatwg_text : TextCodec := {|
  utf8ToBytes := Whatwg.encode;
  bytesToUtf8 := Whatwg.decode;
  text_roundtrips := Whatwg.roundtrips;
  utf8ToBytes_bytes := Whatwg.encode_bytes;
  utf8ToBytes_nil := Whatwg.encode_nil;
  bytesToUtf8_utf8ToBytes := Whatwg.decode_encode;
|}.

(** A RawFile as the code builds it: [size] is the byte length of the
    contents, a Uint8Array, and the name is a JavaScript string. *)
Definition raw_ok (f : RawFile) : Prop :=
  size f = length (data f) /\ bytes_ok (data f) /\ units_ok (name f).

(** The file of the witnesses: two bytes named "a". *)
Definition file_a : RawFile := newRawFile [104; 105] [97].

Section Packer.
Context `{TC : TextCodec}.

Definition createHeader (f : RawFile) : res (list Z) :=
  let nbytes := utf8ToBytes (name f) in
  let nsize := length nbytes in
  if (nsize <? 1)%nat || (255 <? nsize)%nat then Err NameLengthInvalid
  else
    let metadataSize := (1 + nsize + 4)%nat in
    let meta := zeros metadataSize in
    let offset := 0%nat in
    setUint8 meta offset (Z.of_nat nsize) ≫= fun meta =>
    let offset := (offset + 1)%nat in
    typed_set meta nbytes offset ≫= fun meta =>
    let offset := (offset + nsize)%nat in
    setUint32 meta offset (Z.of_nat (size f)).

Definition pack (f : RawFile) : res (list Z) :=
  createHeader f ≫= fun header =>
  let packed := zeros (length header + size f) in
  typed_set packed header 0 ≫= fun packed =>
  typed_set packed (data f) (length header).

Definition packWithPadding (f : RawFile) (requiredLength : Z) : res (list Z) :=
  pack f ≫= fun packed =>
  let difference := requiredLength - Z.of_nat (length packed) in
  if difference <? 0 then Err RequiredLengthTooSmall
  else
    let padded := zeros (length packed + Z.to_nat difference) in
    typed_set padded packed 0.

Definition fromPacked (packed : list Z) : res RawFile :=
  let padded := packed in
  let offset := 0%nat in
  getUint8 padded offset ≫= fun nsize =>
  let offset := (offset + 1)%nat in
  if nsize <? 1 then Err NameEmpty
  else
    let name := bytesToUtf8 (subarray padded offset (offset + Z.to_nat nsize)) in
    let offset := (offset + Z.to_nat nsize)%nat in
    getUint32 padded offset ≫= fun fsize =>
    let offset := (offset + 4)%nat in
    let unpadded := subarray padded offset (offset + Z.to_nat fsize) in
    Ok (newRawFile unpadded name).

End Packer.

(** ** Layout lemmas *)

Lemma typed_set_ok (a src : list Z) off :
  (off + length src <= length a)%nat ->
  typed_set a src off = Ok (take off a ++ src ++ drop (off + length src) a).
Proof. intros H. unfold typed_set. rewrite (proj2 (Nat.leb_le _ _) H). reflexivity. Qed.

Lemma typed_set_zeros (src : list Z) off extra :
  typed_set (zeros (off + length src + extra)) src off = Ok (zeros off ++ src ++ zeros extra).
Proof.
  rewrite typed_set_ok by (unfold zeros; rewrite repeat_length; lia).
  unfold zeros. rewrite !repeat_app, <- app_assoc, take_app_length' by (rewrite repeat_length; lia).
  rewrite (app_assoc (repeat 0 off) (repeat 0 (length src)) (repeat 0 extra)), drop_app_length' by (rewrite length_app, !repeat_length; lia).
  reflexivity.
Qed.

Lemma be32_length v : length (be32 v) = 4%nat.
Proof. reflexivity. Qed.

Lemma be32_decode u : 0 <= u < 2 ^ 32 ->
  ((u / 2 ^ 24 mod 256 * 256 + u / 2 ^ 16 mod 256) * 256 + u / 2 ^ 8 mod 256) * 256 + u mod 256 = u.
Proof.
  intros Hu. change (2 ^ 24) with (2 ^ 8 * 2 ^ 8 * 2 ^ 8). change (2 ^ 16) with (2 ^ 8 * 2 ^ 8).
  rewrite <- !Z.div_div by lia. change (2 ^ 8) with 256 in *.
  set (a := u / 256). set (c := a / 256). set (d := c / 256).
  assert (0 <= d < 256) by (subst a c d; rewrite !Z.div_div by lia; split; [apply Z.div_pos | apply Z.div_lt_upper_bound]; lia).
  rewrite (Z.mod_small d) by lia.
  pose proof (Z_div_mod_eq_full u 256). pose proof (Z_div_mod_eq_full a 256). pose proof (Z_div_mod_eq_full c 256).
  fold a in H0. fold c in H1. fold d in H2. lia.
Qed.

Lemma getUint32_be32 pre v post :
  getUint32 (pre ++ be32 v ++ post) (length pre) = Ok (toUint32 v).
Proof.
  unfold getUint32.
  rewrite (lookup_app_r pre _ (length pre)), (lookup_app_r pre _ (S (length pre))),
    (lookup_app_r pre _ (S (S (length pre)))), (lookup_app_r pre _ (S (S (S (length pre))))) by lia.
  replace (length pre - length pre)%nat with 0%nat by lia.
  replace (S (length pre) - length pre)%nat with 1%nat by lia.
  replace (S (S (length pre)) - length pre)%nat with 2%nat by lia.
  replace (S (S (S (length pre))) - length pre)%nat with 3%nat by lia.
  simpl. f_equal. apply be32_decode. unfold toUint32. apply Z.mod_pos_bound. lia.
Qed.

Lemma subarray_app (l r : list Z) : subarray (l ++ r) 0 (length l) = l.
Proof. unfold subarray. rewrite Nat.sub_0_r, drop_0, take_app_length. reflexivity. Qed.

Lemma subarray_skip (pre l : list Z) n : subarray (pre ++ l) (length pre) (length pre + n) = take n l.
Proof.
  unfold subarray. replace (length pre + n - length pre)%nat with n by lia.
  rewrite drop_app_length. reflexivity.
Qed.

Section PackerLemmas.
Context `{TC : TextCodec}.

(** The header is [nsize || name bytes || be32 size]. *)
Lemma createHeader_ok f :
  let nbytes := utf8ToBytes (name f) in
  (1 <= length nbytes <= 255)%nat ->
  createHeader f = Ok ([Z.of_nat (length nbytes)] ++ nbytes ++ be32 (Z.of_nat (size f))).
Proof.
  cbv zeta. intros Hn. unfold createHeader.
  rewrite (proj2 (Nat.ltb_ge _ _)), (proj2 (Nat.ltb_ge 255 _)) by lia. cbn [orb].
  set (nb := utf8ToBytes (name f)) in *. unfold setUint8.
  rewrite (proj2 (Nat.ltb_lt _ _)) by (unfold zeros; rewrite repeat_length; lia). cbn [mbind res_bind].
  unfold wrap_u8. rewrite Z.mod_small by lia.
  replace (zeros (1 + length nb + 4)) with (0 :: zeros (length nb + 4)) by reflexivity.
  cbn [insert list_insert]. replace (0 + 1)%nat with 1%nat by lia.
  rewrite typed_set_ok by (unfold zeros; simpl; rewrite repeat_length; lia). cbn [mbind res_bind].
  unfold setUint32. rewrite (proj2 (Nat.leb_le _ _)) by (simpl; rewrite !length_app, length_drop; unfold zeros; rewrite repeat_length; lia).
  f_equal. cbn. rewrite take_0, app_nil_l, take_app_length.
  rewrite drop_ge by (rewrite length_app, length_drop; unfold zeros; rewrite repeat_length; lia).
  reflexivity.
Qed.

Lemma createHeader_err f :
  let n := length (utf8ToBytes (name f)) in
  (n < 1 \/ 255 < n)%nat -> createHeader f = Err NameLengthInvalid.
Proof.
  cbv zeta. intros Hn. unfold createHeader.
  destruct Hn as [Hn|Hn]; [rewrite (proj2 (Nat.ltb_lt _ _) Hn) | rewrite (proj2 (Nat.ltb_lt 255 _) Hn), orb_true_r];
    reflexivity.
Qed.

Lemma pack_ok f header :
  size f = length (data f) -> createHeader f = Ok header -> pack f = Ok (header ++ data f).
Proof.
  intros Hs Hh. unfold pack. rewrite Hh. cbn [mbind res_bind].
  replace (length header + size f)%nat with (0 + length header + size f)%nat by lia.
  rewrite typed_set_zeros. cbn [mbind res_bind zeros repeat app].
  rewrite typed_set_ok by (rewrite length_app; unfold zeros; rewrite repeat_length; lia).
  rewrite take_app_length, drop_ge by (rewrite length_app; unfold zeros; rewrite repeat_length; lia).
  rewrite app_nil_r. reflexivity.
Qed.

Lemma createHeader_Ok_inv f header :
  createHeader f = Ok header ->
  let nbytes := utf8ToBytes (name f) in
  (1 <= length nbytes <= 255)%nat /\ header = [Z.of_nat (length nbytes)] ++ nbytes ++ be32 (Z.of_nat (size f)).
Proof.
  cbv zeta. intros Hh.
  destruct (decide (1 <= length (utf8ToBytes (name f)) <= 255)%nat) as [Hn|Hn].
  - rewrite createHeader_ok in Hh by exact Hn. injection Hh as <-. auto.
  - rewrite createHeader_err in Hh by lia. discriminate.
Qed.

Lemma packWithPadding_ok f packed L :
  pack f = Ok packed -> Z.of_nat (length packed) <= L ->
  packWithPadding f L = Ok (packed ++ zeros (Z.to_nat L - length packed)).
Proof.
  intros Hp HL. unfold packWithPadding. rewrite Hp. cbn [mbind res_bind].
  destruct (Z.ltb_spec (L - Z.of_nat (length packed)) 0); [lia|].
  replace (length packed + Z.to_nat (L - Z.of_nat (length packed)))%nat
    with (0 + length packed + (Z.to_nat L - length packed))%nat by lia.
  rewrite typed_set_zeros. reflexivity.
Qed.

Lemma fromPacked_ok (nb rest : list Z) v :
  (1 <= length nb <= 255)%nat ->
  fromPacked ([Z.of_nat (length nb)] ++ nb ++ be32 v ++ rest) =
    Ok (newRawFile (take (Z.to_nat (toUint32 v)) rest) (bytesToUtf8 nb)).
Proof.
  intros Hn. unfold fromPacked, getUint8. cbn [lookup list_lookup app mbind res_bind].
  destruct (Z.ltb_spec (Z.of_nat (length nb)) 1); [lia|]. rewrite Nat2Z.id. cbn [Nat.add].
  pose proof (subarray_skip [Z.of_nat (length nb)] (nb ++ be32 v ++ rest) (length nb)) as Hs.
  cbn [length app Nat.add] in Hs. rewrite Hs, take_app_length.
  pose proof (getUint32_be32 ([Z.of_nat (length nb)] ++ nb) v rest) as Hg.
  rewrite <- !app_assoc, length_app in Hg. cbn [length app Nat.add] in Hg. rewrite Hg. cbn [mbind res_bind].
  pose proof (subarray_skip ([Z.of_nat (length nb)] ++ nb ++ be32 v) rest (Z.to_nat (toUint32 v))) as Hs'.
  rewrite <- !app_assoc, !length_app, be32_length in Hs'. cbn [length app Nat.add] in Hs'.
  rewrite Hs'. reflexivity.
Qed.

Lemma newRawFile_self f :
  size f = length (data f) -> name f <> [] -> newRawFile (data f) (name f) = f.
Proof.
  destruct f as [d n sz]. cbn [data name size]. intros -> Hn. unfold newRawFile.
  destruct n; [congruence | reflexivity].
Qed.

(** Unpacking a packed file followed by any padding gives back the
    first [size mod 2^32] bytes of its contents (the size field holds the
    size modulo 2^32), under the name the text codec round trip makes of
    its name. *)
Lemma fromPacked_pack_mod f packed pad :
  size f = length (data f) -> pack f = Ok packed ->
  fromPacked (packed ++ pad) =
    Ok (newRawFile (take (Z.to_nat (Z.of_nat (size f) mod 2 ^ 32)) (data f)) (bytesToUtf8 (utf8ToBytes (name f)))).
Proof.
  intros Hs Hp.
  destruct (createHeader f) as [header|e] eqn:Hh; [|unfold pack in Hp; rewrite Hh in Hp; discriminate].
  rewrite (pack_ok f header Hs Hh) in Hp. injection Hp as <-.
  apply createHeader_Ok_inv in Hh as [Hn ->].
  rewrite <- !app_assoc. rewrite fromPacked_ok by exact Hn. unfold toUint32.
  assert (Hle : (Z.to_nat (Z.of_nat (size f) mod 2 ^ 32) <= length (data f))%nat).
  { rewrite <- Hs. pose proof (Z.mod_le (Z.of_nat (size f)) (2 ^ 32)). lia. }
  rewrite take_app_le by exact Hle. reflexivity.
Qed.

Lemma fromPacked_pack_gen f packed pad :
  size f = length (data f) -> Z.of_nat (size f) < 2 ^ 32 -> pack f = Ok packed ->
  fromPacked (packed ++ pad) = Ok (newRawFile (data f) (bytesToUtf8 (utf8ToBytes (name f)))).
Proof.
  intros Hs Hsz Hp. rewrite (fromPacked_pack_mod f packed pad Hs Hp).
  rewrite Z.mod_small, Nat2Z.id, Hs, take_ge by lia. reflexivity.
Qed.

Lemma pack_name_nonempty f packed : pack f = Ok packed -> name f <> [].
Proof.
  intros Hp Hnil. unfold pack in Hp. rewrite createHeader_err in Hp; [discriminate|].
  rewrite (proj2 (utf8ToBytes_nil _) Hnil). simpl. lia.
Qed.

Lemma fromPacked_pack_app f packed pad :
  text_roundtrips (name f) -> size f = length (data f) -> Z.of_nat (size f) < 2 ^ 32 ->
  pack f = Ok packed -> fromPacked (packed ++ pad) = Ok f.
Proof.
  intros Ht Hs Hsz Hp. rewrite (fromPacked_pack_gen f packed pad Hs Hsz Hp).
  rewrite bytesToUtf8_utf8ToBytes by exact Ht. f_equal.
  apply newRawFile_self; [exact Hs | apply (pack_name_nonempty f packed Hp)].
Qed.

Lemma packWithPadding_Ok_inv f L padded :
  packWithPadding f L = Ok padded -> exists packed, pack f = Ok packed /\
    Z.of_nat (length packed) <= L /\ padded = packed ++ zeros (Z.to_nat L - length packed).
Proof.
  intros Hp. destruct (pack f) as [packed|e] eqn:Hq; [|unfold packWithPadding in Hp; rewrite Hq in Hp; discriminate].
  exists packed. destruct (Z.le_gt_cases (Z.of_nat (length packed)) L) as [HL|HL].
  - rewrite (packWithPadding_ok f packed L Hq HL) in Hp. injection Hp as <-. auto.
  - unfold packWithPadding in Hp. rewrite Hq in Hp. cbn [mbind res_bind] in Hp.
    destruct (Z.ltb_spec (L - Z.of_nat (length packed)) 0); [discriminate | lia].
Qed.

Lemma packWithPadding_short f packed L :
  pack f = Ok packed -> L < Z.of_nat (length packed) -> packWithPadding f L = Err RequiredLengthTooSmall.
Proof.
  intros Hq HL. unfold packWithPadding. rewrite Hq. cbn [mbind res_bind].
  destruct (Z.ltb_spec (L - Z.of_nat (length packed)) 0); [reflexivity | lia].
Qed.

(** [packWithPadding] raises only the packer's own errors. *)
Lemma packWithPadding_err f L e :
  packWithPadding f L = Err e ->
  e = NameLengthInvalid \/ e = RequiredLengthTooSmall \/ e = DataViewRange \/ e = TypedArraySetRange.
Proof.
  unfold packWithPadding, pack, createHeader, typed_set, setUint8, setUint32.
  repeat (case_match; cbn [mbind res_bind]); intros He; simplify_eq; auto.
Qed.

Lemma packWithPadding_length f L padded :
  packWithPadding f L = Ok padded -> Z.of_nat (length padded) = L.
Proof.
  intros Hp. destruct (packWithPadding_Ok_inv f L padded Hp) as (packed & _ & HL & ->).
  rewrite length_app. unfold zeros. rewrite repeat_length. lia.
Qed.

Lemma be32_bytes v : bytes_ok (be32 v).
Proof. unfold bytes_ok, be32. repeat constructor; unfold is_byte; apply Z.mod_pos_bound; lia. Qed.

Lemma zeros_bytes n : bytes_ok (zeros n).
Proof.
  unfold bytes_ok, zeros. induction n as [|n IH]; cbn [repeat]; constructor; [unfold is_byte; lia | exact IH].
Qed.

Lemma packWithPadding_bytes f L padded :
  raw_ok f -> packWithPadding f L = Ok padded -> bytes_ok padded.
Proof.
  intros (Hs & Hd & Hn) Hp. destruct (packWithPadding_Ok_inv f L padded Hp) as (packed & Hq & _ & ->).
  destruct (createHeader f) as [header|e] eqn:Hh; [|unfold pack in Hq; rewrite Hh in Hq; discriminate].
  rewrite (pack_ok f header Hs Hh) in Hq. injection Hq as <-.
  apply createHeader_Ok_inv in Hh as [Hnb ->].
  unfold bytes_ok. rewrite !Forall_app. split_and!.
  - constructor; [unfold is_byte; lia | constructor].
  - apply utf8ToBytes_bytes, Hn.
  - apply be32_bytes.
  - exact Hd.
  - apply zeros_bytes.
Qed.

(** C18: [pack] lays a file out as [name length (1 byte) || UTF-8 name ||
    size (4 bytes, big endian) || contents], and throws
    [NameLengthInvalid] exactly when the UTF-8 name is not 1..255 bytes. *)
Theorem pack_layout f :
  size f = length (data f) ->
  let nbytes := utf8ToBytes (name f) in
  pack f = if decide (1 <= length nbytes <= 255)%nat
           then Ok ([Z.of_nat (length nbytes)] ++ nbytes ++ be32 (Z.of_nat (size f)) ++ data f)
           else Err NameLengthInvalid.
Proof.
  intros Hs. cbv zeta. case_decide as Hn.
  - rewrite (pack_ok f _ Hs (createHeader_ok f Hn)). rewrite <- !app_assoc. reflexivity.
  - unfold pack. rewrite createHeader_err by lia. reflexivity.
Qed.

(** C19: [packWithPadding f L] is the packed file followed by zeros up to
    exactly [L] bytes, and throws [RequiredLengthTooSmall] when the
    packed file is longer than [L]. *)
Theorem packWithPadding_spec f packed L :
  pack f = Ok packed ->
  packWithPadding f L =
    if decide (Z.of_nat (length packed) <= L)
    then Ok (packed ++ zeros (Z.to_nat L - length packed))
    else Err RequiredLengthTooSmall.
Proof.
  intros Hq. case_decide as HL; [apply packWithPadding_ok; auto|].
  apply (packWithPadding_short f packed L Hq). lia.
Qed.

(** C3: Unpacking a padded packed file gives the file back, name and
    contents, when its name survives the UTF-8 round trip and its size
    fits the 4-byte length field. *)
Theorem fromPacked_packWithPadding f L padded :
  text_roundtrips (name f) -> size f = length (data f) -> Z.of_nat (size f) < 2 ^ 32 ->
  packWithPadding f L = Ok padded -> fromPacked padded = Ok f.
Proof.
  intros Ht Hs Hsz Hp. destruct (packWithPadding_Ok_inv f L padded Hp) as (packed & Hq & _ & ->).
  apply fromPacked_pack_app; auto.
Qed.

(** C20: [fromPacked] throws a RangeError of DataView on an empty buffer
    or one too short for its name and size fields, and [NameEmpty] when
    the name length byte is 0. *)
Theorem fromPacked_errors (packed : list Z) :
  (packed = [] -> fromPacked packed = Err DataViewRange) /\
  (head packed = Some 0 -> fromPacked packed = Err NameEmpty) /\
  (forall n, head packed = Some n -> 1 <= n -> (length packed < 1 + Z.to_nat n + 4)%nat ->
     fromPacked packed = Err DataViewRange).
Proof.
  split; [intros ->; reflexivity|]. split.
  - destruct packed as [|x rest]; [discriminate|]. intros Hx. injection Hx as ->. reflexivity.
  - intros n Hn H1 Hlen. destruct packed as [|x rest]; [discriminate|]. injection Hn as ->.
    unfold fromPacked, getUint8. cbn [lookup list_lookup mbind res_bind].
    destruct (Z.ltb_spec n 1); [lia|]. unfold getUint32.
    destruct ((n :: rest) !! S (S (S (0 + 1 + Z.to_nat n)))) eqn:E.
    + apply lookup_lt_Some in E. simpl in Hlen, E. lia.
    + repeat (destruct (_ !! _); try reflexivity).
Qed.

(** C21: [fromPacked] does not check the stored size against the buffer:
    when the size field exceeds the bytes that follow it, it returns a
    file holding only those bytes, with a smaller [size], instead of
    reporting a corrupt header. *)
Theorem fromPacked_truncated (nb rest : list Z) v :
  (1 <= length nb <= 255)%nat -> 0 <= v < 2 ^ 32 -> Z.of_nat (length rest) < v ->
  exists f, fromPacked ([Z.of_nat (length nb)] ++ nb ++ be32 v ++ rest) = Ok f /\
    data f = rest /\ Z.of_nat (size f) < v.
Proof.
  intros Hn Hv Hr. rewrite fromPacked_ok by exact Hn. eexists. split; [reflexivity|].
  unfold toUint32. rewrite Z.mod_small by lia. rewrite take_ge by lia.
  unfold newRawFile. cbn [data size]. destruct (bytesToUtf8 nb); split; reflexivity || lia.
Qed.

(** C28: Files of 2^32 bytes or more: the 4-byte size field of
    [createHeader] holds the size modulo 2^32 ([DataView.setUint32]
    wraps), and [pack] raises no error, so unpacking the padded file
    returns only the first [size mod 2^32] bytes, silently; for smaller
    files this is the whole file. *)
Theorem fromPacked_packWithPadding_wraps f L padded :
  size f = length (data f) -> packWithPadding f L = Ok padded ->
  fromPacked padded =
    Ok (newRawFile (take (Z.to_nat (Z.of_nat (size f) mod 2 ^ 32)) (data f)) (bytesToUtf8 (utf8ToBytes (name f)))).
Proof.
  intros Hs Hp. destruct (packWithPadding_Ok_inv f L padded Hp) as (packed & Hq & _ & ->).
  apply fromPacked_pack_mod; assumption.
Qed.

End PackerLemmas.

(** ** Witnesses: a two-byte file named "a" (and "é"), with the
    platform's UTF-8 codec [whatwg_text]. *)


Lemma pack_layout_witness :
  pack file_a = Ok ([Z.of_nat 1] ++ [97] ++ be32 (Z.of_nat 2) ++ [104; 105]).
Proof. rewrite (@pack_layout whatwg_text file_a ltac:(reflexivity)). vm_compute. reflexivity. Defined.

Lemma packWithPadding_spec_witness :
  packWithPadding file_a 12 = Ok ([1; 97; 0; 0; 0; 2; 104; 105] ++ zeros 4) /\
  packWithPadding file_a 7 = Err RequiredLengthTooSmall.
Proof.
  split.
  - rewrite (@packWithPadding_spec whatwg_text file_a [1; 97; 0; 0; 0; 2; 104; 105] 12 ltac:(vm_compute; reflexivity)).
    vm_compute. reflexivity.
  - rewrite (@packWithPadding_spec whatwg_text file_a [1; 97; 0; 0; 0; 2; 104; 105] 7 ltac:(vm_compute; reflexivity)).
    vm_compute. reflexivity.
Defined.

Lemma fromPacked_packWithPadding_witness :
  fromPacked [2; 195; 169; 0; 0; 0; 2; 104; 105; 0; 0] = Ok (newRawFile [104; 105] [233]).
Proof.
  apply (@fromPacked_packWithPadding whatwg_text (newRawFile [104; 105] [233]) 11);
    [split; [reflexivity | simpl; congruence] | reflexivity | simpl; lia | vm_compute; reflexivity].
Defined.

Lemma fromPacked_packWithPadding_wraps_witness :
  fromPacked ([1; 97; 0; 0; 0; 2; 104; 105] ++ zeros 4) =
    Ok (newRawFile (take (Z.to_nat (Z.of_nat 2 mod 2 ^ 32)) [104; 105]) (bytesToUtf8 (utf8ToBytes [97]))).
Proof.
  apply (@fromPacked_packWithPadding_wraps whatwg_text file_a 12); [reflexivity | vm_compute; reflexivity].
Defined.

Lemma fromPacked_errors_witness :
  fromPacked [] = Err DataViewRange /\ fromPacked [0; 1; 2] = Err NameEmpty /\
  fromPacked [3; 97; 98; 99; 0] = Err DataViewRange.
Proof.
  split; [apply (proj1 (@fromPacked_errors whatwg_text [])); reflexivity|]. split.
  - apply (proj1 (proj2 (@fromPacked_errors whatwg_text [0; 1; 2]))). reflexivity.
  - apply (proj2 (proj2 (@fromPacked_errors whatwg_text [3; 97; 98; 99; 0])) 3); [reflexivity | lia | simpl; lia].
Defined.

Lemma fromPacked_truncated_witness :
  exists f, fromPacked ([Z.of_nat 1] ++ [97] ++ be32 10 ++ [1; 2; 3]) = Ok f /\ data f = [1; 2; 3] /\
    Z.of_nat (size f) < 10.
Proof. apply (@fromPacked_truncated whatwg_text [97] [1; 2; 3] 10); simpl; lia. Defined.

(** C22: With the platform's decoder, a file name that begins with U+FEFF
    does not survive [pack] then [fromPacked]: the decoder drops the
    leading U+FEFF, and a name that was only U+FEFF comes back as the
    default name [file-<size>.file]. *)
Theorem fromPacked_pack_bom (d s packed : list Z) :
  Whatwg.wf_utf16 s = true -> Z.of_nat (length d) < 2 ^ 32 ->
  pack (newRawFile d (65279 :: s)) = Ok packed -> fromPacked packed = Ok (newRawFile d s).
Proof.
  intros Hw Hd Hp. rewrite <- (app_nil_r packed).
  rewrite (fromPacked_pack_gen (newRawFile d (65279 :: s)) packed [] eq_refl Hd Hp). cbn [name data newRawFile].
  cbn [utf8ToBytes bytesToUtf8 whatwg_text]. rewrite Whatwg.decode_encode_bom by exact Hw. reflexivity.
Qed.

Lemma fromPacked_pack_bom_witness :
  fromPacked [4; 239; 187; 191; 97; 0; 0; 0; 2; 104; 105] = Ok (newRawFile [104; 105] [97]).
Proof. apply fromPacked_pack_bom; [reflexivity | simpl; lia | vm_compute; reflexivity]. Defined.
