(* ===== verification/Steg.v ===== *)
(** * StegCodec: [StegImage.hide], [reveal] and the rest of [hideBlob]

    src/index.ts lines 167-237 and 343-368.  A [StegImage] owns the
    pixels of its source image and the [ImageData] read from its canvas;
    [hideBlob] mutates [imageData.data] in place and [reset] re-reads it
    from the image.  The object is the state of a small state-and-error
    monad [M], so that what a call leaves behind when it throws is part
    of the model.  The AEAD of micro-aes-gcm and the browser canvas are
    the interfaces [AEAD] and [Canvas].  The object's lifecycle is the
    relation [reachable]: from the constructor, any sequence of calls. *)

From stdpp Require Import base list.
From Stdlib Require Import ZArith QArith Lia.
From S2P Require Import Prelude Capacity BitCodec Layout CodecWrite CodecRead Codec TextCodec FilePacker.

Open Scope Z_scope.

(** [ENCRYPTED_METADATA_SIZE]: 12-byte IV and 16-byte tag. *)
Definition ENCRYPTED_METADATA_SIZE : Z := 28.

(** ** The collaborators *)

(** micro-aes-gcm: [encrypt(key, plaintext)] draws a 12-byte IV, here the
    argument [iv], and returns [iv || ciphertext || tag]. *)
Class AEAD := {
  aes_encrypt : list Z -> list Z -> list Z -> list Z;
  aes_decrypt : list Z -> list Z -> res (list Z);
  aes_encrypt_length : forall key iv p,
    Z.of_nat (length (aes_encrypt key iv p)) = Z.of_nat (length p) + ENCRYPTED_METADATA_SIZE;
  aes_encrypt_bytes : forall key iv p, bytes_ok (aes_encrypt key iv p);
  aes_decrypt_encrypt : forall key iv p, bytes_ok p -> aes_decrypt key (aes_encrypt key iv p) = Ok p;
  aes_decrypt_fails : forall key c e, aes_decrypt key c = Err e -> e = AuthenticationFailed;
}.

(** The 2D canvas: [render px] is what [getImageData] returns after
    [putImageData(px)], [toBlob] encodes the canvas, and [load] is the
    [ImageData] of an image loaded from a blob. *)
Class Canvas := {
  Blob : Type;
  getContext_ok : bool;
  render : list Z -> list Z;
  toBlob : list Z -> option Blob;
  load : Blob -> list Z;
  render_length : forall px, length (render px) = length px;
  load_toBlob : forall px b, toBlob px = Some b -> load b = render px;
}.

(** ** The [StegImage] object *)

Record StegImage := mkStegImage { image : list Z; imageData : list Z }.

(** [new StegImage(image)]: [createCanvas] draws the image and reads its
    pixels back. *)
Definition newStegImage (px : list Z) : StegImage := mkStegImage px px.

(** [reset()] *)
Definition reset (st : StegImage) : StegImage := mkStegImage (image st) (image st).

(** ** A state-and-error monad over the object *)

Definition M (A : Type) : Type := StegImage -> res A * StegImage.

#[export] Instance M_ret : MRet M := fun A a st => (Ok a, st).
#[export] Instance M_bind : MBind M := fun A B f m st =>
  match m st with
  | (Ok a, st') => f a st'
  | (Err e, st') => (Err e, st')
  end.

Definition lift {A} (r : res A) : M A := fun st => (r, st).
Definition get_state : M StegImage := fun st => (Ok st, st).
Definition set_imageData (px : list Z) : M unit := fun st => (Ok tt, mkStegImage (image st) px).

Section Steg.
Context `{AE : AEAD} `{CV : Canvas} `{TC : TextCodec}.
Variable rand : nat -> Z.

(** The loop of lines 350-358. *)
Definition verifyChannels (channels vchannels : list Z) : res unit :=
  guard_or VerificationMismatch
    (forallb (fun i => bool_decide (channels !! i = vchannels !! i)) (seq 0 (length channels))).

(** [canvas.toBlob(cb)]: the callback resolves with the blob or
    rejects, and resets the object either way. *)
Definition toBlob_reset (channels : list Z) (r1 : nat) : M (Blob * nat) :=
  fun st => match toBlob channels with
            | Some b => (Ok (b, r1), reset st)
            | None => (Err NoBlob, reset st)
            end.

Definition context_check : M unit := if getContext_ok then mret tt else lift (Err NoContext).

(** [hideBlob(hData, bitsTaken)]: the channel writes of BitCodec.v on
    [this.imageData.data] (a Uint8ClampedArray), then the checks against
    the canvas and [toBlob], whose callback resets the object.  It returns
    the blob and the number of random bytes drawn. *)
Definition hideBlob (hData : list Z) (bitsTaken : Z) (r0 : nat) : M (Blob * nat) :=
  st ← get_state;
  '(channels, r1) ← lift (hideBlobChannels (CA := Uint8ClampedArray) rand (imageData st) hData bitsTaken r0);
  set_imageData channels;;
  context_check;;
  lift (verifyChannels channels (render channels));;
  toBlob_reset channels r1.

(** [hide(rawFile, key, bitsTaken)] *)
Definition hide (rawFile : RawFile) (key iv : list Z) (bitsTaken : Z) (r0 : nat) : M (Blob * nat) :=
  st ← get_state;
  cap ← lift (calcCapacity (length (imageData st)) bitsTaken);
  let capacity := cap_bytes cap in
  packed ← lift (packWithPadding rawFile (capacity - ENCRYPTED_METADATA_SIZE));
  let ciphertext := aes_encrypt key iv packed in
  if negb (Z.of_nat (length ciphertext) =? capacity)
  then lift (Err EncryptedSizeMismatch)
  else hideBlob ciphertext bitsTaken r0.

(** [reveal(key)] *)
Definition reveal (key : list Z) : M RawFile :=
  st ← get_state;
  ciphertext ← lift (revealBlob (imageData st));
  packed ← lift (aes_decrypt key ciphertext);
  lift (fromPacked packed).

(** [revealBlob()] as a method of the object: it only reads it. *)
Definition revealBlobM : M (list Z) :=
  st ← get_state;
  lift (revealBlob (imageData st)).

(** ** The object's life: the calls a page makes on one [StegImage] *)

Inductive Call :=
  | HideCall (f : RawFile) (key iv : list Z) (bitsTaken : Z) (r0 : nat)
  | HideBlobCall (hData : list Z) (bitsTaken : Z) (r0 : nat)
  | RevealCall (key : list Z)
  | RevealBlobCall.

(** The object after a call, whether the call returned or threw. *)
Definition call_state (c : Call) (st : StegImage) : StegImage :=
  match c with
  | HideCall f key iv b r0 => snd (hide f key iv b r0 st)
  | HideBlobCall d b r0 => snd (hideBlob d b r0 st)
  | RevealCall key => snd (reveal key st)
  | RevealBlobCall => snd (revealBlobM st)
  end.

(** The data a call hands to [hideBlob] is a Uint8Array. *)
Definition call_ok (c : Call) : Prop :=
  match c with HideBlobCall d _ _ => bytes_ok d | _ => True end.

(** The objects a page can reach from [new StegImage(image)]. *)
Inductive reachable (px : list Z) : StegImage -> Prop :=
  | reach_new : reachable px (newStegImage px)
  | reach_call st c : reachable px st -> call_ok c -> reachable px (call_state c st).

End Steg.

(** ** Test instances

    A pass-through AEAD (zero IV and tag around the plaintext), a canvas
    that stores pixels as written, and one that loses them; they make the
    theorems above checkable on concrete inputs. *)

Definition null_encrypt (key iv p : list Z) : list Z := repeat 0 12 ++ map wrap_u8 p ++ repeat 0 16.

Definition null_decrypt (key c : list Z) : res (list Z) :=
  if (28 <=? length c)%nat then Ok (map wrap_u8 (take (length c - 28) (drop 12 c))) else Err AuthenticationFailed.

Definition null_aead : AEAD.
Proof.
  refine {| aes_encrypt := null_encrypt; aes_decrypt := null_decrypt |}.
  - intros key iv p. unfold null_encrypt, ENCRYPTED_METADATA_SIZE.
    rewrite !length_app, !repeat_length, length_map. lia.
  - intros key iv p. unfold null_encrypt, bytes_ok. rewrite !Forall_app.
    split_and!; [apply (zeros_bytes 12) | apply wrap_bytes | apply (zeros_bytes 16)].
  - intros key iv p Hp. unfold null_decrypt, null_encrypt. rewrite map_wrap_bytes by exact Hp.
    rewrite !length_app, !repeat_length. rewrite (proj2 (Nat.leb_le _ _)) by lia. f_equal.
    rewrite drop_app_length' by (rewrite repeat_length; lia).
    replace (12 + (length p + 16) - 28)%nat with (length p) by lia. rewrite take_app_length. apply map_wrap_bytes, Hp.
  - intros key c e. unfold null_decrypt. destruct (28 <=? length c)%nat; congruence.
Defined.

Definition faithful_canvas : Canvas.
Proof.
  refine {| Blob := list Z; getContext_ok := true; render := fun px => px; toBlob := fun px => Some px;
            load := fun b => b |}; [reflexivity | congruence].
Defined.

Definition lossy_canvas : Canvas.
Proof.
  refine {| Blob := list Z; getContext_ok := true; render := fun px => map (fun _ => 0) px;
            toBlob := fun px => Some (map (fun _ => 0) px); load := fun b => b |}.
  - intros px. apply length_map.
  - congruence.
Defined.

(** A canvas that cannot store the value 3 (it reads back 2). *)
Definition picky_canvas : Canvas.
Proof.
  refine {| Blob := list Z; getContext_ok := true; render := map (fun v => if v =? 3 then 2 else v);
            toBlob := fun px => Some (map (fun v => if v =? 3 then 2 else v) px); load := fun b => b |}.
  - intros px. apply length_map.
  - congruence.
Defined.

Definition img52 : list Z := repeat 0 52.
Definition key0 : list Z := repeat 7 32.
Definition iv0 : list Z := repeat 0 12.

(** The blob [hide] produces for [file_a] in a 13-pixel black image at
    eight bits per channel. *)
Definition demo_blob : list Z :=
  match fst (hide (AE := null_aead) (CV := faithful_canvas) (TC := whatwg_text) rand0 file_a key0 iv0 8 0
               (newStegImage img52)) with
  | Ok (bl, _) => bl
  | Err _ => []
  end.

(** A 108-pixel black image.  On [picky_canvas], [hideBlob] of the byte 3
    at eight bits per channel throws after writing it into channel 4;
    [hide] of [file_a] at one bit per channel then succeeds on that
    object. *)
Definition img108 : list Z := repeat 0 432.
Definition dirty_state : StegImage :=
  @call_state null_aead picky_canvas whatwg_text rand0 (HideBlobCall [3] 8 0) (newStegImage img108).
Definition dirty_blob : list Z :=
  match fst (hide (AE := null_aead) (CV := picky_canvas) (TC := whatwg_text) rand0 file_a key0 iv0 1 0 dirty_state) with
  | Ok (bl, _) => bl
  | Err _ => []
  end.

(** ** Lemmas *)

Lemma leftover_loop_err `{ByteArrayKind} n i rb w e :
  leftover_loop n i rb w = Err e -> e = RandomBitsExhausted.
Proof.
  revert i w. induction n as [|n IH]; intros i w; cbn [leftover_loop]; [discriminate|].
  destruct (i >? 7); [congruence | apply IH].
Qed.

(** The errors the write path of [hideBlob] can raise at all. *)
Lemma hideBlobChannels_err `{ByteArrayKind} rand chans data b r0 e :
  hideBlobChannels rand chans data b r0 = Err e ->
  e = BitsOutOfRange \/ e = CapacityExceeded \/ e = RandomBitsExhausted \/ e = BufBitsMismatch \/
  e = CursorMismatch.
Proof.
  unfold hideBlobChannels. destruct (validateBits b) as [[]|e'] eqn:Hv; cbn [mbind res_bind].
  2: { intros He. injection He as <-. left. apply (validateBits_Err b e' Hv). }
  rewrite calcCapacity_ok by (apply validateBits_Ok_inv, Hv). cbn [mbind res_bind].
  destruct (_ >? _); [intros He; injection He as <-; auto|].
  unfold flushLeftover at 1. destruct (bufBits _ =? 0); cbn [mbind res_bind].
  - destruct (negb _); [intros He; injection He as <-; auto | discriminate].
  - destruct (leftover_loop _ _ _ _) as [w|e'] eqn:Hl; cbn [mbind res_bind].
    + destruct (negb (bufBits w =? b)); cbn [mbind res_bind]; [intros He; injection He as <-; auto|].
      destruct (negb _); [intros He; injection He as <-; auto | discriminate].
    + intros He. injection He as <-. apply leftover_loop_err in Hl. auto.
Qed.

Section StegProofs.
Context `{AE : AEAD} `{CV : Canvas} `{TC : TextCodec}.
Variable rand : nat -> Z.
Hypothesis rand_byte : forall n, is_byte (rand n).

Lemma verifyChannels_refl px : verifyChannels px px = Ok tt.
Proof.
  unfold verifyChannels. rewrite (proj2 (forallb_forall _ _)); [reflexivity|].
  intros i _. apply bool_decide_eq_true. reflexivity.
Qed.

Lemma verifyChannels_Ok px v : verifyChannels px v = Ok tt -> length v = length px -> v = px.
Proof.
  unfold verifyChannels, guard_or. destruct (forallb _ _) eqn:E; [|discriminate]. intros _ Hlen.
  rewrite forallb_forall in E. apply list_eq. intros i.
  destruct (decide (i < length px)%nat) as [Hi|Hi].
  - symmetry. apply (bool_decide_eq_true_1 _), E, in_seq. lia.
  - rewrite !lookup_ge_None_2 by lia. reflexivity.
Qed.

(** What a successful [hide] has done. *)
Lemma hide_Ok_inv f key iv b r0 st blob r1 st' :
  hide rand f key iv b r0 st = (Ok (blob, r1), st') ->
  exists cap packed chans, calcCapacity (length (imageData st)) b = Ok cap /\
    packWithPadding f (cap_bytes cap - ENCRYPTED_METADATA_SIZE) = Ok packed /\
    hideBlobChannels (CA := Uint8ClampedArray) rand (imageData st) (aes_encrypt key iv packed) b r0 = Ok (chans, r1) /\
    verifyChannels chans (render chans) = Ok tt /\ toBlob chans = Some blob /\ st' = reset st.
Proof.
  destruct st as [img px]. unfold hide, hideBlob.
  cbv [mbind M_bind mret M_ret lift get_state set_imageData context_check toBlob_reset imageData image].
  destruct (calcCapacity _ _) as [cap|e] eqn:Hc; cbv beta iota zeta; [|discriminate].
  destruct (packWithPadding _ _) as [packed|e] eqn:Hp; cbv beta iota zeta; [|discriminate].
  destruct (negb _); cbv beta iota zeta; [discriminate|].
  destruct (hideBlobChannels _ _ _ _ _) as [[chans r1']|e] eqn:Hh; cbv beta iota zeta; [|discriminate].
  destruct getContext_ok; cbv beta iota zeta; [|discriminate].
  destruct (verifyChannels _ _) as [[]|e] eqn:Hv; cbv beta iota zeta; [|discriminate].
  destruct (toBlob chans) as [b'|] eqn:Ht; [|discriminate].
  intros H. injection H as -> -> <-. exists cap, packed, chans. split_and!; auto.
Qed.

Lemma hide_ciphertext_length f key iv packed cap :
  packWithPadding f (cap_bytes cap - ENCRYPTED_METADATA_SIZE) = Ok packed ->
  Z.of_nat (length (aes_encrypt key iv packed)) = cap_bytes cap.
Proof. intros Hp. rewrite aes_encrypt_length, (packWithPadding_length _ _ _ Hp). unfold ENCRYPTED_METADATA_SIZE. lia. Qed.

Lemma take_full (l out : list Z) : length out = length l -> take (length l) out = l -> out = l.
Proof. intros Hl Ht. rewrite <- Ht, <- Hl, firstn_all. reflexivity. Qed.

(** Hide then reveal, for any object whose buffer is a byte array of whole pixels. *)
Lemma reveal_hide_gen f key iv b r0 st blob r1 st' :
  bytes_ok (imageData st) -> (length (imageData st) mod 4 = 0)%nat ->
  raw_ok f -> text_roundtrips (name f) -> Z.of_nat (size f) < 2 ^ 32 ->
  hide rand f key iv b r0 st = (Ok (blob, r1), st') ->
  fst (reveal key (newStegImage (load blob))) = Ok f.
Proof.
  intros Ho Hmod Hf Ht Hsz Hh.
  destruct (hide_Ok_inv f key iv b r0 st blob r1 st' Hh) as (cap & packed & chans & Hcap & Hp & Hhide & Hv & Hb & _).
  pose proof (load_toBlob chans blob Hb) as Hload.
  rewrite (verifyChannels_Ok _ _ Hv (render_length chans)) in Hload.
  destruct (revealBlob_hidden (CA := Uint8ClampedArray) rand rand_byte (imageData st) (aes_encrypt key iv packed)
              b r0 chans r1 Ho Hmod (aes_encrypt_bytes _ _ _) Hhide) as (out & Hrev & Hlen & Htake).
  destruct (hideBlobChannels_Ok_inv (CA := Uint8ClampedArray) rand _ _ _ _ _ Hhide) as (Hbits & _).
  rewrite calcCapacity_ok in Hcap by exact Hbits. injection Hcap as <-.
  pose proof (hide_ciphertext_length f key iv packed _ Hp) as Hct. cbn [cap_bytes] in Hct.
  apply take_full in Htake; [|lia]. subst out.
  unfold reveal. cbv [mbind M_bind lift get_state newStegImage imageData]. rewrite Hload, Hrev.
  rewrite aes_decrypt_encrypt by (apply (packWithPadding_bytes f _ packed Hf Hp)). cbn [fst].
  destruct (packWithPadding_Ok_inv f _ packed Hp) as (q & Hq & _ & ->).
  destruct Hf as (Hs & _ & _). apply fromPacked_pack_app; auto.
Qed.

(** C1: End to end: on an image of whole pixels whose channels are bytes,
    when [hide] succeeds, loading the blob it produced into a new
    [StegImage] and calling [reveal] with the same key returns the hidden
    file, name and contents, whenever the name survives the UTF-8 round
    trip and the size fits the 4-byte length field. *)
Theorem reveal_hide f key iv b r0 st blob r1 st' :
  bytes_ok (imageData st) -> (length (imageData st) mod 4 = 0)%nat ->
  raw_ok f -> text_roundtrips (name f) -> Z.of_nat (size f) < 2 ^ 32 ->
  hide rand f key iv b r0 st = (Ok (blob, r1), st') ->
  fst (reveal key (newStegImage (load blob))) = Ok f.
Proof. exact (reveal_hide_gen f key iv b r0 st blob r1 st'). Qed.

Lemma verifyChannels_Err px v e : verifyChannels px v = Err e -> e = VerificationMismatch.
Proof. unfold verifyChannels, guard_or. destruct (forallb _ _); congruence. Qed.

(** C4: [hide] succeeds on a canvas that stores pixels faithfully,
    whenever the packed file and the 28 bytes of AEAD overhead fit the
    capacity; afterwards the object has been reset to its source image. *)
Theorem hide_succeeds f key iv b r0 st cap q :
  getContext_ok = true -> (forall px, render px = px) -> (forall px, is_Some (toBlob px)) ->
  valid_bits b -> bytes_ok (imageData st) -> (length (imageData st) mod 4 = 0)%nat ->
  calcCapacity (length (imageData st)) b = Ok cap -> pack f = Ok q ->
  Z.of_nat (length q) + ENCRYPTED_METADATA_SIZE <= cap_bytes cap ->
  exists blob r1, hide rand f key iv b r0 st = (Ok (blob, r1), reset st).
Proof.
  intros Hctx Hren Hblob Hb Ho Hmod Hcap Hq Hfit. unfold ENCRYPTED_METADATA_SIZE in Hfit.
  pose proof (packWithPadding_ok f q (cap_bytes cap - ENCRYPTED_METADATA_SIZE) Hq ltac:(unfold ENCRYPTED_METADATA_SIZE; lia)) as Hp.
  set (packed := q ++ _) in Hp.
  pose proof (hide_ciphertext_length f key iv packed cap Hp) as Hct.
  destruct (capacity_of_image (imageData st) b cap) as (P & Hlen & HP & _); auto; [lia|].
  destruct (hideBlobChannels_layout (CA := Uint8ClampedArray) rand rand_byte (imageData st)
              (aes_encrypt key iv packed) b r0 P cap) as (V & r1 & Hhide & _);
    try assumption; [apply aes_encrypt_bytes | lia |].
  set (chans := stego b (header_bits b) V (imageData st)) in Hhide.
  destruct (Hblob chans) as [blob Hbl]. exists blob, r1.
  destruct st as [img px]. unfold hide, hideBlob.
  cbv [mbind M_bind mret M_ret lift get_state set_imageData context_check toBlob_reset imageData image] in *.
  rewrite Hcap; cbv beta iota zeta. rewrite Hp; cbv beta iota zeta. rewrite Hct, Z.eqb_refl; cbv [negb].
  rewrite Hhide; cbv beta iota zeta. rewrite Hctx; cbv beta iota zeta.
  rewrite Hren, verifyChannels_refl, Hbl. reflexivity.
Qed.

(** C13: [hide] rejects a file that does not fit: when the packed file is
    longer than the capacity less the 28 bytes of AEAD overhead, it throws
    [RequiredLengthTooSmall] before encrypting, and leaves the image
    untouched. *)
Theorem hide_rejects_oversize f key iv b r0 st cap q :
  calcCapacity (length (imageData st)) b = Ok cap -> pack f = Ok q ->
  cap_bytes cap - ENCRYPTED_METADATA_SIZE < Z.of_nat (length q) ->
  hide rand f key iv b r0 st = (Err RequiredLengthTooSmall, st).
Proof.
  intros Hcap Hq Hlt. unfold hide. cbv [mbind M_bind lift get_state].
  rewrite Hcap, (packWithPadding_short f q _ Hq Hlt). reflexivity.
Qed.

(** C11: The check [ciphertext.byteLength !== capacity] of [hide] never
    fires: the padded plaintext is exactly 28 bytes shorter than the
    capacity, and the AEAD adds exactly 28. *)
Theorem hide_size_check_unreachable f key iv b r0 st :
  fst (hide rand f key iv b r0 st) <> Err EncryptedSizeMismatch.
Proof.
  destruct st as [img px]. unfold hide, hideBlob.
  cbv [mbind M_bind mret M_ret lift get_state set_imageData context_check toBlob_reset imageData image].
  destruct (calcCapacity _ _) as [cap|e] eqn:Hc; cbv beta iota zeta.
  2: { cbn [fst]. intros He. injection He as ->. unfold calcCapacity in Hc.
       destruct (validateBits b) as [[]|e'] eqn:Hv; [discriminate|]. injection Hc as ->.
       apply validateBits_Err in Hv as [Hv _]. discriminate. }
  destruct (packWithPadding _ _) as [packed|e] eqn:Hp; cbv beta iota zeta.
  2: { cbn [fst]. intros He. injection He as ->. apply packWithPadding_err in Hp. intuition congruence. }
  rewrite (hide_ciphertext_length f key iv packed cap Hp), Z.eqb_refl. cbv [negb].
  destruct (hideBlobChannels _ _ _ _ _) as [[chans r1]|e] eqn:Hh; cbv beta iota zeta.
  2: { cbn [fst]. intros He. injection He as ->. apply hideBlobChannels_err in Hh. intuition congruence. }
  destruct getContext_ok; cbv beta iota zeta; [|discriminate].
  destruct (verifyChannels _ _) as [[]|e] eqn:Hv; cbv beta iota zeta.
  2: { cbn [fst]. intros He. injection He as ->. apply verifyChannels_Err in Hv. discriminate. }
  destruct (toBlob chans); discriminate.
Qed.

(** C23: [reveal] reports a ciphertext that does not authenticate under
    the key (wrong key or altered image) as [AuthenticationFailed], and
    does not touch the object. *)
Theorem reveal_auth_failure key st ct e :
  revealBlob (imageData st) = Ok ct -> aes_decrypt key ct = Err e ->
  reveal key st = (Err AuthenticationFailed, st).
Proof.
  intros Hr Hd. unfold reveal. cbv [mbind M_bind lift get_state]. rewrite Hr, Hd.
  apply aes_decrypt_fails in Hd. subst. reflexivity.
Qed.

(** C24: When [hideBlob] throws after writing the channels ([No context],
    or a canvas that does not store the pixels as written), the object
    is not reset: its [imageData] keeps the written channels. *)
Theorem hideBlob_failure_keeps_writes hData b r0 st chans r1 :
  hideBlobChannels (CA := Uint8ClampedArray) rand (imageData st) hData b r0 = Ok (chans, r1) ->
  (getContext_ok = false -> hideBlob rand hData b r0 st = (Err NoContext, mkStegImage (image st) chans)) /\
  (getContext_ok = true -> render chans <> chans ->
     hideBlob rand hData b r0 st = (Err VerificationMismatch, mkStegImage (image st) chans)).
Proof.
  intros Hh. destruct st as [img px]. unfold hideBlob.
  cbv [mbind M_bind mret M_ret lift get_state set_imageData context_check toBlob_reset imageData image] in *.
  rewrite Hh. cbv beta iota zeta. split; intros Hctx; rewrite Hctx; cbv beta iota zeta; [reflexivity|].
  intros Hne. destruct (verifyChannels chans (render chans)) as [[]|e] eqn:Hv.
  - destruct Hne. apply verifyChannels_Ok; [exact Hv | apply render_length].
  - apply verifyChannels_Err in Hv. subst. reflexivity.
Qed.

(** What each call leaves in the object. *)
Lemma hideBlob_state d b r0 st :
  snd (hideBlob rand d b r0 st) = st \/ snd (hideBlob rand d b r0 st) = reset st \/
  exists chans r1, hideBlobChannels (CA := Uint8ClampedArray) rand (imageData st) d b r0 = Ok (chans, r1) /\
    snd (hideBlob rand d b r0 st) = mkStegImage (image st) chans.
Proof.
  destruct st as [img px]. unfold hideBlob.
  cbv [mbind M_bind mret M_ret lift get_state set_imageData context_check toBlob_reset imageData image].
  destruct (hideBlobChannels _ _ _ _ _) as [[chans r1]|e] eqn:Hh; cbv beta iota zeta; [|left; reflexivity].
  destruct getContext_ok; cbv beta iota zeta; [|right; right; eauto].
  destruct (verifyChannels _ _); cbv beta iota zeta; [|right; right; eauto].
  destruct (toBlob chans); right; left; reflexivity.
Qed.

Lemma hide_state f key iv b r0 st :
  snd (hide rand f key iv b r0 st) = st \/
  exists packed, snd (hide rand f key iv b r0 st) = snd (hideBlob rand (aes_encrypt key iv packed) b r0 st).
Proof.
  destruct st as [img px]. unfold hide. cbv [mbind M_bind lift get_state imageData].
  destruct (calcCapacity _ _) as [cap|e]; cbv beta iota zeta; [|left; reflexivity].
  destruct (packWithPadding _ _) as [packed|e]; cbv beta iota zeta; [|left; reflexivity].
  destruct (negb _); [left; reflexivity | right; exists packed; reflexivity].
Qed.

Lemma reveal_state key st : snd (reveal key st) = st.
Proof.
  unfold reveal. cbv [mbind M_bind lift get_state].
  destruct (revealBlob _); [|reflexivity]. destruct (aes_decrypt _ _); reflexivity.
Qed.

Lemma revealBlobM_state st : snd (revealBlobM st) = st.
Proof. reflexivity. Qed.

(** The lifecycle invariant, by rule induction on [reachable]. *)
Lemma reachable_wf px st :
  bytes_ok px -> (length px mod 4 = 0)%nat -> reachable rand px st ->
  image st = px /\ bytes_ok (imageData st) /\ length (imageData st) = length px.
Proof.
  intros Hpx Hmod. induction 1 as [|st c Hr IH Hc]; [split_and!; auto|].
  destruct IH as (Himg & Hok & Hlen).
  assert (Hblob : forall d b r0, bytes_ok d ->
    image (snd (hideBlob rand d b r0 st)) = px /\ bytes_ok (imageData (snd (hideBlob rand d b r0 st))) /\
    length (imageData (snd (hideBlob rand d b r0 st))) = length px).
  { intros d b r0 Hd. destruct (hideBlob_state d b r0 st) as [-> | [-> | (chans & r1 & Hh & ->)]];
      [auto | cbn; rewrite Himg; auto |].
    destruct (hideBlobChannels_bytes (CA := Uint8ClampedArray) rand rand_byte _ d b r0 chans r1 Hok
                ltac:(rewrite Hlen; exact Hmod) Hd Hh) as [Hb' Hl'].
    cbn. split_and!; auto. lia. }
  destruct c as [f key iv b r0|d b r0|key|]; cbn [call_state call_ok] in *.
  - destruct (hide_state f key iv b r0 st) as [-> | [packed ->]]; [auto | apply Hblob, aes_encrypt_bytes].
  - apply Hblob, Hc.
  - rewrite reveal_state. auto.
  - rewrite revealBlobM_state. auto.
Qed.

(** C8: On every object a page can reach from [new StegImage(px)],
    whatever it called before and whether those calls threw, a
    successful [hide] leaves the object as new (the [reset] of the
    [toBlob] callback), and the image it produces meets the codec's
    contract [layout_spec] for the encrypted packed file on the object's
    current [imageData]: on the channels a failed call left written,
    not on the source pixels [px]. *)
Theorem hide_reachable px st f key iv b r0 blob r1 st' :
  bytes_ok px -> (length px mod 4 = 0)%nat -> reachable rand px st ->
  hide rand f key iv b r0 st = (Ok (blob, r1), st') ->
  st' = newStegImage px /\
  exists cap packed, calcCapacity (length px) b = Ok cap /\
    packWithPadding f (cap_bytes cap - ENCRYPTED_METADATA_SIZE) = Ok packed /\
    layout_spec (CA := Uint8ClampedArray) b (aes_encrypt key iv packed) (imageData st) (load blob).
Proof.
  intros Hpx Hmod Hr Hh. destruct (reachable_wf px st Hpx Hmod Hr) as (Himg & Hok & Hlen).
  destruct (hide_Ok_inv f key iv b r0 st blob r1 st' Hh) as (cap & packed & chans & Hcap & Hp & Hhide & Hv & Hb & ->).
  split; [unfold reset, newStegImage; rewrite Himg; reflexivity|].
  exists cap, packed. rewrite <- Hlen. split_and!; [exact Hcap | exact Hp |].
  rewrite (load_toBlob chans blob Hb), (verifyChannels_Ok _ _ Hv (render_length chans)).
  apply (hideBlobChannels_Ok_spec (CA := Uint8ClampedArray) rand rand_byte _ _ b r0 chans r1);
    [exact Hok | rewrite Hlen; exact Hmod | apply aes_encrypt_bytes | exact Hhide].
Qed.

End StegProofs.

Lemma reveal_hide_witness :
  fst (reveal (AE := null_aead) (TC := whatwg_text) key0 (newStegImage (@load faithful_canvas demo_blob))) = Ok file_a.
Proof.
  apply (@reveal_hide null_aead faithful_canvas whatwg_text rand0 rand0_byte file_a key0 iv0 8 0
           (newStegImage img52) demo_blob 0 (newStegImage img52));
    [bytes_ok_by_eval | reflexivity | split_and!; [reflexivity | bytes_ok_by_eval | repeat constructor; lia]
    | split; [reflexivity | simpl; congruence] | simpl; lia | vm_compute; reflexivity].
Defined.

Lemma hide_succeeds_witness :
  exists blob r1, hide (AE := null_aead) (CV := faithful_canvas) (TC := whatwg_text) rand0 file_a key0 iv0 8 0
                    (newStegImage img52) = (Ok (blob, r1), reset (newStegImage img52)).
Proof.
  apply (@hide_succeeds null_aead faithful_canvas whatwg_text rand0 rand0_byte file_a key0 iv0 8 0
           (newStegImage img52) (mkCapacity (capacity_bits 52 8) 36) [1; 97; 0; 0; 0; 2; 104; 105]);
    [reflexivity | reflexivity | intros px; eexists; reflexivity | unfold valid_bits; lia | bytes_ok_by_eval
    | reflexivity | reflexivity | vm_compute; reflexivity | unfold ENCRYPTED_METADATA_SIZE; simpl; lia].
Defined.

Lemma hide_rejects_oversize_witness :
  hide (AE := null_aead) (CV := faithful_canvas) (TC := whatwg_text) rand0 file_a key0 iv0 1 0 (newStegImage img16)
    = (Err RequiredLengthTooSmall, newStegImage img16).
Proof.
  apply (@hide_rejects_oversize null_aead faithful_canvas whatwg_text rand0 file_a key0 iv0 1 0
           (newStegImage img16) (mkCapacity (capacity_bits 16 1) 1) [1; 97; 0; 0; 0; 2; 104; 105]);
    [reflexivity | vm_compute; reflexivity | unfold ENCRYPTED_METADATA_SIZE; simpl; lia].
Defined.

Lemma reveal_auth_failure_witness :
  reveal (AE := null_aead) (TC := whatwg_text) key0 (newStegImage img16) = (Err AuthenticationFailed, newStegImage img16).
Proof.
  apply (@reveal_auth_failure null_aead whatwg_text key0 (newStegImage img16) [0] AuthenticationFailed);
    vm_compute; reflexivity.
Defined.

Lemma hideBlob_failure_keeps_writes_witness :
  hideBlob (CV := lossy_canvas) rand0 [170] 1 0 (newStegImage img16) =
    (Err VerificationMismatch, mkStegImage img16 [0; 0; 0; 255; 1; 0; 1; 255; 0; 1; 0; 255; 1; 0; 0; 255]).
Proof.
  apply (proj2 (@hideBlob_failure_keeps_writes lossy_canvas rand0 [170] 1 0 (newStegImage img16)
                  [0; 0; 0; 255; 1; 0; 1; 255; 0; 1; 0; 255; 1; 0; 0; 255] 1 ltac:(vm_compute; reflexivity)));
    [reflexivity | vm_compute; congruence].
Defined.

(** [hide] on the dirty object: its image carries, above the low bit of
    channel 4, the byte the failed call wrote, where the source is 0. *)
Lemma hide_reachable_witness :
  (snd (hide (AE := null_aead) (CV := picky_canvas) (TC := whatwg_text) rand0 file_a key0 iv0 1 0 dirty_state)
     = newStegImage img108 /\
   exists cap packed, calcCapacity (length img108) 1 = Ok cap /\
     packWithPadding file_a (cap_bytes cap - ENCRYPTED_METADATA_SIZE) = Ok packed /\
     layout_spec (CA := Uint8ClampedArray) 1 (null_encrypt key0 iv0 packed) (imageData dirty_state)
       (@load picky_canvas dirty_blob)) /\
  nth 4 (@load picky_canvas dirty_blob) 0 / 2 <> nth 4 img108 0 / 2.
Proof.
  split; [|vm_compute; congruence].
  apply (@hide_reachable null_aead picky_canvas whatwg_text rand0 rand0_byte img108 dirty_state file_a key0 iv0 1 0
           dirty_blob 1 (snd (hide (AE := null_aead) (CV := picky_canvas) (TC := whatwg_text) rand0 file_a key0 iv0 1 0 dirty_state)));
    [bytes_ok_by_eval | reflexivity | apply reach_call; [apply reach_new | bytes_ok_by_eval] | vm_compute; reflexivity].
Defined.
