(* ===== verification/Display.v ===== *)
(** * Display: [utils.formatSize]

    src/index.ts lines 440-446: the size a page shows for a byte count
    (the demo shows the capacity [calcCapacity(b).bytes] with it).  The
    template literal [`${bytes}B`] is [Number::toString] of an integral
    Number, and [(bytes / KB).toFixed(2)] is [Number.prototype.toFixed]
    (ECMA-262), both modelled from the language definition: [toFixed]
    rounds to the nearest hundredth, ties upwards, and pads and splits the
    digit string.  Byte counts are integers (the callers pass
    [calcCapacity]'s [Math.floor]); the quotients [bytes / 1024] and
    [bytes / 2^20] are exact doubles for safe integers, so they are exact
    rationals here, and stay below 10^21, where [toFixed] would switch to
    [Number::toString]. *)

From stdpp Require Import base list strings pretty numbers.
From Stdlib Require Import ZArith QArith Qround Qabs Lia Ascii.
From S2P Require Import Prelude.

(** [Number::toString] of an integral Number: its decimal digits, with a
    leading "-" when negative. *)
Definition number_toString (x : Z) : string := pretty x.

(** [f] code units "0" (step 10.c.i of [toFixed]). *)
Fixpoint zero_string (f : nat) : string :=
  match f with O => "" | S f => String "0" (zero_string f) end.

(** Steps 10.b-d of [Number.prototype.toFixed(f)]: the digits [m] of the
    integer [n], left-padded with zeros to at least [f + 1] digits, with a
    "." before the last [f]. *)
Definition toFixed_digits (f : nat) (n : N) : string :=
  let m := pretty n in
  if decide (f = 0%nat) then m else
  let k := String.length m in
  let '(m, k) := if decide (k <= f)%nat
                 then (zero_string (f + 1 - k) +:+ m, (f + 1)%nat) else (m, k) in
  let a := String.substring 0 (k - f) m in
  let b := String.substring (k - f) f m in
  a +:+ "." +:+ b.

(** [Number.prototype.toFixed(f)] on a finite [x] below 10^21: the sign,
    then the integer [n] nearest to [x * 10^f], the larger on a tie
    (step 10.a), i.e. [floor(x * 10^f + 1/2)]. *)
Definition toFixed (x : Q) (f : nat) : string :=
  let '(s, x) := if Qlt_le_dec x 0 then ("-", (- x)%Q) else ("", x) in
  let n := Qfloor (x * inject_Z (10 ^ Z.of_nat f) + (1 # 2))%Q in
  s +:+ toFixed_digits f (Z.to_N n).

Definition formatSize (bytes : Z) : string :=
  let KB := 1024 in
  let MB := 1024 * 1024 in
  if decide (bytes < KB) then number_toString bytes +:+ "B"
  else if decide (bytes < MB) then toFixed (inject_Z bytes / inject_Z KB) 2 +:+ "KB"
  else toFixed (inject_Z bytes / inject_Z MB) 2 +:+ "MB".

(** ** A reference reader of the decimals [formatSize] prints *)

(** The digits of [n / 100], a ".", and the two digits of [n mod 100]:
    the value [n / 100] written with two decimals. *)
Definition two_digits (r : N) : string :=
  String (pretty_N_char (r / 10)) (String (pretty_N_char (r mod 10)) "").
Definition fixed2 (n : N) : string := pretty (n / 100)%N +:+ "." +:+ two_digits (n mod 100)%N.

Definition digit_val (c : ascii) : option N :=
  let v := N_of_ascii c in
  if decide (48 <= v <= 57)%N then Some (v - 48)%N else None.

Fixpoint read_digits (acc : N) (s : string) : option N :=
  match s with
  | EmptyString => Some acc
  | String c s => d ← digit_val c; read_digits (acc * 10 + d)%N s
  end.

(** The integer part, up to the ".", and the rest of the string. *)
Fixpoint read_int (acc : N) (s : string) : option (N * string) :=
  match s with
  | EmptyString => None
  | String c s =>
      if decide (c = "."%char) then Some (acc, s)
      else d ← digit_val c; read_int (acc * 10 + d)%N s
  end.

(** The rational number a string ["i.f"] of decimal digits denotes. *)
Definition read_fixed (s : string) : option Q :=
  '(i, r) ← read_int 0 s;
  fr ← read_digits 0 r;
  Some (inject_Z (Z.of_N (i * 10 ^ N.of_nat (String.length r) + fr)) / inject_Z (10 ^ Z.of_nat (String.length r)))%Q.

(** ** Strings *)

Lemma string_app_cons a s1 s2 : String a s1 +:+ s2 = String a (s1 +:+ s2).
Proof. reflexivity. Qed.

Lemma string_app_nil s : "" +:+ s = s.
Proof. reflexivity. Qed.

Lemma string_app_assoc (s1 s2 s3 : string) : (s1 +:+ s2) +:+ s3 = s1 +:+ (s2 +:+ s3).
Proof. induction s1; [reflexivity | rewrite !string_app_cons; congruence]. Qed.

Lemma string_length_app s1 s2 : String.length (s1 +:+ s2) = (String.length s1 + String.length s2)%nat.
Proof. induction s1; rewrite ?string_app_nil, ?string_app_cons; cbn; lia. Qed.

Lemma substring_app_l s1 s2 : String.substring 0 (String.length s1) (s1 +:+ s2) = s1.
Proof. induction s1; rewrite ?string_app_nil, ?string_app_cons; cbn; [destruct s2; reflexivity | congruence]. Qed.

Lemma substring_app_r s1 s2 : String.substring (String.length s1) (String.length s2) (s1 +:+ s2) = s2.
Proof.
  induction s1; rewrite ?string_app_nil, ?string_app_cons; cbn; [|exact IHs1].
  induction s2; cbn; congruence.
Qed.

(** ** Decimal digits *)

Lemma digit_char d : (d < 10)%N -> digit_val (pretty_N_char d) = Some d /\ pretty_N_char d <> "."%char.
Proof.
  intros Hd. assert (d = 0 \/ d = 1 \/ d = 2 \/ d = 3 \/ d = 4 \/ d = 5 \/ d = 6 \/ d = 7 \/ d = 8 \/ d = 9)%N
    as Hc by lia.
  destruct_or! Hc; subst; split; [reflexivity | discriminate | ..]; (reflexivity || discriminate).
Qed.

Lemma pretty_N_go_app x s : pretty_N_go x s = pretty_N_go x "" +:+ s.
Proof.
  revert s. induction (N.lt_wf_0 x) as [x _ IH]; intros s.
  destruct (decide (x = 0%N)) as [->|Hx]; [reflexivity|].
  rewrite !(pretty_N_go_step x) by lia.
  assert (Hlt : (x / 10 < x)%N) by (apply N.div_lt; lia).
  rewrite (IH _ Hlt (String _ s)), (IH _ Hlt (String _ "")).
  rewrite string_app_assoc. reflexivity.
Qed.

Lemma pretty_pos (n : N) : (0 < n)%N -> pretty n = pretty_N_go n "".
Proof. intros Hn. unfold pretty, pretty_N. case_decide; [lia | reflexivity]. Qed.

Lemma pretty_length (n : N) : (0 < String.length (pretty n))%nat.
Proof.
  destruct (decide (n = 0%N)) as [->|Hn]; [apply Nat.lt_0_succ|].
  rewrite pretty_pos, pretty_N_go_step, pretty_N_go_app, string_length_app by lia. cbn. lia.
Qed.

Lemma pretty_split (n : N) : (100 <= n)%N -> pretty n = pretty (n / 100)%N +:+ two_digits (n mod 100)%N.
Proof.
  intros Hn. rewrite !pretty_pos by (arith || (apply N.div_str_pos; lia)).
  rewrite pretty_N_go_step, (pretty_N_go_step (n / 10)) by (arith || (apply N.div_str_pos; lia)).
  rewrite pretty_N_go_app, N.Div0.div_div. unfold two_digits.
  replace ((n / 10) mod 10)%N with ((n mod 100) / 10)%N by arith.
  replace (n mod 10)%N with ((n mod 100) mod 10)%N by arith. reflexivity.
Qed.

(** The pad-and-split of [toFixed] with two digits is the quotient and
    remainder by 100: below 100 (one or two digits, padded) by evaluation
    of the hundred cases, from 100 on by [pretty_split]. *)
Lemma toFixed_digits_2 n : toFixed_digits 2 n = fixed2 n.
Proof.
  destruct (decide (n < 100)%N) as [Hs|Hl].
  - assert (Hall : forallb (fun k => bool_decide (toFixed_digits 2 (N.of_nat k) = fixed2 (N.of_nat k)))
                     (seq 0 100) = true) by (vm_compute; reflexivity).
    rewrite forallb_forall in Hall. specialize (Hall (N.to_nat n) ltac:(apply in_seq; lia)).
    rewrite N2Nat.id in Hall. exact (bool_decide_eq_true_1 _ Hall).
  - unfold toFixed_digits. rewrite (pretty_split n) by lia.
    pose proof (pretty_length (n / 100)%N) as Hp.
    rewrite string_length_app. change (String.length (two_digits (n mod 100)%N)) with 2%nat.
    case_decide; [lia|]. case_decide; [lia|].
    replace (String.length (pretty (n / 100)%N) + 2 - 2)%nat with (String.length (pretty (n / 100)%N)) by lia.
    rewrite substring_app_l. change 2%nat with (String.length (two_digits (n mod 100)%N)).
    rewrite substring_app_r. reflexivity.
Qed.

Lemma read_int_pretty_go x s : read_int 0 (pretty_N_go x s) = read_int x s.
Proof.
  revert s. induction (N.lt_wf_0 x) as [x _ IH]; intros s.
  destruct (decide (x = 0%N)) as [->|Hx]; [reflexivity|].
  rewrite pretty_N_go_step by lia. rewrite IH by (apply N.div_lt; lia).
  destruct (digit_char (x mod 10)%N ltac:(apply N.mod_lt; lia)) as [Hd Hdot].
  cbn [read_int]. rewrite decide_False by exact Hdot. rewrite Hd. cbn [mbind option_bind].
  rewrite (N.mul_comm (x / 10)), <- N.div_mod by lia. reflexivity.
Qed.

Lemma read_int_pretty x r : read_int 0 (pretty x +:+ "." +:+ r) = Some (x, r).
Proof.
  destruct (decide (x = 0%N)) as [->|Hx]; [reflexivity|].
  rewrite pretty_pos, <- pretty_N_go_app, read_int_pretty_go by lia. reflexivity.
Qed.

Lemma read_digits_two r : (r < 100)%N -> read_digits 0 (two_digits r) = Some r.
Proof.
  intros Hr. unfold two_digits. cbn [read_digits].
  rewrite (proj1 (digit_char (r / 10)%N ltac:(apply N.Div0.div_lt_upper_bound; lia))),
          (proj1 (digit_char (r mod 10)%N ltac:(apply N.mod_lt; lia))).
  cbn [mbind option_bind]. f_equal. arith.
Qed.

(** Reading back what [fixed2] prints gives [n / 100]. *)
Lemma read_fixed_fixed2 n : read_fixed (fixed2 n) = Some (inject_Z (Z.of_N n) / inject_Z 100)%Q.
Proof.
  unfold read_fixed, fixed2. rewrite read_int_pretty. cbn [mbind option_bind].
  rewrite read_digits_two by (apply N.mod_lt; lia). cbn [mbind option_bind].
  change (String.length (two_digits (n mod 100)%N)) with 2%nat. cbn [N.of_nat Z.of_nat].
  do 3 f_equal. arith.
Qed.

(** ** Rounding *)

Lemma Qdiv_nonneg b p : 0 <= b -> (0 <= inject_Z b / inject_Z (Zpos p))%Q.
Proof. intros Hb. unfold Qle, Qdiv, Qmult, Qinv, inject_Z. cbn [Qnum Qden]. lia. Qed.

(** [toFixed(2)] of [b / p], for a byte count [b >= 0] and a unit of [p]
    bytes: the hundredth nearest to [b / p], [floor((200 b + p) / 2p)]. *)
Lemma toFixed_unit b p : 0 <= b ->
  toFixed (inject_Z b / inject_Z (Zpos p)) 2 = fixed2 (Z.to_N ((200 * b + Zpos p) / (2 * Zpos p))).
Proof.
  intros Hb. unfold toFixed. destruct (Qlt_le_dec _ 0) as [Hlt|_].
  - exfalso. apply (Qlt_not_le _ _ Hlt), Qdiv_nonneg, Hb.
  - cbv beta iota zeta. rewrite string_app_nil, toFixed_digits_2. do 2 f_equal.
    change (10 ^ Z.of_nat 2) with 100.
    unfold Qfloor, Qdiv, Qmult, Qinv, Qplus, inject_Z. cbn [Qnum Qden].
    rewrite ?Pos.mul_1_l, ?Pos.mul_1_r, Pos2Z.inj_mul. f_equal; lia.
Qed.

(** The hundredth [toFixed_unit] picks is within half a hundredth of [b / p]. *)
Lemma round_error b p : 0 <= b ->
  (Qabs (inject_Z (Z.of_N (Z.to_N ((200 * b + Zpos p) / (2 * Zpos p)))) / inject_Z 100
         - inject_Z b / inject_Z (Zpos p)) <= 1 # 200)%Q.
Proof.
  intros Hb. rewrite Z2N.id by (apply Z.div_pos; lia).
  pose proof (Z.mul_div_le (200 * b + Zpos p) (2 * Zpos p) ltac:(lia)) as H1.
  pose proof (Z.mul_succ_div_gt (200 * b + Zpos p) (2 * Zpos p) ltac:(lia)) as H2.
  set (n := (200 * b + Zpos p) / (2 * Zpos p)) in *.
  apply Qabs_Qle_condition. unfold Qle, Qminus, Qplus, Qopp, Qdiv, Qmult, Qinv, inject_Z. cbn [Qnum Qden].
  rewrite ?Pos2Z.inj_mul. split; nia.
Qed.

(** ** Claims *)

(** C26: [formatSize] on every integer byte count: below 1024 the decimal
    digits of the count and "B"; below 2^20 the count in KiB rounded to the
    nearest hundredth, ties upwards, as [floor((100 b + 512) / 1024)]
    hundredths printed with two decimals, and "KB"; from there on the
    same in MiB with "MB".  The double arithmetic and [toFixed(2)]'s
    pad-and-split are exactly this integer computation. *)
Theorem formatSize_spec b :
  formatSize b =
    if decide (b < 1024) then number_toString b +:+ "B"
    else if decide (b < 1048576) then fixed2 (Z.to_N ((100 * b + 512) / 1024)) +:+ "KB"
    else fixed2 (Z.to_N ((100 * b + 524288) / 1048576)) +:+ "MB".
Proof.
  unfold formatSize. case_decide; [reflexivity|]. change (1024 * 1024) with 1048576.
  case_decide; rewrite toFixed_unit by lia; do 2 f_equal;
    rewrite <- (Z.div_mul_cancel_l _ _ 2) by lia; f_equal; lia.
Qed.

(** C27: From 1 KiB on, [formatSize] prints a decimal number and a unit
    ("KB" for 1024 bytes, "MB" for 2^20 bytes, never larger than the
    count); read back as a decimal, the number is within half a
    hundredth of the count in that unit. *)
Theorem formatSize_accurate b : 1024 <= b ->
  exists s u d q, formatSize b = s +:+ u /\ ((u = "KB" /\ d = 1024) \/ (u = "MB" /\ d = 1048576)) /\
    d <= b /\ read_fixed s = Some q /\ (Qabs (q - inject_Z b / inject_Z d) <= 1 # 200)%Q.
Proof.
  intros Hb. unfold formatSize. rewrite decide_False by lia. change (1024 * 1024) with 1048576.
  case_decide; rewrite toFixed_unit by lia; do 4 eexists;
    (split; [reflexivity|]); split_and!; [left; auto | lia | apply read_fixed_fixed2 | apply round_error; lia
                                          | right; auto | lia | apply read_fixed_fixed2 | apply round_error; lia].
Qed.

Lemma formatSize_accurate_witness :
  1024 <= 1048575 /\
  exists s u d q, formatSize 1048575 = s +:+ u /\ ((u = "KB" /\ d = 1024) \/ (u = "MB" /\ d = 1048576)) /\
    d <= 1048575 /\ read_fixed s = Some q /\ (Qabs (q - inject_Z 1048575 / inject_Z d) <= 1 # 200)%Q.
Proof. split; [lia | apply (formatSize_accurate 1048575); lia]. Defined.
