(* ===== verification/Demo.v ===== *)
(** * Demo: the page script of src/demo/index.js

    The demo page has two forms on one document.  [setupEncryption]
    (lines 17-84) keeps a [cache] of the chosen image, file, key and
    [bitsTaken], and [reformat] enables the submit button when the file
    fits; its submit handler calls [StegImage.hide].  [setupDecryption]
    (lines 85-141) keeps the image to read and the key, and its submit
    handler calls [StegImage.reveal].  Labels show sizes with
    [utils.formatSize].

    The page is a state: both caches, and the DOM properties the script
    writes ([disabled] flags and label texts), [None] standing for the
    value of the HTML, which is not part of the repository.  Each
    listener is a handler in a state-and-error monad over the page, so
    that the writes a handler made before it threw stay on the page.
    Method calls on a [StegImage] run the actions of Steg.v on the object
    the cache holds, which they update in place.  The events carry what
    the awaited I/O produced: the decoded channels of a chosen image
    ([RawFile.fromFileInput] then [StegImage.fromBytesOrURL]), the chosen
    file, the password field's value and validity, the IV and the
    position in the random stream a [hide] uses.  A handler runs to
    completion before the next event: the await points inside a handler
    are not interleaved with other handlers.  [passwordToKey] is scrypt
    from @noble/hashes, a function of the section. *)

From stdpp Require Import base list strings.
From Stdlib Require Import ZArith QArith Lia.
From S2P Require Import Prelude Capacity Codec TextCodec FilePacker Steg Display.

Open Scope Z_scope.

(** What a handler throws: an error of the library, or the TypeError of
    [cache.stegImg.calcCapacity(val)] while no image is loaded. *)
Inductive Thrown :=
  | LibError (e : StegError)
  | UndefinedStegImage.

(** How a handler ends: it returns, or it throws. *)
Inductive outcome (A : Type) := Returned (a : A) | Threw (t : Thrown).
Arguments Returned {A} a.
Arguments Threw {A} t.

(** The texts the script writes, one constructor per string or template
    literal. *)
Inductive Text :=
  | CanHide (minSize maxSize : string)    (* `can hide <strong>from ${minSize} to ${maxSize}</strong> of data` *)
  | WithSize (size : string)              (* `with size of <strong>${formatSize(size)}</strong>` *)
  | PasswordSet                           (* '<strong>set<strong>' *)
  | PasswordInvalid                       (* 'Invalid password' *)
  | BitsValue (val : Z)                   (* textContent = val *)
  | GetsCapacity (capacity : string)      (* `gets capacity of ${formatSize(capacity)}` *)
  | AmidstMaxSize (size : string)         (* `amidst max size of <strong>${formatSize(cap.bytes)}</strong>` *)
  | IncorrectHeader                       (* 'Incorrect bitsTaken header: probably not a steg png' *)
  | DecryptionError (e : Thrown)          (* `Decryption error, probably invalid password: ${error.message}` *)
  | SuccessfullyDecrypted                 (* 'Successfully decrypted' *)
  | HiddenFile (name : list Z) (sizeText : string) (size : Z).
      (* `hidden file <strong>${name}</strong> with size of <strong>${formatSize(size)}</strong> (${size}B)` *)

(** The boolean DOM properties the script writes. *)
Inductive Flag :=
  | ImageInputDisabled     (* ev.target.disabled of #steg-encrypt-image *)
  | DataFileDisabled       (* #steg-encrypt-data-file .disabled *)
  | PasswordDisabled       (* #steg-encrypt-password .disabled *)
  | SubmitDisabled         (* #steg-encrypt-submit-button .disabled *)
  | DownloadHidden         (* #steg-encrypt-download [hidden] *)
  | DecSubmitDisabled      (* #steg-decrypt-submit .disabled *)
  | DecOutputHidden.       (* #steg-decrypt-output-container .hidden *)

(** The text properties the script writes. *)
Inductive Slot :=
  | ImageLabel | DataFileLabel | PasswordLabel | BitsTakenValue | BitsTakenLabel
  | DecFileLabel | DecPasswordLabel | DecStatus | DecMetadata.

#[export] Instance Flag_eq_dec : EqDecision Flag.
Proof. solve_decision. Defined.
#[export] Instance Slot_eq_dec : EqDecision Slot.
Proof. solve_decision. Defined.

(** [const cache = { bitsTaken: 1 }] of [setupEncryption]. *)
Record EncCache := mkEncCache {
  bitsTaken : Z;
  stegImg : option StegImage;
  hiddenFile : option RawFile;
  key : option (list Z)
}.

(** [const cache = {}] of [setupDecryption]. *)
Record DecCache := mkDecCache {
  simg : option StegImage;
  dkey : option (list Z)
}.

Section Demo.
Context `{AE : AEAD} `{CV : Canvas} `{TC : TextCodec}.
Variable rand : nat -> Z.
(** [scrypt(password, salt, { N, r, p })] of @noble/hashes. *)
Variable scrypt : list Z -> string -> Z -> Z -> Z -> list Z.

Record Page := mkPage {
  enc : EncCache;
  dec : DecCache;
  flags : Flag -> option bool;
  texts : Slot -> option Text;
  output : option Blob          (* #steg-encrypt-output .src, set by utils.setImageSource *)
}.

(** The page when the script starts: both caches as initialised, the DOM
    as the HTML has it. *)
Definition initPage : Page :=
  mkPage (mkEncCache 1 None None None) (mkDecCache None None) (fun _ => None) (fun _ => None) None.

Definition passwordToKey (password : list Z) : list Z := scrypt password "steg-file" (2 ^ 19) 8 1.

(** ** A state-and-error monad over the page *)

Definition PM (A : Type) : Type := Page -> outcome A * Page.

#[export] Instance PM_ret : MRet PM := fun A a p => (Returned a, p).
#[export] Instance PM_bind : MBind PM := fun A B f m p =>
  match m p with
  | (Returned a, p') => f a p'
  | (Threw t, p') => (Threw t, p')
  end.

Definition get_page : PM Page := fun p => (Returned p, p).
Definition modify (f : Page -> Page) : PM unit := fun p => (Returned tt, f p).

Definition upd {K V} `{EqDecision K} (m : K -> option V) (k : K) (v : V) : K -> option V :=
  fun k' => if decide (k' = k) then Some v else m k'.

Definition set_flag (fl : Flag) (b : bool) : PM unit :=
  modify (fun p => mkPage (enc p) (dec p) (upd (flags p) fl b) (texts p) (output p)).
Definition set_text (s : Slot) (t : Text) : PM unit :=
  modify (fun p => mkPage (enc p) (dec p) (flags p) (upd (texts p) s t) (output p)).
Definition set_enc (c : EncCache) : PM unit :=
  modify (fun p => mkPage c (dec p) (flags p) (texts p) (output p)).
Definition set_dec (c : DecCache) : PM unit :=
  modify (fun p => mkPage (enc p) c (flags p) (texts p) (output p)).
Definition set_output (b : Blob) : PM unit :=
  modify (fun p => mkPage (enc p) (dec p) (flags p) (texts p) (Some b)).

Definition of_res {A} (r : res A) : outcome A :=
  match r with Ok a => Returned a | Err e => Threw (LibError e) end.

(** A method call [cache.stegImg.m(...)]: it runs on the object the
    cache holds, which keeps the object's new state; on [undefined] it
    throws the TypeError. *)
Definition on_stegImg {A} (m : M A) : PM A := fun p =>
  match stegImg (enc p) with
  | None => (Threw UndefinedStegImage, p)
  | Some o =>
      let '(r, o') := m o in
      let c := enc p in
      (of_res r, mkPage (mkEncCache (bitsTaken c) (Some o') (hiddenFile c) (key c)) (dec p) (flags p) (texts p) (output p))
  end.

Definition on_simg {A} (m : M A) : PM A := fun p =>
  match simg (dec p) with
  | None => (Threw UndefinedStegImage, p)
  | Some o =>
      let '(r, o') := m o in
      (of_res r, mkPage (enc p) (mkDecCache (Some o') (dkey (dec p))) (flags p) (texts p) (output p))
  end.

(** [try { m } catch (error) { ... }] *)
Definition try_catch {A} (m : PM A) : PM (A + Thrown) := fun p =>
  match m p with
  | (Returned a, p') => (Returned (inl a), p')
  | (Threw t, p') => (Returned (inr t), p')
  end.

(** The methods [calcCapacity(bitsTaken)] and [revealBitsTaken()] of
    [StegImage] (src/index.ts lines 202-205, 370-380), on [this.imageData]. *)
Definition calcCapacityM (b : Z) : M Capacity :=
  st ← get_state; lift (calcCapacity (length (imageData st)) b).
Definition revealBitsTakenM : M Z :=
  st ← get_state; lift (revealBitsTaken (imageData st)).

(** ** [setupEncryption] *)

(** [reformat()] (lines 22-30) *)
Definition reformat : PM unit :=
  p ← get_page;
  let c := enc p in
  (match stegImg c with Some _ => set_flag DataFileDisabled false | None => mret tt end);;
  match stegImg c, hiddenFile c, key c with
  | Some _, Some hf, Some _ =>
      cap ← on_stegImg (calcCapacityM (bitsTaken c));
      if Z.of_nat (size hf) >? cap_bytes cap then set_flag SubmitDisabled true
      else set_flag SubmitDisabled false
  | _, _, _ => set_flag SubmitDisabled true
  end.

(** [#steg-encrypt-image] change (lines 31-42) *)
Definition on_enc_image (px : list Z) : PM unit :=
  p ← get_page;
  let c := enc p in
  set_enc (mkEncCache (bitsTaken c) (Some (newStegImage px)) (hiddenFile c) (key c));;
  cmin ← on_stegImg (calcCapacityM 1);
  cmax ← on_stegImg (calcCapacityM 8);
  set_text ImageLabel (CanHide (formatSize (cap_bytes cmin)) (formatSize (cap_bytes cmax)));;
  set_flag ImageInputDisabled true;;
  set_flag DataFileDisabled false;;
  reformat.

(** [#steg-encrypt-data-file] change (lines 43-50) *)
Definition on_enc_data_file (f : RawFile) : PM unit :=
  p ← get_page;
  let c := enc p in
  set_enc (mkEncCache (bitsTaken c) (stegImg c) (Some f) (key c));;
  set_text DataFileLabel (WithSize (formatSize (Z.of_nat (size f))));;
  set_flag PasswordDisabled false;;
  reformat.

(** [#steg-encrypt-password] change (lines 51-61) *)
Definition on_enc_password (valid : bool) (value : list Z) : PM unit :=
  p ← get_page;
  let c := enc p in
  (if valid
   then set_enc (mkEncCache (bitsTaken c) (stegImg c) (hiddenFile c) (Some (passwordToKey value)));;
        set_text PasswordLabel PasswordSet
   else set_text PasswordLabel PasswordInvalid);;
  reformat.

(** [#steg-encrypt-bits-taken] change (lines 62-71); [val] is
    [Number.parseInt(ev.target.value)]. *)
Definition on_enc_bits_taken (val : Z) : PM unit :=
  p ← get_page;
  let c := enc p in
  set_enc (mkEncCache val (stegImg c) (hiddenFile c) (key c));;
  set_text BitsTakenValue (BitsValue val);;
  cap ← on_stegImg (calcCapacityM val);
  set_text BitsTakenLabel (GetsCapacity (formatSize (cap_bytes cap)));;
  reformat.

(** [#steg-encrypt] submit (lines 72-83): [hide], then the output image
    and the download link. *)
Definition on_enc_submit (iv : list Z) (r0 : nat) : PM unit :=
  p ← get_page;
  let c := enc p in
  match stegImg c, hiddenFile c, key c with
  | Some _, Some hf, Some k =>
      '(url, _) ← on_stegImg (hide rand hf k iv (bitsTaken c) r0);
      set_output url;;
      set_flag DownloadHidden false
  | _, _, _ => mret tt
  end.

(** ** [setupDecryption] *)

(** [#steg-decrypt-file] change (lines 90-102): the image is a local
    object, stored in the cache only when the header reads. *)
Definition on_dec_file (px : list Z) : PM unit :=
  let o := newStegImage px in
  let '(r, o') := (b ← revealBitsTakenM; calcCapacityM b) o in
  match r with
  | Ok cap =>
      set_text DecFileLabel (AmidstMaxSize (formatSize (cap_bytes cap)));;
      p ← get_page;
      set_dec (mkDecCache (Some o') (dkey (dec p)))
  | Err _ => set_text DecFileLabel IncorrectHeader
  end.

(** [#steg-decrypt-password] change (lines 103-115) *)
Definition on_dec_password (valid : bool) (value : list Z) : PM unit :=
  if valid
  then p ← get_page;
       set_dec (mkDecCache (simg (dec p)) (Some (passwordToKey value)));;
       set_text DecPasswordLabel PasswordSet;;
       set_flag DecSubmitDisabled false
  else set_text DecPasswordLabel PasswordInvalid;;
       set_flag DecSubmitDisabled true.

(** [#steg-decrypt] submit (lines 116-140) *)
Definition on_dec_submit : PM unit :=
  p ← get_page;
  match dkey (dec p), simg (dec p) with
  | Some k, Some _ =>
      r ← try_catch (on_simg (reveal k));
      match r with
      | inr e => set_flag DecOutputHidden true;; set_text DecStatus (DecryptionError e)
      | inl revealed =>
          set_flag DecOutputHidden false;;
          set_text DecStatus SuccessfullyDecrypted;;
          set_text DecMetadata (HiddenFile (name revealed) (formatSize (Z.of_nat (size revealed)))
                                  (Z.of_nat (size revealed)))
      end
  | _, _ => mret tt
  end.

(** ** The page as a state machine *)

Inductive Event :=
  | EncImage (px : list Z)
  | EncDataFile (f : RawFile)
  | EncPassword (valid : bool) (value : list Z)
  | EncBitsTaken (val : Z)
  | EncSubmit (iv : list Z) (r0 : nat)
  | DecFile (px : list Z)
  | DecPassword (valid : bool) (value : list Z)
  | DecSubmit.

Definition handler (ev : Event) : PM unit :=
  match ev with
  | EncImage px => on_enc_image px
  | EncDataFile f => on_enc_data_file f
  | EncPassword v s => on_enc_password v s
  | EncBitsTaken v => on_enc_bits_taken v
  | EncSubmit iv r0 => on_enc_submit iv r0
  | DecFile px => on_dec_file px
  | DecPassword v s => on_dec_password v s
  | DecSubmit => on_dec_submit
  end.

(** The page after an event, whether its handler returned or threw. *)
Definition step (p : Page) (ev : Event) : Page := snd (handler ev p).

Definition run (p : Page) (evs : list Event) : Page := fold_left step evs p.

(** Events as the browser delivers them: a chosen image decodes to RGBA
    bytes of whole pixels, a chosen file is a [RawFile]. *)
Definition event_ok (ev : Event) : Prop :=
  match ev with
  | EncImage px | DecFile px => bytes_ok px /\ (length px mod 4 = 0)%nat
  | EncDataFile f => raw_ok f
  | _ => True
  end.

Inductive page_reachable : Page -> Prop :=
  | page_init : page_reachable initPage
  | page_step p ev : page_reachable p -> event_ok ev -> page_reachable (step p ev).

(** The object in the encryption cache is one a page can reach from a
    decoded image (Steg.v). *)
Definition enc_obj_ok (c : EncCache) : Prop :=
  match stegImg c with
  | Some o => exists px, bytes_ok px /\ (length px mod 4 = 0)%nat /\ reachable rand px o
  | None => True
  end.

(** What an enabled submit button promises: an image, a file and a key
    are chosen, and the file's size is within the capacity at the current
    [bitsTaken] when that capacity is defined. *)
Definition submit_ok (p : Page) : Prop :=
  flags p SubmitDisabled = Some false ->
  exists o hf k, stegImg (enc p) = Some o /\ hiddenFile (enc p) = Some hf /\ key (enc p) = Some k /\
    forall cap, calcCapacity (length (imageData o)) (bitsTaken (enc p)) = Ok cap -> Z.of_nat (size hf) <= cap_bytes cap.

End Demo.

(** ** Inputs of the witnesses: the pass-through AEAD, the faithful
    canvas and the zero random source of Steg.v, and a stand-in for
    scrypt that returns the password. *)
Definition kdf (password : list Z) (_ : string) (_ _ _ : Z) : list Z := password.

(** Choose the black 13-pixel image, the file [file_a] and the password
    "p"; then move bitsTaken to 8. *)
Definition enc_events : list Event := [EncImage img52; EncDataFile file_a; EncPassword true [112]].
Definition demo_page : Page := @run null_aead faithful_canvas whatwg_text rand0 kdf initPage enc_events.
Definition demo_page8 : Page := @run null_aead faithful_canvas whatwg_text rand0 kdf demo_page [EncBitsTaken 8].

Section DemoProofs.
Context `{AE : AEAD} `{CV : Canvas} `{TC : TextCodec}.
Variable rand : nat -> Z.
Hypothesis rand_byte : forall n, is_byte (rand n).
Variable scrypt : list Z -> string -> Z -> Z -> Z -> list Z.

Ltac pm_unfold := cbv [mbind PM_bind mret PM_ret get_page modify set_flag set_text set_enc set_dec set_output
  on_stegImg on_simg try_catch of_res calcCapacityM revealBitsTakenM M_bind M_ret get_state lift
  enc dec flags texts output bitsTaken stegImg hiddenFile key simg dkey fst snd].

Lemma upd_eq {K V} `{EqDecision K} (m : K -> option V) k v : upd m k v k = Some v.
Proof. unfold upd. case_decide; congruence. Qed.
Lemma upd_ne {K V} `{EqDecision K} (m : K -> option V) k v k' : k' <> k -> upd m k v k' = m k'.
Proof. unfold upd. case_decide; congruence. Qed.

Lemma reformat_submit_ok p : submit_ok (snd (reformat p)).
Proof.
  unfold submit_ok. destruct p as [[bt [o|] [hf|] [k|]] dc fl tx out]; unfold reformat; pm_unfold;
    try (intros H; rewrite upd_eq in H; discriminate).
  destruct (calcCapacity _ _) as [cap|e] eqn:Hc; pm_unfold.
  - destruct (Z.gtb_spec (Z.of_nat (size hf)) (cap_bytes cap)) as [Hgt|Hle]; pm_unfold;
      intros Hf; rewrite upd_eq in Hf; [discriminate|].
    do 3 eexists; split_and!; [reflexivity..|]. intros cap' Hc'. rewrite Hc in Hc'. injection Hc' as <-. lia.
  - intros _. do 3 eexists; split_and!; [reflexivity..|]. intros cap' Hc'. congruence.
Qed.

Lemma reformat_frame p :
  let p' := snd (reformat p) in
  enc p' = enc p /\ dec p' = dec p /\ texts p' = texts p /\ output p' = output p /\
  forall fl, fl <> DataFileDisabled -> fl <> SubmitDisabled -> flags p' fl = flags p fl.
Proof.
  destruct p as [[bt [o|] [hf|] [k|]] dc fl tx out]; unfold reformat; pm_unfold;
    try (destruct (calcCapacity _ _) as [cap|e]; pm_unfold;
         try destruct (Z.of_nat (size hf) >? cap_bytes cap); pm_unfold);
    (split_and!; [reflexivity.. | intros fl' H1 H2; rewrite ?upd_ne by assumption; reflexivity]).
Qed.

Lemma submit_ok_frame p p' :
  enc p' = enc p -> flags p' SubmitDisabled = flags p SubmitDisabled -> submit_ok p -> submit_ok p'.
Proof. unfold submit_ok. intros -> ->. exact id. Qed.

(** Handlers that end in [reformat] and cannot throw before it. *)
Lemma ends_in_reformat p p1 :
  snd (reformat p1) = p -> enc_obj_ok rand (enc p1) -> enc_obj_ok rand (enc p) /\ submit_ok p.
Proof.
  intros <- Hobj. split; [|apply reformat_submit_ok]. rewrite (proj1 (reformat_frame p1)). exact Hobj.
Qed.

Lemma on_enc_image_inv px p : bytes_ok px -> (length px mod 4 = 0)%nat ->
  enc_obj_ok rand (enc (snd (on_enc_image px p))) /\ submit_ok (snd (on_enc_image px p)).
Proof.
  intros Hb Hm. destruct p as [[bt si hf k] dc fl tx out]. unfold on_enc_image. pm_unfold.
  rewrite !calcCapacity_ok by (unfold valid_bits; lia). pm_unfold.
  eapply ends_in_reformat; [reflexivity|]. exists px. split_and!; [exact Hb | exact Hm | apply reach_new].
Qed.

Lemma on_enc_data_file_inv f p : enc_obj_ok rand (enc p) ->
  enc_obj_ok rand (enc (snd (on_enc_data_file f p))) /\ submit_ok (snd (on_enc_data_file f p)).
Proof.
  destruct p as [[bt si hf k] dc fl tx out]. intros Hobj. unfold on_enc_data_file. pm_unfold.
  eapply ends_in_reformat; [reflexivity | exact Hobj].
Qed.

Lemma on_enc_password_inv v s p : enc_obj_ok rand (enc p) ->
  enc_obj_ok rand (enc (snd (on_enc_password scrypt v s p))) /\ submit_ok (snd (on_enc_password scrypt v s p)).
Proof.
  destruct p as [[bt si hf k] dc fl tx out]. intros Hobj. unfold on_enc_password.
  destruct v; pm_unfold; (eapply ends_in_reformat; [reflexivity | exact Hobj]).
Qed.

Lemma on_enc_bits_taken_inv v p : enc_obj_ok rand (enc p) -> submit_ok p ->
  enc_obj_ok rand (enc (snd (on_enc_bits_taken v p))) /\ submit_ok (snd (on_enc_bits_taken v p)).
Proof.
  destruct p as [[bt [o|] hf k] dc fl tx out]; intros Hobj Hsub; unfold on_enc_bits_taken; pm_unfold.
  - destruct (calcCapacity _ v) as [cap|e] eqn:Hc; pm_unfold; [eapply ends_in_reformat; [reflexivity | exact Hobj]|].
    split; [exact Hobj|]. unfold submit_ok in *. cbn [enc flags stegImg hiddenFile key bitsTaken] in *.
    intros Hf. destruct (Hsub Hf) as (o' & hf' & k' & Ho & Hh & Hk & _). injection Ho as <-.
    exists o, hf', k'. split_and!; auto. intros cap Hc'. congruence.
  - split; [exact Hobj|]. unfold submit_ok in *. cbn [enc flags stegImg] in *.
    intros Hf. destruct (Hsub Hf) as (o' & _ & _ & Ho & _). discriminate.
Qed.

(** [hide] on the cached object keeps it reachable, with a buffer of the
    same length. *)
Lemma hide_obj_ok o f k iv b r0 :
  enc_obj_ok rand (mkEncCache b (Some o) (Some f) (Some k)) ->
  exists px, bytes_ok px /\ (length px mod 4 = 0)%nat /\ reachable rand px (snd (hide rand f k iv b r0 o)) /\
    length (imageData (snd (hide rand f k iv b r0 o))) = length (imageData o).
Proof.
  intros (px & Hpx & Hm & Hr).
  pose proof (reach_call rand px o (HideCall f k iv b r0) Hr I) as Hr'.
  pose proof (reachable_wf rand rand_byte px _ Hpx Hm Hr') as (_ & _ & L1).
  pose proof (reachable_wf rand rand_byte px _ Hpx Hm Hr) as (_ & _ & L2).
  cbn [call_state] in Hr', L1. exists px. split_and!; [exact Hpx | exact Hm | exact Hr' | congruence].
Qed.

(** Replacing the cached object by one with a buffer of the same length
    keeps the promise of the submit button. *)
Lemma submit_ok_obj b o o' f k dc fl fl' tx tx' out out' :
  length (imageData o') = length (imageData o) -> fl' SubmitDisabled = fl SubmitDisabled ->
  submit_ok (mkPage (mkEncCache b (Some o) f k) dc fl tx out) ->
  submit_ok (mkPage (mkEncCache b (Some o') f k) dc fl' tx' out').
Proof.
  unfold submit_ok. cbn [enc flags stegImg hiddenFile key bitsTaken]. intros Hl -> Hsub Hf.
  destruct (Hsub Hf) as (o1 & hf & k1 & Ho & Hh & Hk & Hcap). injection Ho as <-.
  exists o', hf, k1. split_and!; auto. rewrite Hl. exact Hcap.
Qed.

Lemma on_enc_submit_inv iv r0 p : enc_obj_ok rand (enc p) -> submit_ok p ->
  enc_obj_ok rand (enc (snd (on_enc_submit rand iv r0 p))) /\ submit_ok (snd (on_enc_submit rand iv r0 p)).
Proof.
  destruct p as [[bt [o|] [hf|] [k|]] dc fl tx out]; intros Hobj Hsub; unfold on_enc_submit; pm_unfold;
    try (split; assumption).
  destruct (hide_obj_ok o hf k iv bt r0 Hobj) as (px & Hpx & Hm & Hr & Hlen).
  destruct (hide rand hf k iv bt r0 o) as [[[url r1]|e] o'] eqn:Hh; cbn [snd] in Hr, Hlen; pm_unfold;
    (split; [exists px; split_and!; assumption|]);
    (eapply submit_ok_obj; [exact Hlen | | exact Hsub]); [rewrite upd_ne by discriminate|]; reflexivity.
Qed.

Ltac dec_frame := split; [reflexivity | rewrite ?upd_ne by discriminate; reflexivity].

Lemma on_dec_file_frame px p :
  enc (snd (on_dec_file px p)) = enc p /\ flags (snd (on_dec_file px p)) SubmitDisabled = flags p SubmitDisabled.
Proof.
  destruct p as [ec dc fl tx out]. unfold on_dec_file. pm_unfold.
  destruct (revealBitsTaken _); pm_unfold; [destruct (calcCapacity _ _)|]; pm_unfold; dec_frame.
Qed.

Lemma on_dec_password_frame v s p :
  enc (snd (on_dec_password scrypt v s p)) = enc p /\
  flags (snd (on_dec_password scrypt v s p)) SubmitDisabled = flags p SubmitDisabled.
Proof. destruct p as [ec dc fl tx out]. unfold on_dec_password. destruct v; pm_unfold; dec_frame. Qed.

Lemma on_dec_submit_frame p :
  enc (snd (on_dec_submit p)) = enc p /\ flags (snd (on_dec_submit p)) SubmitDisabled = flags p SubmitDisabled.
Proof.
  destruct p as [ec [[o|] [k|]] fl tx out]; unfold on_dec_submit; pm_unfold; try dec_frame.
  destruct (reveal k o) as [[f|e] o']; pm_unfold; dec_frame.
Qed.

Lemma step_inv p ev : event_ok ev -> enc_obj_ok rand (enc p) -> submit_ok p ->
  enc_obj_ok rand (enc (step rand scrypt p ev)) /\ submit_ok (step rand scrypt p ev).
Proof.
  intros Hev Hobj Hsub. unfold step. destruct ev; cbn [handler event_ok] in *.
  - destruct Hev. apply on_enc_image_inv; assumption.
  - apply on_enc_data_file_inv, Hobj.
  - apply on_enc_password_inv, Hobj.
  - apply on_enc_bits_taken_inv; assumption.
  - apply on_enc_submit_inv; assumption.
  - destruct (on_dec_file_frame px p) as [He Hf]. rewrite He. split; [exact Hobj | exact (submit_ok_frame _ _ He Hf Hsub)].
  - destruct (on_dec_password_frame valid value p) as [He Hf]. rewrite He. split; [exact Hobj | exact (submit_ok_frame _ _ He Hf Hsub)].
  - destruct (on_dec_submit_frame p) as [He Hf]. rewrite He. split; [exact Hobj | exact (submit_ok_frame _ _ He Hf Hsub)].
Qed.

Lemma page_reachable_inv p : page_reachable rand scrypt p -> enc_obj_ok rand (enc p) /\ submit_ok p.
Proof.
  induction 1 as [|p ev Hr IH Hev]; [split; [exact I | cbn; discriminate]|].
  destruct IH. apply step_inv; assumption.
Qed.

(** C29: On every page the script can reach, whatever the order of the
    events, when the script has enabled the encryption form's submit
    button an image, a file and a key are chosen, and the file's size is
    within the image's capacity at the current [bitsTaken] whenever that
    capacity is defined. *)
Theorem submit_enabled_ready p :
  page_reachable rand scrypt p -> flags p SubmitDisabled = Some false ->
  exists o hf k, stegImg (enc p) = Some o /\ hiddenFile (enc p) = Some hf /\ key (enc p) = Some k /\
    forall cap, calcCapacity (length (imageData o)) (bitsTaken (enc p)) = Ok cap -> Z.of_nat (size hf) <= cap_bytes cap.
Proof. intros Hr. exact (proj2 (page_reachable_inv p Hr)). Qed.

(** [hide] throws [RequiredLengthTooSmall], leaving the object as it was,
    when the packed file and the AEAD overhead exceed the capacity. *)
Lemma hide_too_big f k iv b r0 o cap :
  calcCapacity (length (imageData o)) b = Ok cap ->
  (1 <= length (utf8ToBytes (name f)) <= 255)%nat -> size f = length (data f) ->
  cap_bytes cap - ENCRYPTED_METADATA_SIZE < Z.of_nat (1 + length (utf8ToBytes (name f)) + 4 + size f) ->
  hide rand f k iv b r0 o = (Err RequiredLengthTooSmall, o).
Proof.
  intros Hc Hn Hs Hbig. unfold hide. cbv [mbind M_bind get_state lift]. rewrite Hc. cbn [cap_bytes].
  rewrite (packWithPadding_short f _ _ (pack_ok f _ Hs (createHeader_ok f Hn))); [reflexivity|].
  rewrite !length_app, be32_length. cbn [length] in *. lia.
Qed.

(** C30: The demo's size check ignores the packing and the AEAD
    overhead: when the chosen file's size is within the capacity, so that
    [reformat] enables the submit button, but the packed file (one length
    byte, the UTF-8 name, four size bytes, the contents) and the 28 bytes
    of IV and tag exceed it, submitting throws [RequiredLengthTooSmall]
    from [packWithPadding] and changes nothing on the page. *)
Theorem submit_too_big p iv r0 o hf k cap :
  stegImg (enc p) = Some o -> hiddenFile (enc p) = Some hf -> key (enc p) = Some k ->
  calcCapacity (length (imageData o)) (bitsTaken (enc p)) = Ok cap -> Z.of_nat (size hf) <= cap_bytes cap ->
  (1 <= length (utf8ToBytes (name hf)) <= 255)%nat -> size hf = length (data hf) ->
  cap_bytes cap - ENCRYPTED_METADATA_SIZE < Z.of_nat (1 + length (utf8ToBytes (name hf)) + 4 + size hf) ->
  handler rand scrypt (EncSubmit iv r0) p = (Threw (LibError RequiredLengthTooSmall), p).
Proof.
  destruct p as [[bt si hf' k'] dc fl tx out]; cbn [enc stegImg hiddenFile key bitsTaken].
  intros -> -> -> Hc _ Hn Hs Hbig. cbn [handler]. unfold on_enc_submit. pm_unfold.
  rewrite (hide_too_big hf k iv bt r0 o cap Hc Hn Hs Hbig). reflexivity.
Qed.

(** C31: An invalid password does not clear the key: after a valid
    password, typing an invalid one shows "Invalid password" but keeps
    the previous key in the cache, and [reformat] keeps the submit button
    enabled, so that submitting hides with the previous password's key. *)
Theorem invalid_password_keeps_key p value o hf k cap :
  stegImg (enc p) = Some o -> hiddenFile (enc p) = Some hf -> key (enc p) = Some k ->
  calcCapacity (length (imageData o)) (bitsTaken (enc p)) = Ok cap -> Z.of_nat (size hf) <= cap_bytes cap ->
  let p' := step rand scrypt p (EncPassword false value) in
  texts p' PasswordLabel = Some PasswordInvalid /\ key (enc p') = Some k /\ flags p' SubmitDisabled = Some false.
Proof.
  destruct p as [[bt si hf' k'] dc fl tx out]; cbn [enc stegImg hiddenFile key bitsTaken].
  intros -> -> -> Hc Hle. unfold step. cbn [handler]. unfold on_enc_password, reformat. pm_unfold.
  rewrite Hc. pm_unfold. destruct (Z.gtb_spec (Z.of_nat (size hf)) (cap_bytes cap)); [lia|]. pm_unfold.
  split_and!; [apply upd_eq | reflexivity | apply upd_eq].
Qed.

(** C32: Moving the bitsTaken control before an image is chosen throws
    the TypeError of [cache.stegImg.calcCapacity(val)] on [undefined],
    after the handler has already stored the new value in the cache and
    shown it; the capacity label and the buttons are left as they were. *)
Theorem bits_taken_without_image p v :
  stegImg (enc p) = None ->
  let '(r, p') := handler rand scrypt (EncBitsTaken v) p in
  r = Threw UndefinedStegImage /\ bitsTaken (enc p') = v /\ texts p' BitsTakenValue = Some (BitsValue v) /\
  flags p' = flags p /\ texts p' BitsTakenLabel = texts p BitsTakenLabel.
Proof.
  destruct p as [[bt si hf k] dc fl tx out]; cbn [enc stegImg]. intros ->. cbn [handler].
  unfold on_enc_bits_taken. pm_unfold. split_and!; [reflexivity.. | apply upd_eq | reflexivity | apply upd_ne; discriminate].
Qed.

(** C33: The catch branch of the decryption form's image handler is dead:
    for every chosen image, [revealBitsTaken] returns a [bitsTaken] in
    1..8, the label shows the capacity at that [bitsTaken], and the image
    is stored in the cache; 'Incorrect bitsTaken header' is never shown. *)
Theorem dec_file_header_reads px p :
  let p' := step rand scrypt p (DecFile px) in
  exists b, revealBitsTaken px = Ok b /\ valid_bits b /\
    texts p' DecFileLabel = Some (AmidstMaxSize (formatSize ((Z.of_nat (length px) - 4) * 3 * b / 32))) /\
    simg (dec p') = Some (newStegImage px).
Proof.
  destruct (revealBitsTaken_valid px) as (b & Hb & Hv). exists b. split_and!; [exact Hb | exact Hv | |];
    destruct p as [ec dc fl tx out]; unfold step; cbn [handler]; unfold on_dec_file; pm_unfold;
    cbn [newStegImage imageData]; rewrite Hb; pm_unfold; rewrite calcCapacity_ok by exact Hv; pm_unfold;
    [apply upd_eq | reflexivity].
Qed.

Lemma run_reachable p evs : page_reachable rand scrypt p -> Forall event_ok evs ->
  page_reachable rand scrypt (run rand scrypt p evs).
Proof.
  revert p. induction evs as [|ev evs IH]; intros p Hp Hevs; [exact Hp|].
  inversion Hevs; subst. apply IH; [apply page_step|]; assumption.
Qed.

(** [reveal] on the object the decryption cache holds, when it returns [f]. *)
Lemma reveal_run k o f : fst (reveal k o) = Ok f -> reveal k o = (Ok f, o).
Proof.
  intros H1. pose proof (reveal_state k o) as Hs. destruct (reveal k o) as [r o'].
  cbn in H1, Hs. subst. reflexivity.
Qed.

(** C34: End to end through the page: when the encryption form's submit
    handler returns on a page the script can reach, with the key derived
    from password [pw], loading the image it shows into the decryption
    form, entering [pw] and submitting reports 'Successfully decrypted'
    and shows the hidden file's name and size. *)
Theorem demo_roundtrip p iv r0 pw o hf :
  page_reachable rand scrypt p ->
  stegImg (enc p) = Some o -> hiddenFile (enc p) = Some hf -> key (enc p) = Some (passwordToKey scrypt pw) ->
  raw_ok hf -> text_roundtrips (name hf) -> Z.of_nat (size hf) < 2 ^ 32 ->
  fst (handler rand scrypt (EncSubmit iv r0) p) = Returned tt ->
  exists blob, output (step rand scrypt p (EncSubmit iv r0)) = Some blob /\
    let p' := run rand scrypt (step rand scrypt p (EncSubmit iv r0)) [DecFile (load blob); DecPassword true pw; DecSubmit] in
    texts p' DecStatus = Some SuccessfullyDecrypted /\ flags p' DecOutputHidden = Some false /\
    texts p' DecMetadata = Some (HiddenFile (name hf) (formatSize (Z.of_nat (size hf))) (Z.of_nat (size hf))).
Proof.
  intros Hr Ho Hh Hk Hf Ht Hs Hsub.
  destruct (page_reachable_inv p Hr) as [Hobj _].
  destruct p as [[bt si hf' k'] dc fl tx out]; cbn [enc stegImg hiddenFile key bitsTaken] in *; subst si hf' k'.
  destruct Hobj as (px & Hpx & Hm & Hro). destruct (reachable_wf rand rand_byte px o Hpx Hm Hro) as (_ & Hb & Hl).
  revert Hsub. unfold step. cbn [handler]. unfold on_enc_submit. pm_unfold.
  destruct (hide rand hf (passwordToKey scrypt pw) iv bt r0 o) as [[[blob r1]|e] o'] eqn:Hhide; pm_unfold;
    intros Hsub; [|discriminate].
  exists blob. split; [reflexivity|].
  pose proof (reveal_run _ _ _ (reveal_hide_gen rand rand_byte hf _ iv bt r0 o blob r1 o' Hb
                ltac:(rewrite Hl; exact Hm) Hf Ht Hs Hhide)) as Hrev.
  destruct (revealBitsTaken_valid (load blob)) as (b & Hbt & Hv).
  unfold run, step. cbn [fold_left handler]. unfold on_dec_file, on_dec_password, on_dec_submit. pm_unfold.
  cbn [newStegImage imageData]. rewrite Hbt. pm_unfold. rewrite calcCapacity_ok by exact Hv. pm_unfold.
  rewrite Hrev. pm_unfold. split_and!; [rewrite upd_ne by discriminate; apply upd_eq | apply upd_eq | apply upd_eq].
Qed.
End DemoProofs.

Lemma enc_events_ok : Forall event_ok enc_events.
Proof.
  unfold enc_events. apply List.Forall_cons; [|apply List.Forall_cons; [|apply List.Forall_cons; [|apply List.Forall_nil]]];
    cbn [event_ok]; [split; [bytes_ok_by_eval | reflexivity] | split_and!; [reflexivity | bytes_ok_by_eval | repeat constructor; lia]
    | exact I].
Qed.

Lemma demo_page_reachable :
  page_reachable (AE := null_aead) (CV := faithful_canvas) (TC := whatwg_text) rand0 kdf demo_page.
Proof. apply run_reachable; [apply page_init | apply enc_events_ok]. Qed.

Lemma submit_enabled_ready_witness :
  flags demo_page SubmitDisabled = Some false /\
  exists o hf k, stegImg (enc demo_page) = Some o /\ hiddenFile (enc demo_page) = Some hf /\ key (enc demo_page) = Some k /\
    forall cap, calcCapacity (length (imageData o)) (bitsTaken (enc demo_page)) = Ok cap -> Z.of_nat (size hf) <= cap_bytes cap.
Proof.
  split; [vm_compute; reflexivity|].
  apply (@submit_enabled_ready null_aead faithful_canvas whatwg_text rand0 rand0_byte kdf demo_page);
    [apply demo_page_reachable | vm_compute; reflexivity].
Defined.

Lemma submit_too_big_witness :
  flags demo_page SubmitDisabled = Some false /\
  handler (AE := null_aead) (CV := faithful_canvas) (TC := whatwg_text) rand0 kdf (EncSubmit iv0 0) demo_page = (Threw (LibError RequiredLengthTooSmall), demo_page).
Proof.
  split; [vm_compute; reflexivity|].
  apply (@submit_too_big null_aead faithful_canvas whatwg_text rand0 kdf demo_page iv0 0 (newStegImage img52) file_a [112]
           (mkCapacity (capacity_bits 52 1) 4));
    [vm_compute; reflexivity .. | cbn; lia | cbn; lia | reflexivity | vm_compute; reflexivity].
Defined.

Lemma invalid_password_keeps_key_witness :
  let p' := step (AE := null_aead) (CV := faithful_canvas) (TC := whatwg_text) rand0 kdf demo_page (EncPassword false [1]) in
  texts p' PasswordLabel = Some PasswordInvalid /\ key (enc p') = Some [112] /\ flags p' SubmitDisabled = Some false.
Proof.
  apply (@invalid_password_keeps_key null_aead faithful_canvas whatwg_text rand0 kdf demo_page [1]
           (newStegImage img52) file_a [112] (mkCapacity (capacity_bits 52 1) 4));
    [vm_compute; reflexivity .. | cbn; lia].
Defined.

Lemma bits_taken_without_image_witness :
  let '(r, p') := handler (AE := null_aead) (CV := faithful_canvas) (TC := whatwg_text) rand0 kdf (EncBitsTaken 3) (@initPage faithful_canvas) in
  r = Threw UndefinedStegImage /\ bitsTaken (enc p') = 3 /\ texts p' BitsTakenValue = Some (BitsValue 3) /\
  flags p' = flags (@initPage faithful_canvas) /\ texts p' BitsTakenLabel = texts (@initPage faithful_canvas) BitsTakenLabel.
Proof. apply (@bits_taken_without_image null_aead faithful_canvas whatwg_text rand0 kdf (@initPage faithful_canvas) 3). reflexivity. Defined.

Lemma demo_roundtrip_witness :
  exists blob, output (step (AE := null_aead) (CV := faithful_canvas) (TC := whatwg_text) rand0 kdf demo_page8 (EncSubmit iv0 0)) = Some blob /\
    let p' := run (AE := null_aead) (CV := faithful_canvas) (TC := whatwg_text) rand0 kdf (step (AE := null_aead) (CV := faithful_canvas) (TC := whatwg_text) rand0 kdf demo_page8 (EncSubmit iv0 0)) [DecFile (load blob); DecPassword true [112]; DecSubmit] in
    texts p' DecStatus = Some SuccessfullyDecrypted /\ flags p' DecOutputHidden = Some false /\
    texts p' DecMetadata = Some (HiddenFile (name file_a) (formatSize (Z.of_nat (size file_a))) (Z.of_nat (size file_a))).
Proof.
  apply (@demo_roundtrip null_aead faithful_canvas whatwg_text rand0 rand0_byte kdf demo_page8 iv0 0 [112]
           (newStegImage img52) file_a);
    [apply run_reachable; [apply demo_page_reachable | apply List.Forall_cons; [exact I | apply List.Forall_nil]]
    | vm_compute; reflexivity .. | split_and!; [reflexivity | bytes_ok_by_eval | repeat constructor; lia]
    | split; [reflexivity | simpl; congruence] | simpl; lia | vm_compute; reflexivity].
Defined.
